(** * Genome-Browser: the GFF3 parser, the hierarchy builder, the track
    layout and the redraw pipeline, embedded in Rocq.

    Sources embedded here:
    - [src/utils/gff3Parser.js]: [parseAttributes], [parseGFF3Line],
      [buildHierarchy], [parseGFF3];
    - [src/components/GenomeBrowser.jsx]: [organizeIntoTracks],
      [hasOverlap], [updateFeatures], [renderFeature], [renderGene],
      [renderMRNA], [renderExon], [renderCDS] and the zoom handler.

    A JavaScript string is the list of its UTF-16 code units.  The
    functions of the language runtime that the sources call ([trim],
    [split], [parseInt], [decodeURIComponent], ...) are written out from
    ECMA-262 in module [JS]. *)

From Stdlib Require Import ZArith NArith List String Ascii Lia Bool.
From Stdlib Require Import Floats Sorted.
From stdpp Require Import base option list gmap.

Local Set Warnings "-inexact-float,-register-all,-clear-no-such-hyp".
Local Open Scope N_scope.

(* ===================================================================== *)
(** * The language runtime                                                *)
(* ===================================================================== *)

Module JS.

(** A string is a sequence of 16-bit code units. *)
Abbreviation jsstring := (list N).

(** A literal of the source text, as code units. *)
Definition lit (s : string) : jsstring :=
  List.map N_of_ascii (list_ascii_of_string s).

Definition TAB : N := 9.
Definition LF : N := 10.
Definition CR : N := 13.
Definition HASH : N := 35.
Definition PERCENT : N := 37.
Definition PLUS : N := 43.
Definition MINUS : N := 45.
Definition SEMICOLON : N := 59.
Definition EQUALS : N := 61.

Definition str_eqb (a b : jsstring) : bool := bool_decide (a = b).

(** WhiteSpace and LineTerminator code units (ECMA-262, 12.2 and 12.3):
    what [String.prototype.trim] and [parseInt] strip. *)
Definition isWhiteSpace (c : N) : bool :=
  (9 <=? c) && (c <=? 13)
  || (c =? 32) || (c =? 160) || (c =? 5760)
  || (8192 <=? c) && (c <=? 8202)
  || (c =? 8232) || (c =? 8233) || (c =? 8239) || (c =? 8287)
  || (c =? 12288) || (c =? 65279).

Fixpoint trimStart (s : jsstring) : jsstring :=
  match s with
  | c :: r => if isWhiteSpace c then trimStart r else s
  | [] => []
  end.

Definition trimEnd (s : jsstring) : jsstring := rev (trimStart (rev s)).

(** [s.trim()] *)
Definition trim (s : jsstring) : jsstring := trimEnd (trimStart s).

(** Puts a code unit in front of the first piece of a split. *)
Definition cons_head (c : N) (pieces : list jsstring) : list jsstring :=
  match pieces with
  | h :: t => (c :: h) :: t
  | [] => [[c]]
  end.

(** [s.split(sep)] for a separator of one code unit. *)
Fixpoint split (sep : N) (s : jsstring) : list jsstring :=
  match s with
  | [] => [[]]
  | c :: r => if c =? sep then [] :: split sep r else cons_head c (split sep r)
  end.

(** [s.split(/\r?\n/)]: a line feed, with the carriage return before it
    when there is one, separates two lines; a carriage return alone does
    not. *)
Fixpoint splitLines (s : jsstring) : list jsstring :=
  match s with
  | [] => [[]]
  | c :: r =>
      if c =? LF then [] :: splitLines r
      else match r with
           | d :: r' =>
               if (c =? CR) && (d =? LF) then [] :: splitLines r'
               else cons_head c (splitLines r)
           | [] => [[c]]
           end
  end.

(** [s.startsWith(c)] for one code unit. *)
Definition startsWith (c : N) (s : jsstring) : bool :=
  match s with
  | d :: _ => d =? c
  | [] => false
  end.

(** [s.indexOf(c)]: [None] stands for -1. *)
Fixpoint indexOf (c : N) (s : jsstring) : option nat :=
  match s with
  | [] => None
  | d :: r => if d =? c then Some O else S <$> indexOf c r
  end.

(** [s.substring(a, b)] and [s.substring(a)] for indices within the string. *)
Definition substring (a b : nat) (s : jsstring) : jsstring := take (b - a) (drop a s).
Definition substringFrom (a : nat) (s : jsstring) : jsstring := drop a s.

(** ** Numbers

    The values [parseInt] can return: NaN, the two infinities, and the
    finite doubles that are integers.  [Fin z] is the double whose value
    is [z]; -0 and +0 are not told apart (no code here can). *)
Inductive number : Type :=
| NaN
| NegInf
| Fin (z : Z)
| PosInf.

Definition isNaN (x : number) : bool :=
  match x with NaN => true | _ => false end.

(** [x < y] on numbers: false as soon as one side is NaN. *)
Definition num_lt (x y : number) : bool :=
  match x, y with
  | NaN, _ | _, NaN => false
  | NegInf, NegInf => false
  | NegInf, _ => true
  | _, NegInf => false
  | PosInf, _ => false
  | Fin _, PosInf => true
  | Fin a, Fin b => (a <? b)%Z
  end.

(** [x > y] *)
Definition num_gt (x y : number) : bool := num_lt y x.

(** [x <= y] *)
Definition num_le (x y : number) : bool :=
  match x, y with
  | NaN, _ | _, NaN => false
  | NegInf, _ => true
  | _, NegInf => false
  | _, PosInf => true
  | PosInf, _ => false
  | Fin a, Fin b => (a <=? b)%Z
  end.

(** [x === y] on numbers. *)
Definition num_eqb (x y : number) : bool :=
  match x, y with
  | NegInf, NegInf | PosInf, PosInf => true
  | Fin a, Fin b => (a =? b)%Z
  | _, _ => false
  end.

(** [Math.min(x, y)] and [Math.max(x, y)] *)
Definition num_min (x y : number) : number :=
  if isNaN x || isNaN y then NaN else if num_lt y x then y else x.
Definition num_max (x y : number) : number :=
  if isNaN x || isNaN y then NaN else if num_lt x y then y else x.

(** The double nearest to a positive integer (round to nearest, ties to
    even), or +Infinity from 2^1024 - 2^970 on.  Below 2^53 every integer
    is a double. *)
Definition roundPos (m : Z) : number :=
  let e := (Z.log2 m - 52)%Z in
  if (e <=? 0)%Z then Fin m
  else
    let q := Z.shiftr m e in
    let r := Z.land m (Z.ones e) in
    let half := Z.shiftl 1 (e - 1) in
    let q' := if (half <? r)%Z || (half =? r)%Z && Z.odd q then (q + 1)%Z else q in
    let v := Z.shiftl q' e in
    if (Z.shiftl 1 1024 <=? v)%Z then PosInf else Fin v.

(** The Number value of a mathematical integer. *)
Definition toNumber (z : Z) : number :=
  match z with
  | Z0 => Fin 0
  | Zpos _ => roundPos z
  | Zneg _ => match roundPos (- z) with
              | Fin v => Fin (- v)
              | PosInf => NegInf
              | other => other
              end
  end.

Definition isDigit (c : N) : bool := (48 <=? c) && (c <=? 57).

(** The longest prefix of decimal digits, read as an integer, most
    significant digit first; [None] when there is no digit. *)
Fixpoint digitsValue (acc : option Z) (s : jsstring) : option Z :=
  match s with
  | c :: r =>
      if isDigit c
      then digitsValue (Some (10 * default 0%Z acc + Z.of_N (c - 48))%Z) r
      else acc
  | [] => acc
  end.

(** [parseInt(s, 10)] (ECMA-262, 19.2.5): leading white space is
    skipped, one sign is read, then the longest run of decimal digits;
    what follows the digits is ignored; no digit gives NaN. *)
Definition parseInt10 (s : jsstring) : number :=
  let s1 := trimStart s in
  let '(neg, s2) :=
    match s1 with
    | c :: r => if c =? MINUS then (true, r)
                else if c =? PLUS then (false, r) else (false, s1)
    | [] => (false, s1)
    end in
  match digitsValue None s2 with
  | None => NaN
  | Some m => toNumber (if neg then - m else m)%Z
  end.

(** The binary64 value of a number, for the arithmetic of the renderer. *)
Definition toFloat (x : number) : float :=
  match x with
  | NaN => PrimFloat.nan
  | NegInf => PrimFloat.neg_infinity
  | PosInf => PrimFloat.infinity
  | Fin z => SF2Prim (SpecFloat.binary_normalize 53 1024 z 0 false)
  end.

(** ** decodeURIComponent (ECMA-262, 19.2.6.5 Decode with an empty
    reserved set) *)

Definition hexValue (c : N) : option N :=
  if (48 <=? c) && (c <=? 57) then Some (c - 48)
  else if (65 <=? c) && (c <=? 70) then Some (c - 55)
  else if (97 <=? c) && (c <=? 102) then Some (c - 87)
  else None.

(** A string cut into plain code units and escaped octets. *)
Inductive token : Type :=
| Plain (c : N)
| Octet (b : N).

(** [None]: a '%' that two hexadecimal digits do not follow. *)
Fixpoint tokens (s : jsstring) : option (list token) :=
  match s with
  | [] => Some []
  | c :: r =>
      if c =? PERCENT then
        match r with
        | h1 :: h2 :: r' =>
            match hexValue h1, hexValue h2 with
            | Some a, Some b => (Octet (16 * a + b) ::.) <$> tokens r'
            | _, _ => None
            end
        | _ => None
        end
      else (Plain c ::.) <$> tokens r
  end.

Definition isContinuation (b : N) : bool := (128 <=? b) && (b <=? 191).

(** The code units of a code point (UTF16EncodeCodePoint). *)
Definition utf16 (cp : N) : jsstring :=
  if cp <? 65536 then [cp]
  else [55296 + (cp - 65536) / 1024; 56320 + (cp - 65536) mod 1024].

(** A code point is well encoded when it is not below the least value
    of its length (no overlong form), not a surrogate, and at most
    U+10FFFF. *)
Definition validCodePoint (least cp : N) : bool :=
  (least <=? cp) && (cp <=? 1114111) && negb ((55296 <=? cp) && (cp <=? 57343)).

(** Decodes the octets as UTF-8; [None] is the URIError. *)
Fixpoint decodeTokens (ts : list token) : option jsstring :=
  match ts with
  | [] => Some []
  | Plain c :: r => (c ::.) <$> decodeTokens r
  | Octet b :: r =>
      if b <? 128 then (b ::.) <$> decodeTokens r
      else if (192 <=? b) && (b <? 224) then
        match r with
        | Octet b1 :: r1 =>
            let cp := (b - 192) * 64 + (b1 - 128) in
            if isContinuation b1 && validCodePoint 128 cp
            then (utf16 cp ++.) <$> decodeTokens r1 else None
        | _ => None
        end
      else if (224 <=? b) && (b <? 240) then
        match r with
        | Octet b1 :: Octet b2 :: r2 =>
            let cp := (b - 224) * 4096 + (b1 - 128) * 64 + (b2 - 128) in
            if isContinuation b1 && isContinuation b2 && validCodePoint 2048 cp
            then (utf16 cp ++.) <$> decodeTokens r2 else None
        | _ => None
        end
      else if (240 <=? b) && (b <? 248) then
        match r with
        | Octet b1 :: Octet b2 :: Octet b3 :: r3 =>
            let cp := (b - 240) * 262144 + (b1 - 128) * 4096
                      + (b2 - 128) * 64 + (b3 - 128) in
            if isContinuation b1 && isContinuation b2 && isContinuation b3
               && validCodePoint 65536 cp
            then (utf16 cp ++.) <$> decodeTokens r3 else None
        | _ => None
        end
      else None
  end.

(** [decodeURIComponent(s)]; [None] when it throws URIError. *)
Definition decodeURIComponent (s : jsstring) : option jsstring :=
  tokens s ≫= decodeTokens.

End JS.

(* ===================================================================== *)
(** * src/utils/gff3Parser.js                                             *)
(* ===================================================================== *)

Module Gff3Parser.
Import JS.

(** What a line can throw.  The source throws [Error] objects told apart
    by their message template; a constructor stands for a template and
    carries the values interpolated into it.  [URIError] is the runtime's
    own exception, thrown by [decodeURIComponent]. *)
Inductive LineError : Type :=
| ColumnCountError (lineNumber : nat) (got : nat)
| CoordinateTypeError (lineNumber : nat)
| CoordinateOrderError (lineNumber : nat) (startPos endPos : number)
| StrandError (lineNumber : nat) (strand : jsstring)
| URIError.

(** The object [parseGFF3Line] returns, without its two mutable fields
    [children] and [parent], which live in [Links] below.  [score] keeps
    the token [parseFloat] is applied to: the decimal-to-binary
    conversion is not modelled, and nothing here reads the value. *)
Record Feature : Type := {
  seqid : jsstring;
  source : jsstring;
  type_ : jsstring;
  start : number;
  end_ : number;
  score : option jsstring;
  strand : jsstring;
  phase : option number;
  attributes : gmap jsstring jsstring;
  lineNumber : nat
}.

(** A call either returns or throws. *)
Inductive completion (A E : Type) : Type :=
| Return (a : A)
| Throw (e : E).
Arguments Return {A E} a.
Arguments Throw {A E} e.

(** [attributes[key] = value] on an object literal: the key "__proto__"
    reaches the prototype setter, which ignores a string. *)
Definition setAttribute (key value : jsstring) (attributes : gmap jsstring jsstring)
  : gmap jsstring jsstring :=
  if str_eqb key (lit "__proto__") then attributes else <[key := value]> attributes.

(** The loop of [parseAttributes] over the pairs; [None] is the
    URIError of [decodeURIComponent]. *)
Fixpoint parsePairs (pairs : list jsstring) (attributes : gmap jsstring jsstring)
  : option (gmap jsstring jsstring) :=
  match pairs with
  | [] => Some attributes
  | pair_ :: rest =>
      let trimmedPair := trim pair_ in
      match trimmedPair with
      | [] => parsePairs rest attributes
      | _ :: _ =>
          match indexOf EQUALS trimmedPair with
          | None => parsePairs rest attributes
          | Some equalIndex =>
              let key := trim (substring 0 equalIndex trimmedPair) in
              let value := trim (substringFrom (equalIndex + 1) trimmedPair) in
              match decodeURIComponent value with
              | None => None
              | Some decoded => parsePairs rest (setAttribute key decoded attributes)
              end
          end
      end
  end.

Definition parseAttributes (attributeString : jsstring) : option (gmap jsstring jsstring) :=
  match attributeString with
  | [] => Some ∅
  | _ :: _ =>
      if str_eqb attributeString (lit ".") then Some ∅
      else parsePairs (split SEMICOLON attributeString) ∅
  end.

Definition validStrand (strand : jsstring) : bool :=
  str_eqb strand (lit "+") || str_eqb strand (lit "-")
  || str_eqb strand (lit ".") || str_eqb strand (lit "?").

(** [Return None] is the source's [return null]. *)
Definition parseGFF3Line (line : jsstring) (lineNumber : nat)
  : completion (option Feature) LineError :=
  let trimmed := trim line in
  match trimmed with
  | [] => Return None
  | _ :: _ =>
      if startsWith HASH trimmed then Return None
      else
        let columns := split TAB trimmed in
        match columns with
        | [seqid; source; type; start; end'; score; strand; phase; attributeString] =>
            let startPos := parseInt10 start in
            let endPos := parseInt10 end' in
            if isNaN startPos || isNaN endPos then Throw (CoordinateTypeError lineNumber)
            else if num_gt startPos endPos
            then Throw (CoordinateOrderError lineNumber startPos endPos)
            else if negb (validStrand strand) then Throw (StrandError lineNumber strand)
            else
              match parseAttributes attributeString with
              | None => Throw URIError
              | Some attributes =>
                  Return (Some {|
                    seqid := seqid;
                    source := source;
                    type_ := type;
                    start := startPos;
                    end_ := endPos;
                    score := if str_eqb score (lit ".") then None else Some score;
                    strand := strand;
                    phase := if str_eqb phase (lit ".") then None
                             else Some (parseInt10 phase);
                    attributes := attributes;
                    lineNumber := lineNumber |})
              end
        | _ => Throw (ColumnCountError lineNumber (length columns))
        end
  end.

(** ** buildHierarchy

    The features are objects held by reference; the position of a
    feature in the array [features] is its identity here.  [parents] and
    [childLists] hold, position by position, the fields [parent] and
    [children] that the second pass mutates. *)
Record Links : Type := {
  parents : list (option nat);
  childLists : list (list nat)
}.

(** One call of [console.warn], with the values of its message. *)
Record Warning : Type := {
  warnLine : nat;
  warnParent : jsstring;
  warnFeature : option jsstring
}.

(** A property read used as a condition or with [||]: a missing
    property and the empty string are both falsy. *)
Definition truthy (v : option jsstring) : option jsstring :=
  match v with
  | Some (c :: s) => Some (c :: s)
  | _ => None
  end.

Definition attr (name : string) (feature : Feature) : option jsstring :=
  truthy (attributes feature !! lit name).

(** First pass: [featureById.set(feature.attributes.ID, feature)]. *)
Fixpoint indexById (features : list Feature) (i : nat) (featureById : gmap jsstring nat)
  : gmap jsstring nat :=
  match features with
  | [] => featureById
  | feature :: rest =>
      indexById rest (S i)
        match attr "ID" feature with
        | Some id => <[id := i]> featureById
        | None => featureById
        end
  end.

Record LinkState : Type := {
  links : Links;
  rootFeatures : list nat;
  console : list Warning
}.

(** [feature.parent = parent; parent.children.push(feature)] *)
Definition linkChild (i p : nat) (l : Links) : Links :=
  {| parents := <[i := Some p]> (parents l);
     childLists := alter (λ cs, cs ++ [i]) p (childLists l) |}.

(** The body of the second loop, for the feature at position [i]. *)
Definition linkStep (featureById : gmap jsstring nat) (i : nat) (feature : Feature)
    (st : LinkState) : LinkState :=
  match attr "Parent" feature with
  | Some parentId =>
      match featureById !! parentId with
      | Some p =>
          {| links := linkChild i p (links st);
             rootFeatures := rootFeatures st;
             console := console st |}
      | None =>
          {| links := links st;
             rootFeatures := rootFeatures st ++ [i];
             console := console st ++
               [{| warnLine := lineNumber feature;
                   warnParent := parentId;
                   warnFeature := attr "ID" feature |}] |}
      end
  | None =>
      {| links := links st;
         rootFeatures := rootFeatures st ++ [i];
         console := console st |}
  end.

Fixpoint linkAll (featureById : gmap jsstring nat) (features : list Feature) (i : nat)
    (st : LinkState) : LinkState :=
  match features with
  | [] => st
  | feature :: rest => linkAll featureById rest (S i) (linkStep featureById i feature st)
  end.

(** Every feature comes out of [parseGFF3Line] with [children: []] and
    [parent: null]. *)
Definition freshLinks (n : nat) : Links :=
  {| parents := replicate n None; childLists := replicate n [] |}.

Record Hierarchy : Type := {
  featureById : gmap jsstring nat;
  hierarchyState : LinkState;
  allFeatures : list Feature
}.

Definition buildHierarchy (features : list Feature) : Hierarchy :=
  let byId := indexById features 0 ∅ in
  {| featureById := byId;
     hierarchyState :=
       linkAll byId features 0
         {| links := freshLinks (length features); rootFeatures := []; console := [] |};
     allFeatures := features |}.

(** ** parseGFF3 *)

Record ErrorEntry : Type := {
  errLineNumber : nat;
  errMessage : LineError;
  errLine : jsstring
}.

(** The two errors [parseGFF3] throws itself.  [MalformedFile] carries
    what its message is assembled from: the number of errors, the listed
    lines with their messages, and the count after "... and" when there
    is one. *)
Inductive FileError : Type :=
| InvalidInput
| MalformedFile (count : nat) (listed : list (nat * LineError)) (more : option nat).

(** The loop over the lines; [i] is the loop index. *)
Fixpoint parseLines (lines : list jsstring) (i : nat)
    (features : list Feature) (errors : list ErrorEntry)
  : list Feature * list ErrorEntry :=
  match lines with
  | [] => (features, errors)
  | line :: rest =>
      let lineNumber := (i + 1)%nat in
      match parseGFF3Line line lineNumber with
      | Return (Some feature) => parseLines rest (S i) (features ++ [feature]) errors
      | Return None => parseLines rest (S i) features errors
      | Throw error =>
          parseLines rest (S i) features
            (errors ++ [{| errLineNumber := lineNumber;
                           errMessage := error;
                           errLine := substring 0 100 line |}])
      end
  end.

(** [errors.length > 0 && errors.length / lines.length > 0.1].  The
    quotient is a binary64 division and 0.1 the double nearest to one
    tenth; the comparison is taken here on the exact quotient.  The two
    agree for every [lines.length] below 2^52: the quotient of two such
    integers is at least 1 / (10 * lines.length) away from one tenth
    unless it is one tenth, and then it rounds to the double 0.1. *)
Definition tooManyErrors (nErrors nLines : nat) : bool :=
  (0 <? nErrors)%nat && (nLines <? 10 * nErrors)%nat.

(** The same test with the quotient and the comparison in binary64.
    The two lengths are below 2^32, so their conversion is exact. *)
Definition lengthToFloat (n : nat) : float :=
  PrimFloat.of_uint63 (Uint63.of_Z (Z.of_nat n)).

Definition tooManyErrors64 (nErrors nLines : nat) : bool :=
  (0 <? nErrors)%nat && (0.1 <? lengthToFloat nErrors / lengthToFloat nLines)%float.

Definition malformedFile (errors : list ErrorEntry) : FileError :=
  MalformedFile (length errors)
    ((λ e, (errLineNumber e, errMessage e)) <$> take 5 errors)
    (if (5 <? length errors)%nat then Some (length errors - 5)%nat else None).

(** [Array.from] of a [Set] filled by [add]: first occurrences, in order. *)
Fixpoint distinct (seen l : list jsstring) : list jsstring :=
  match l with
  | [] => []
  | x :: r => if bool_decide (x ∈ seen) then distinct seen r
              else x :: distinct (x :: seen) r
  end.

Record Extent : Type := { extentStart : number; extentEnd : number }.

Record Stats : Type := {
  totalFeatures : nat;
  statRootFeatures : nat;
  statErrors : nat
}.

(** The object [parseGFF3] returns, with the links between its features
    and what the call wrote to the console. *)
Record ParseResult : Type := {
  features : list Feature;
  resultLinks : Links;
  resultRootFeatures : list nat;
  resultFeatureById : gmap jsstring nat;
  extent : Extent;
  sequences : list jsstring;
  featureTypes : list jsstring;
  stats : Stats;
  errors : list ErrorEntry;
  warnings : list Warning
}.

Definition computeExtent (features : list Feature) : Extent :=
  let minStart := foldl (λ m f, num_min m (start f)) PosInf features in
  let maxEnd := foldl (λ m f, num_max m (end_ f)) NegInf features in
  {| extentStart := if num_eqb minStart PosInf then Fin 0 else minStart;
     extentEnd := if num_eqb maxEnd NegInf then Fin 0 else maxEnd |}.

Definition parseGFF3 (fileContent : jsstring) : completion ParseResult FileError :=
  match fileContent with
  | [] => Throw InvalidInput
  | _ :: _ =>
      let lines := splitLines fileContent in
      let '(features, errors) := parseLines lines 0 [] [] in
      if tooManyErrors (length errors) (length lines) then Throw (malformedFile errors)
      else
        let hierarchy := buildHierarchy features in
        let st := hierarchyState hierarchy in
        Return {|
          features := allFeatures hierarchy;
          resultLinks := links st;
          resultRootFeatures := rootFeatures st;
          resultFeatureById := featureById hierarchy;
          extent := computeExtent features;
          sequences := distinct [] (seqid <$> features);
          featureTypes := distinct [] (type_ <$> features);
          stats := {| totalFeatures := length features;
                      statRootFeatures := length (rootFeatures st);
                      statErrors := length errors |};
          errors := errors;
          warnings := console st |}
  end.

End Gff3Parser.

(* ===================================================================== *)
(** * src/components/GenomeBrowser.jsx                                    *)
(* ===================================================================== *)

Module GenomeBrowser.
Import JS Gff3Parser.

(** A feature object as the component sees it: the record of the parser
    with its [children] array.  The component only ever walks down from
    [data.rootFeatures], and a feature that is in some [children] array
    is not a root, so what it walks is a finite tree. *)
Inductive FeatureNode : Type :=
| Node (feature : Feature) (children : list FeatureNode).

Definition nodeFeature (node : FeatureNode) : Feature :=
  match node with Node feature _ => feature end.

Definition children (node : FeatureNode) : list FeatureNode :=
  match node with Node _ children => children end.

(** The tree below position [i] of a parse result, followed through the
    [children] arrays, at most [depth] levels deep. *)
Fixpoint subtree (features : list Feature) (childLists : list (list nat))
    (depth : nat) (i : nat) : option FeatureNode :=
  match depth with
  | O => None
  | S depth' =>
      feature ← features !! i;
      below ← childLists !! i;
      Node feature <$> mapM (subtree features childLists depth') below
  end.

(** [data.rootFeatures] *)
Definition rootNodes (data : ParseResult) : option (list FeatureNode) :=
  mapM (subtree (features data) (childLists (resultLinks data))
          (S (length (features data))))
       (resultRootFeatures data).

(** ** Track layout *)

(** [!(f.end < feature.start || f.start > feature.end)] *)
Definition overlaps (f feature : FeatureNode) : bool :=
  negb (num_lt (end_ (nodeFeature f)) (start (nodeFeature feature))
        || num_gt (start (nodeFeature f)) (end_ (nodeFeature feature))).

(** [track.some(f => ...)] *)
Definition hasOverlap (track : list FeatureNode) (feature : FeatureNode) : bool :=
  existsb (λ f, overlaps f feature) track.

(** The [for (const track of tracks)] loop with its [break]: [None]
    when it ends with [placed] still false. *)
Fixpoint place (tracks : list (list FeatureNode)) (feature : FeatureNode)
  : option (list (list FeatureNode)) :=
  match tracks with
  | [] => None
  | track :: rest =>
      if negb (hasOverlap track feature) then Some ((track ++ [feature]) :: rest)
      else (track ::.) <$> place rest feature
  end.

(** The body of [features.forEach]. *)
Definition placeFeature (tracks : list (list FeatureNode)) (feature : FeatureNode)
  : list (list FeatureNode) :=
  match place tracks feature with
  | Some placed => placed
  | None => tracks ++ [[feature]]
  end.

Definition organizeIntoTracks (features : list FeatureNode) : list (list FeatureNode) :=
  foldl placeFeature [] features.

(** ** Redraw

    Numbers are binary64 floats here.  A d3 scale is a function with its
    inverse; [width] is the width of the drawing area. *)
Local Open Scope float_scope.

Record Scale : Type := {
  scaleApply : float → float;
  scaleInvert : float → float
}.

(** [d3.scaleLinear().domain([d0, d1]).range([r0, r1])] *)
Definition scaleLinear (d0 d1 r0 r1 : float) : Scale :=
  {| scaleApply := λ x, let t := (x - d0) / (d1 - d0) in r0 * (1 - t) + r1 * t;
     scaleInvert := λ y, let t := (y - r0) / (r1 - r0) in d0 * (1 - t) + d1 * t |}.

(** What a redraw appends to a track group, each with the feature it is
    drawn for (the one handed to its pointer handlers) and its
    horizontal geometry. *)
Inductive Primitive : Type :=
| GenePath (feature : Feature) (x width : float)
| IntronLine (x1 x2 : float)
| ExonRect (feature : Feature) (x width : float)
| CDSRect (feature : Feature) (x width : float).

Definition maxFloat (a b : float) : float :=
  if PrimFloat.is_nan a || PrimFloat.is_nan b then nan else if a <? b then b else a.

Definition hasType (name : string) (node : FeatureNode) : bool :=
  str_eqb (type_ (nodeFeature node)) (lit name).

Definition startOf (node : FeatureNode) : float := toFloat (start (nodeFeature node)).
Definition endOf (node : FeatureNode) : float := toFloat (end_ (nodeFeature node)).

(** [exons.sort((a, b) => a.start - b.start)]: the sort is stable; an
    element goes in front of the first one that compares greater. *)
Fixpoint insertByStart (x : FeatureNode) (sorted : list FeatureNode) : list FeatureNode :=
  match sorted with
  | [] => [x]
  | y :: rest =>
      if 0 <? startOf y - startOf x then x :: y :: rest
      else y :: insertByStart x rest
  end.

Definition sortByStart (l : list FeatureNode) : list FeatureNode :=
  foldl (λ sorted x, insertByStart x sorted) [] l.

(** The loop of [renderMRNA] over the pairs of neighbouring exons. *)
Fixpoint introns (scale : Scale) (viewStart viewEnd : float) (exons : list FeatureNode)
  : list Primitive :=
  match exons with
  | exon1 :: (exon2 :: _) as rest =>
      (if (startOf exon2 <? viewStart) || (viewEnd <? endOf exon1) then []
       else [IntronLine (scaleApply scale (endOf exon1)) (scaleApply scale (startOf exon2))])
      ++ introns scale viewStart viewEnd rest
  | _ => []
  end.

(** The body shared by the two [forEach] of [renderMRNA]. *)
Definition block (rect : Feature → float → float → Primitive) (scale : Scale)
    (viewStart viewEnd : float) (child : FeatureNode) : list Primitive :=
  if (endOf child <? viewStart) || (viewEnd <? startOf child) then []
  else
    let x := scaleApply scale (startOf child) in
    let width := scaleApply scale (endOf child) - scaleApply scale (startOf child) in
    if width <? 0.5 then [] else [rect (nodeFeature child) x (maxFloat 1 width)].

Definition renderMRNA (width : float) (scale : Scale) (feature : FeatureNode)
  : list Primitive :=
  let viewStart := scaleInvert scale 0 in
  let viewEnd := scaleInvert scale width in
  let exons := sortByStart (filter (λ c, hasType "exon" c = true) (children feature)) in
  let cdss := filter (λ c, hasType "CDS" c = true) (children feature) in
  introns scale viewStart viewEnd exons
  ++ flat_map (block ExonRect scale viewStart viewEnd) exons
  ++ flat_map (block CDSRect scale viewStart viewEnd) cdss.

(** [renderFeature], with [renderGene], [renderExon] and [renderCDS]
    in its branches; the inner loop is the [children.forEach] of
    [renderGene]. *)
Fixpoint renderFeature (width : float) (scale : Scale) (node : FeatureNode)
  : list Primitive :=
  match node with
  | Node feature below =>
      let x := scaleApply scale (toFloat (start feature)) in
      let featureWidth :=
        scaleApply scale (toFloat (end_ feature)) - scaleApply scale (toFloat (start feature)) in
      if featureWidth <? 1 then []
      else if str_eqb (type_ feature) (lit "gene") then
        GenePath feature x featureWidth
        :: (fix each (cs : list FeatureNode) : list Primitive :=
              match cs with
              | [] => []
              | child :: rest => renderFeature width scale child ++ each rest
              end) below
      else if str_eqb (type_ feature) (lit "mRNA") then renderMRNA width scale node
      else if str_eqb (type_ feature) (lit "exon") then [ExonRect feature x (maxFloat 1 featureWidth)]
      else if str_eqb (type_ feature) (lit "CDS") then [CDSRect feature x (maxFloat 1 featureWidth)]
      else []
  end.

Definition maxFeaturesToRender : nat := 5000.

(** The state of one call of [updateFeatures]: the track groups
    appended so far, each a list of primitives, and [renderedCount]. *)
Record Redraw : Type := {
  trackGroups : list (list Primitive);
  renderedCount : nat
}.

(** [feature.end < viewStart - viewportPadding ||
     feature.start > viewEnd + viewportPadding] *)
Definition culled (width : float) (scale : Scale) (feature : FeatureNode) : bool :=
  let viewStart := scaleInvert scale 0 in
  let viewEnd := scaleInvert scale width in
  let viewportPadding := (viewEnd - viewStart) * 0.1 in
  (endOf feature <? viewStart - viewportPadding)
  || (viewEnd + viewportPadding <? startOf feature).

(** The body of [track.forEach], on the group of the track and the
    count. *)
Definition drawFeature (width : float) (scale : Scale)
    (st : list Primitive * nat) (feature : FeatureNode) : list Primitive * nat :=
  if (maxFeaturesToRender <=? st.2)%nat then st
  else if culled width scale feature then st
  else (st.1 ++ renderFeature width scale feature, S st.2).

(** The body of [tracks.forEach]. *)
Definition drawTrack (width : float) (scale : Scale)
    (st : Redraw) (track : list FeatureNode) : Redraw :=
  if (maxFeaturesToRender <=? renderedCount st)%nat then st
  else
    let '(group, count) := foldl (drawFeature width scale) ([], renderedCount st) track in
    {| trackGroups := trackGroups st ++ [group]; renderedCount := count |}.

(** [updateFeatures(scale)]: the groups of the previous redraw are
    removed first, so a redraw starts from nothing. *)
Definition updateFeatures (width : float) (tracks : list (list FeatureNode))
    (scale : Scale) : Redraw :=
  foldl (drawTrack width scale) {| trackGroups := []; renderedCount := 0 |} tracks.

(** ** The zoom handler

    The handler runs on the event loop of the browser.  The state holds
    the three variables of the handler, the pending timeouts and the
    queued animation-frame callbacks of the browser, and what has been
    drawn.  [T] is the type of [event.transform]; the scale a callback
    closes over is the rescaled [xScale] of one transform, so the
    transform stands for it. *)
Section Zoom.
Context {T : Type}.

Definition throttleInterval : float := 60.

(** A timeout set by the handler: its id, the time from which it may
    run, and the transform its callback closes over. *)
Record Timeout : Type := {
  timeoutId : nat;
  due : float;
  captured : T
}.

(** The two callbacks handed to [requestAnimationFrame]: the one of the
    timeout also writes [lastUpdateTime]. *)
Inductive FrameCallback : Type :=
| Update (transform : T)
| UpdateAndStamp (transform : T).

Record ZoomState : Type := {
  zoomTimeout : option nat;
  lastTransform : option T;
  lastUpdateTime : float;
  axis : option T;
  timeouts : list Timeout;
  nextTimeoutId : nat;
  frameCallbacks : list FrameCallback;
  redraws : list T
}.

Definition initialZoom : ZoomState :=
  {| zoomTimeout := None;
     lastTransform := None;
     lastUpdateTime := 0;
     axis := None;
     timeouts := [];
     nextTimeoutId := 1;
     frameCallbacks := [];
     redraws := [] |}.

(** [clearTimeout(id)]: nothing happens for [undefined] or an id that
    is not pending. *)
Definition clearTimeout (id : option nat) (pending : list Timeout) : list Timeout :=
  match id with
  | Some i => filter (λ t, timeoutId t ≠ i) pending
  | None => pending
  end.

(** The ['zoom'] listener, called at time [now] with [event.transform]. *)
Definition onZoom (now : float) (transform : T) (st : ZoomState) : ZoomState :=
  if now - lastUpdateTime st <? throttleInterval then
    {| zoomTimeout := Some (nextTimeoutId st);
       lastTransform := Some transform;
       lastUpdateTime := lastUpdateTime st;
       axis := Some transform;
       timeouts := clearTimeout (zoomTimeout st) (timeouts st)
                   ++ [{| timeoutId := nextTimeoutId st;
                          due := now + throttleInterval;
                          captured := transform |}];
       nextTimeoutId := S (nextTimeoutId st);
       frameCallbacks := frameCallbacks st;
       redraws := redraws st |}
  else
    {| zoomTimeout := zoomTimeout st;
       lastTransform := Some transform;
       lastUpdateTime := now;
       axis := Some transform;
       timeouts := timeouts st;
       nextTimeoutId := nextTimeoutId st;
       frameCallbacks := frameCallbacks st ++ [Update transform];
       redraws := redraws st |}.

(** What the event loop does next. *)
Inductive Event : Type :=
| Zoom (now : float) (transform : T)
| TimeoutFires (now : float) (id : nat)
| AnimationFrame (now : float).

(** One callback of an animation frame; [now] is what
    [performance.now()] returns in it. *)
Definition runFrameCallback (now : float) (st : ZoomState) (callback : FrameCallback)
  : ZoomState :=
  match callback with
  | Update transform =>
      {| zoomTimeout := zoomTimeout st;
         lastTransform := lastTransform st;
         lastUpdateTime := lastUpdateTime st;
         axis := axis st;
         timeouts := timeouts st;
         nextTimeoutId := nextTimeoutId st;
         frameCallbacks := frameCallbacks st;
         redraws := redraws st ++ [transform] |}
  | UpdateAndStamp transform =>
      {| zoomTimeout := zoomTimeout st;
         lastTransform := lastTransform st;
         lastUpdateTime := now;
         axis := axis st;
         timeouts := timeouts st;
         nextTimeoutId := nextTimeoutId st;
         frameCallbacks := frameCallbacks st;
         redraws := redraws st ++ [transform] |}
  end.

(** One turn of the event loop; [None] when the browser cannot take
    that turn (the timeout is not pending or not yet due, or no frame
    callback is queued).  An animation frame runs every callback that
    was queued before it, in the order of their requests, and no other
    turn comes between them; the time the last of them writes to
    [lastUpdateTime] is the one that stays, and [now] stands for it. *)
Definition step (st : ZoomState) (e : Event) : option ZoomState :=
  match e with
  | Zoom now transform => Some (onZoom now transform st)
  | TimeoutFires now id =>
      match filter (λ t, timeoutId t = id) (timeouts st) with
      | t :: _ =>
          if due t <=? now then
            Some {| zoomTimeout := zoomTimeout st;
                    lastTransform := lastTransform st;
                    lastUpdateTime := lastUpdateTime st;
                    axis := axis st;
                    timeouts := filter (λ t', timeoutId t' ≠ id) (timeouts st);
                    nextTimeoutId := nextTimeoutId st;
                    frameCallbacks := frameCallbacks st ++ [UpdateAndStamp (captured t)];
                    redraws := redraws st |}
          else None
      | [] => None
      end
  | AnimationFrame now =>
      match frameCallbacks st with
      | [] => None
      | callback :: rest =>
          Some (foldl (runFrameCallback now)
                  {| zoomTimeout := zoomTimeout st;
                     lastTransform := lastTransform st;
                     lastUpdateTime := lastUpdateTime st;
                     axis := axis st;
                     timeouts := timeouts st;
                     nextTimeoutId := nextTimeoutId st;
                     frameCallbacks := [];
                     redraws := redraws st |}
                  (callback :: rest))
      end
  end.

(** A run of the event loop from a state. *)
Fixpoint run (st : ZoomState) (events : list Event) : option ZoomState :=
  match events with
  | [] => Some st
  | e :: rest => step st e ≫= λ st', run st' rest
  end.

End Zoom.

Arguments Timeout T : clear implicits.
Arguments FrameCallback T : clear implicits.
Arguments ZoomState T : clear implicits.
Arguments Event T : clear implicits.

End GenomeBrowser.

(* ===================================================================== *)
(** * Inputs for the examples                                             *)
(* ===================================================================== *)

Module Samples.
Import JS Gff3Parser GenomeBrowser.

(** The pieces joined by a separator, as [Array.prototype.join] does. *)
Fixpoint joinWith (sep : N) (pieces : list jsstring) : jsstring :=
  match pieces with
  | [] => []
  | [p] => p
  | p :: rest => p ++ sep :: joinWith sep rest
  end.

(** A record line from its columns, and a file from its lines. *)
Definition tsv (columns : list string) : jsstring := joinWith TAB (lit <$> columns).
Definition fileOf (lines : list jsstring) : jsstring := joinWith LF lines.

Definition geneLine : jsstring :=
  tsv ["chr1"; "RefSeq"; "gene"; "1000"; "9000"; "."; "+"; "."; "ID=gene001;Name=BRCA1"]%string.

Definition mRNALine : jsstring :=
  tsv ["chr1"; "RefSeq"; "mRNA"; "1000"; "9000"; "."; "+"; "."; "ID=mRNA001;Parent=gene001"]%string.

(** A line whose attribute value holds the escape %ZZ, and the same
    line without the percent sign. *)
Definition badEscapeLine : jsstring :=
  tsv ["chr1"; "RefSeq"; "exon"; "1000"; "1500"; "."; "+"; "."; "Name=%ZZ"]%string.

Definition plainNameLine : jsstring :=
  tsv ["chr1"; "RefSeq"; "exon"; "1000"; "1500"; "."; "+"; "."; "Name=ZZ"]%string.

(** A line with an attribute segment that has no '='. *)
Definition flagLine : jsstring :=
  tsv ["chr1"; "RefSeq"; "exon"; "1000"; "1500"; "."; "+"; "."; "ID=exon001;flag"]%string.

(** A line whose start has a fraction and whose end has letters after
    its digits. *)
Definition fractionLine : jsstring :=
  tsv ["chr1"; "RefSeq"; "gene"; "3.7"; "12abc"; "."; "+"; "."; "ID=gene001"]%string.

(** The first eight columns of a record, and a line of eight columns. *)
Definition eightColumns : jsstring :=
  tsv ["chr1"; "RefSeq"; "gene"; "1000"; "9000"; "."; "+"; "."]%string.

(** A feature whose parent is nowhere in the file. *)
Definition orphanLine : jsstring :=
  tsv ["chr1"; "RefSeq"; "mRNA"; "1000"; "9000"; "."; "+"; "."; "ID=mRNA002;Parent=missingID"]%string.

(** A feature that names itself as its parent, and two features that
    name each other. *)
Definition selfParentLine : jsstring :=
  tsv ["chr1"; "RefSeq"; "gene"; "1000"; "9000"; "."; "+"; "."; "ID=a;Parent=a"]%string.
Definition cycleLineA : jsstring :=
  tsv ["chr1"; "RefSeq"; "gene"; "1000"; "9000"; "."; "+"; "."; "ID=a;Parent=b"]%string.
Definition cycleLineB : jsstring :=
  tsv ["chr1"; "RefSeq"; "gene"; "1000"; "9000"; "."; "+"; "."; "ID=b;Parent=a"]%string.

(** Ten lines, the third of which fails: exactly one line in ten. *)
Definition oneInTen : jsstring :=
  fileOf ([geneLine; mRNALine; badEscapeLine] ++ replicate 7 mRNALine).

(** Nineteen lines, two of which fail: more than one line in ten. *)
Definition twoInNineteen : jsstring :=
  fileOf ([geneLine; eightColumns; badEscapeLine] ++ replicate 16 mRNALine).

(** A feature object of a given type and span. *)
Definition sampleFeature (type : string) (startPos endPos : Z) (line : nat) : Feature :=
  {| seqid := lit "chr1"; source := lit "RefSeq"; type_ := lit type;
     start := Fin startPos; end_ := Fin endPos;
     score := None; strand := lit "+"; phase := None;
     attributes := ∅; lineNumber := line |}.

(** A gene from 1 to 1000 with one exon from 1 to 100 as its child. *)
Definition smallExon : FeatureNode := Node (sampleFeature "exon" 1 100 2) [].
Definition geneWithExon : FeatureNode := Node (sampleFeature "gene" 1 1000 1) [smallExon].

(** The same gene with five thousand such exons. *)
Definition geneWithManyExons : FeatureNode :=
  Node (sampleFeature "gene" 1 1000 1) (replicate 5000 smallExon).

(** The window from 500 to 600 on a drawing area 100 wide; its padding
    is 10. *)
Definition windowWidth : float := 100.
Definition windowScale : Scale := scaleLinear 500 600 0 100.

(** Three genes: the second lies apart from the first, the third
    overlaps both. *)
Definition geneA : FeatureNode := Node (sampleFeature "gene" 1 1000 1) [].
Definition geneB : FeatureNode := Node (sampleFeature "gene" 2000 3000 2) [].
Definition geneC : FeatureNode := Node (sampleFeature "gene" 500 2500 3) [].

(** A gene with its transcript and two exons. *)
Definition brca1File : jsstring :=
  fileOf [
    tsv ["chr1"; "RefSeq"; "gene"; "1000"; "9000"; "."; "+"; "."; "ID=gene001;Name=BRCA1"];
    tsv ["chr1"; "RefSeq"; "mRNA"; "1000"; "9000"; "."; "+"; "."; "ID=mRNA001;Parent=gene001"];
    tsv ["chr1"; "RefSeq"; "exon"; "1000"; "1500"; "."; "+"; "."; "ID=exon001;Parent=mRNA001"];
    tsv ["chr1"; "RefSeq"; "exon"; "3000"; "3500"; "."; "+"; "."; "ID=exon002;Parent=mRNA001"]
  ]%string.

(** The kind of a primitive and the line of the feature it is drawn
    for (0 for an intron line, which has none). *)
Definition primitiveKind (p : Primitive) : string * nat :=
  match p with
  | GenePath feature _ _ => ("arrow", lineNumber feature)
  | IntronLine _ _ => ("line", 0%nat)
  | ExonRect feature _ _ => ("exon block", lineNumber feature)
  | CDSRect feature _ _ => ("CDS block", lineNumber feature)
  end%string.

(** Three transforms, numbered 1 to 3, on a page loaded a second ago:
    the first is drawn at once, the next two arrive 20 and 40 after it. *)
Definition burst : list (Event nat) :=
  [Zoom 1000 1%nat; AnimationFrame 1016; Zoom 1020 2%nat; Zoom 1040 3%nat]%float.

End Samples.

(* ===================================================================== *)
(** * Notions the statements use                                          *)
(* ===================================================================== *)

Module Notions.
Import JS Gff3Parser GenomeBrowser.

(** The lines with their numbers, counted from [i + 1], and what
    [parseGFF3Line] does with each. *)
Fixpoint outcomes (lines : list jsstring) (i : nat)
  : list (nat * jsstring * completion (option Feature) LineError) :=
  match lines with
  | [] => []
  | line :: rest => ((i + 1)%nat, line, parseGFF3Line line (i + 1)%nat) :: outcomes rest (S i)
  end.

Definition featureOf (o : nat * jsstring * completion (option Feature) LineError)
  : option Feature :=
  match o.2 with
  | Return (Some feature) => Some feature
  | _ => None
  end.

Definition errorOf (o : nat * jsstring * completion (option Feature) LineError)
  : option ErrorEntry :=
  match o.2 with
  | Throw error =>
      Some {| errLineNumber := o.1.1; errMessage := error; errLine := substring 0 100 o.1.2 |}
  | Return _ => None
  end.

(** The features of the lines that yield one, in file order. *)
Definition parsedFeatures (lines : list jsstring) : list Feature :=
  omap featureOf (outcomes lines 0).

(** The failed lines: those on which [parseGFF3Line] throws, in file
    order, each with its number, its error and its first 100 code
    units. *)
Definition failedLines (lines : list jsstring) : list ErrorEntry :=
  omap errorOf (outcomes lines 0).

(** The warning [buildHierarchy] writes for a feature whose [Parent]
    is not in the index. *)
Definition warningOf (byId : gmap jsstring nat) (feature : Feature) : option Warning :=
  parentId ← attr "Parent" feature;
  match byId !! parentId with
  | Some _ => None
  | None => Some {| warnLine := lineNumber feature;
                    warnParent := parentId;
                    warnFeature := attr "ID" feature |}
  end.

(** Whether the exact test and the binary64 test agree for every file
    of at most [upTo] lines and every number of failed lines in it. *)
Definition testsAgree (upTo : nat) : bool :=
  forallb (λ nLines,
    forallb (λ nErrors,
      Bool.eqb (tooManyErrors nErrors nLines) (tooManyErrors64 nErrors nLines))
      (seq 0 (S nLines)))
    (seq 0 (S upTo)).

(** How often a position occurs in a list of positions. *)
Definition occurrences (i : nat) (l : list nat) : nat :=
  length (filter (λ j, j = i) l).

(** The places a feature can be in after the second loop: the roots,
    then the children arrays one after the other. *)
Definition placed (st : LinkState) : list nat :=
  rootFeatures st ++ concat (childLists (links st)).

(** Two features of a lane lie apart: one ends strictly before the
    other begins. *)
Definition apart (a b : FeatureNode) : Prop :=
  num_lt (end_ (nodeFeature a)) (start (nodeFeature b)) = true
  ∨ num_lt (end_ (nodeFeature b)) (start (nodeFeature a)) = true.

(** The features at two different positions of a lane lie apart. *)
Definition nonOverlapping (lane : list FeatureNode) : Prop :=
  ∀ i j a b, i ≠ j → lane !! i = Some a → lane !! j = Some b → apart a b.

(** The [parent] fields agree with the places: a root has no parent,
    and a feature in a children array has the owner of that array as
    its parent. *)
Definition linked (st : LinkState) : Prop :=
  (∀ j, j ∈ rootFeatures st → parents (links st) !! j = Some None)
  ∧ (∀ p cs j, childLists (links st) !! p = Some cs → j ∈ cs →
       parents (links st) !! j = Some (Some p)).

(** The features from position [i] on are not visited yet: they are in
    no place and have no parent. *)
Definition untouchedFrom (i : nat) (st : LinkState) : Prop :=
  ∀ j, (i ≤ j)%nat →
    (j ∉ placed st)
    ∧ ((j < length (parents (links st)))%nat → parents (links st) !! j = Some None).

(** The handler's account of the pending timeouts: none is pending, or
    one is and [zoomTimeout] holds its id. *)
Definition onePending {T : Type} (st : ZoomState T) : Prop :=
  timeouts st = []
  ∨ ∃ t, timeouts st = [t] ∧ zoomTimeout st = Some (timeoutId t).

End Notions.

(* ===================================================================== *)
(** * src/utils/gff3Parser.js: the two helper exports                     *)
(* ===================================================================== *)

Module Gff3Helpers.
Import JS Gff3Parser GenomeBrowser.

(** [getDescendants(feature)] on the feature objects of a parse
    result: [traverse] pushes each child and then walks below it.
    [depth] bounds the nesting of the calls of [traverse]; [None] stands
    for a walk that needs more. *)
Fixpoint traverse (childLists : list (list nat)) (depth : nat) (node : nat)
  : option (list nat) :=
  match depth with
  | O => None
  | S depth' =>
      below ← childLists !! node;
      (λ found, concat found)
        <$> mapM (λ child, (child ::.) <$> traverse childLists depth' child) below
  end.

(** The same function on a feature with its finite tree of children. *)
Fixpoint getDescendants (feature : FeatureNode) : list FeatureNode :=
  match feature with
  | Node _ below =>
      (fix each (cs : list FeatureNode) : list FeatureNode :=
         match cs with
         | [] => []
         | child :: rest => child :: getDescendants child ++ each rest
         end) below
  end.

(** The second argument of [filterByType]: one type or an array. *)
Inductive TypesArgument : Type :=
| OneType (type : jsstring)
| TypeArray (types : list jsstring).

(** [Array.isArray(types) ? types : [types]] *)
Definition typeList (types : TypesArgument) : list jsstring :=
  match types with
  | OneType type => [type]
  | TypeArray types => types
  end.

(** [features.filter(f => typeSet.has(f.type))] *)
Definition filterByType (features : list Feature) (types : TypesArgument) : list Feature :=
  filter (λ f, type_ f ∈ typeList types) features.

End Gff3Helpers.

(* ===================================================================== *)
(** * src/components/GenomeBrowser.jsx: the tooltip                       *)
(* ===================================================================== *)

Module TooltipState.
Import JS Gff3Parser GenomeBrowser.
Local Open Scope float_scope.














End TooltipState.

(* ===================================================================== *)
(** * App.jsx: loading a file                                             *)
(* ===================================================================== *)

Module AppShell.
Import JS Gff3Parser.

(** What the [catch] of [handleFileLoad] can receive: an error of
    [parseGFF3], or its own 'No features found' error. *)
Inductive LoadError : Type :=
| ParseFailed (e : FileError)
| NoFeaturesFound.

Record AppState : Type := {
  genomicData : option ParseResult;
  fileName : jsstring;
  loading : bool;
  error : option LoadError
}.

Definition initialApp : AppState :=
  {| genomicData := None; fileName := []; loading := false; error := None |}.

(** [handleFileLoad(content, name)], once its deferred callback has
    run. *)
Definition handleFileLoad (content name : jsstring) (st : AppState) : AppState :=
  match parseGFF3 content with
  | Return parsedData =>
      if (totalFeatures (stats parsedData) =? 0)%nat
      then {| genomicData := genomicData st; fileName := name;
              loading := false; error := Some NoFeaturesFound |}
      else {| genomicData := Some parsedData; fileName := name;
              loading := false; error := None |}
  | Throw e =>
      {| genomicData := genomicData st; fileName := name;
         loading := false; error := Some (ParseFailed e) |}
  end.

(** The browser is rendered under [genomicData && !error]. *)
Definition browserData (st : AppState) : option ParseResult :=
  match error st with
  | None => genomicData st
  | Some _ => None
  end.

End AppShell.

(* ===================================================================== *)
(** * More notions                                                        *)
(* ===================================================================== *)

Module MoreNotions.
Import JS Gff3Parser GenomeBrowser TooltipState.

(** The feature reached from [node] by following [parent] [k] times. *)
Fixpoint ancestor (parents : list (option nat)) (k : nat) (node : nat) : option nat :=
  match k with
  | O => Some node
  | S k' =>
      match parents !! node with
      | Some (Some p) => ancestor parents k' p
      | _ => None
      end
  end.

(** The feature a primitive is drawn for; an intron line has none. *)
Definition drawnFor (p : Primitive) : option Feature :=
  match p with
  | GenePath feature _ _ | ExonRect feature _ _ | CDSRect feature _ _ => Some feature
  | IntronLine _ _ => None
  end.

(** The transforms of the zoom events of a run, in order. *)
Definition arrived {T : Type} (events : list (Event T)) : list T :=
  omap (λ e, match e with Zoom _ transform => Some transform | _ => None end) events.

(** The transforms held by queued frame callbacks. *)
Definition queued {T : Type} (callbacks : list (FrameCallback T)) : list T :=
  (λ c, match c with Update transform | UpdateAndStamp transform => transform end)
    <$> callbacks.

(** A key and a value that the attribute column holds unchanged: no
    white space at either end, no ';', no '=' in the key, no '%' in the
    value; the key is not "__proto__". *)
Definition plainKey (key : jsstring) : Prop :=
  trim key = key ∧ (SEMICOLON ∉ key) ∧ (EQUALS ∉ key) ∧ key ≠ lit "__proto__".

Definition plainValue (value : jsstring) : Prop :=
  trim value = value ∧ (SEMICOLON ∉ value) ∧ (PERCENT ∉ value).

(** The attribute column written from a list of keys and values. *)
Definition writePair (kv : jsstring * jsstring) : jsstring := kv.1 ++ EQUALS :: kv.2.

End MoreNotions.

(* ===================================================================== *)
(** * Notions for the hierarchy                                           *)
(* ===================================================================== *)

Module HierarchyNotions.
Import JS Gff3Parser GenomeBrowser.

(** The position the [Parent] attribute of a feature resolves to in
    the index, if it has one and the index knows it. *)
Definition parentOf (byId : gmap jsstring nat) (feature : Feature) : option nat :=
  parentId ← attr "Parent" feature; byId !! parentId.

(** The positions, counted from [i], of the features that pass a test,
    in the order of the array. *)
Fixpoint positionsWhere (test : Feature → bool) (features : list Feature) (i : nat)
  : list nat :=
  match features with
  | [] => []
  | feature :: rest =>
      if test feature then i :: positionsWhere test rest (S i)
      else positionsWhere test rest (S i)
  end.

End HierarchyNotions.

(* ===================================================================== *)
(** * Notions for what the roots reach                                    *)
(* ===================================================================== *)

Module ReachNotions.
Import JS Gff3Parser GenomeBrowser Gff3Helpers MoreNotions.

(** The traversal from [rootFeatures]: every root, followed by what
    [getDescendants] lists below it, one root after the other. *)
Definition walkFromRoots (childLists : list (list nat)) (depth : nat) (roots : list nat)
  : option (list nat) :=
  (λ found, concat found)
    <$> mapM (λ root, (root ::.) <$> traverse childLists depth root) roots.

(** The chain of parents of a feature ends at a root. *)
Definition belowRoot (parents : list (option nat)) (roots : list nat) (i : nat) : Prop :=
  ∃ d root, ancestor parents d i = Some root ∧ root ∈ roots.

(** The chain of parents of a feature runs into a cycle: it comes to a
    feature that is its own ancestor. *)
Definition towardsCycle (parents : list (option nat)) (i : nat) : Prop :=
  ∃ d c k, ancestor parents d i = Some c ∧ ancestor parents (S k) c = Some c.

End ReachNotions.

(* ===================================================================== *)
(** * Notions for the pointer and the zoom events                         *)
(* ===================================================================== *)

Module PointerNotions.
Import JS Gff3Parser GenomeBrowser TooltipState.




End PointerNotions.

Module ZoomNotions.
Import JS Gff3Parser GenomeBrowser MoreNotions.

(** The transforms the handler still has to do with: those drawn,
    those of the queued frame callbacks, and those of the pending
    timeouts. *)
Definition held {T : Type} (st : ZoomState T) : list T :=
  redraws st ++ queued (frameCallbacks st) ++ (captured <$> timeouts st).

End ZoomNotions.

(* ===================================================================== *)
(** * Line endings                                                        *)
(* ===================================================================== *)

Module LineEndings.
Import JS Gff3Parser.

(** A file from its lines, with a carriage return and a line feed
    between two lines. *)
Fixpoint crlfFileOf (lines : list jsstring) : jsstring :=
  match lines with
  | [] => []
  | [line] => line
  | line :: rest => line ++ CR :: LF :: crlfFileOf rest
  end.

End LineEndings.

(* ===================================================================== *)
(** * Decimal digits                                                      *)
(* ===================================================================== *)

Module Decimal.
Import JS.

(** The integer a run of decimal digits stands for. *)
Definition decimal (digits : jsstring) : Z :=
  foldl (λ acc c, 10 * acc + Z.of_N (c - 48))%Z 0%Z digits.

(** Whether a string goes on with a decimal digit. *)
Definition digitNext (s : jsstring) : bool :=
  match s with
  | c :: _ => isDigit c
  | [] => false
  end.

End Decimal.

(* ===================================================================== *)
(** * More inputs for the examples                                        *)
(* ===================================================================== *)

Module MoreSamples.
Import JS Gff3Parser GenomeBrowser Samples.

(** A file of a directive, a blank line and a comment. *)
Definition commentsOnly : jsstring :=
  fileOf [lit "##gff-version 3"; []; lit "# nothing but comments"].

End MoreSamples.

(* ===================================================================== *)
(** * Strings                                                             *)
(* ===================================================================== *)

Section Strings.
Import JS.

Lemma trimStart_all_white (s : jsstring) :
  forallb isWhiteSpace s = true → trimStart s = [].
Proof.
  induction s as [|c s IH]; simpl; [done|].
  destruct (isWhiteSpace c); simpl; [exact IH | discriminate].
Qed.

Lemma trimStart_snoc (s : jsstring) (c : N) :
  trimStart (s ++ [c]) =
  if forallb isWhiteSpace s then trimStart [c] else trimStart s ++ [c].
Proof.
  induction s as [|d s IH]; simpl; [done|].
  destruct (isWhiteSpace d); simpl; [exact IH | done].
Qed.

Lemma trimEnd_snoc_white (s : jsstring) (c : N) :
  isWhiteSpace c = true → trimEnd (s ++ [c]) = trimEnd s.
Proof.
  intros Hc. unfold trimEnd. rewrite rev_unit. simpl. by rewrite Hc.
Qed.

(** White space at the end of a line does not survive [trim]. *)
Lemma trim_snoc_white (s : jsstring) (c : N) :
  isWhiteSpace c = true → trim (s ++ [c]) = trim s.
Proof.
  intros Hc. unfold trim. rewrite trimStart_snoc.
  destruct (forallb isWhiteSpace s) eqn:Hs.
  - rewrite (trimStart_all_white s Hs). simpl. by rewrite Hc.
  - by apply trimEnd_snoc_white.
Qed.

Lemma split_nonempty (sep : N) (s : jsstring) : split sep s ≠ [].
Proof.
  destruct s as [|c s]; simpl; [done|].
  destruct (c =? sep); [done|]. by destruct (split sep s).
Qed.

Lemma split_snoc_sep (sep : N) (s : jsstring) :
  split sep (s ++ [sep]) = split sep s ++ [[]].
Proof.
  induction s as [|c s IH]; simpl.
  - by rewrite N.eqb_refl.
  - rewrite IH. destruct (c =? sep); [done|].
    pose proof (split_nonempty sep s). by destruct (split sep s).
Qed.

Lemma cons_head_length (c : N) (pieces : list jsstring) :
  pieces ≠ [] → length (cons_head c pieces) = length pieces.
Proof. by destruct pieces. Qed.

(** The pieces of a split are one more than the separators. *)
Lemma split_length_app (sep : N) (a b : jsstring) :
  (length (split sep (a ++ b)) + 1 = length (split sep a) + length (split sep b))%nat.
Proof.
  induction a as [|c a IH]; simpl; [lia|].
  destruct (c =? sep); simpl; [lia|].
  rewrite !cons_head_length by apply split_nonempty. lia.
Qed.

Lemma split_length_pos (sep : N) (s : jsstring) : (1 ≤ length (split sep s))%nat.
Proof. pose proof (split_nonempty sep s). destruct (split sep s); simpl; [done|lia]. Qed.

Lemma split_length_rev (sep : N) (s : jsstring) :
  length (split sep (rev s)) = length (split sep s).
Proof.
  induction s as [|c s IH]; [done|].
  change (c :: s) with ([c] ++ s) at 2. simpl rev.
  pose proof (split_length_app sep (rev s) [c]).
  pose proof (split_length_app sep [c] s). lia.
Qed.

Lemma split_length_trimStart (sep : N) (s : jsstring) :
  (length (split sep (trimStart s)) ≤ length (split sep s))%nat.
Proof.
  induction s as [|c s IH]; [done|]. simpl trimStart.
  destruct (isWhiteSpace c); [|done].
  pose proof (split_length_app sep [c] s).
  pose proof (split_length_pos sep [c]). simpl app in *. lia.
Qed.

(** Trimming never adds a column. *)
Lemma split_length_trim (sep : N) (s : jsstring) :
  (length (split sep (trim s)) ≤ length (split sep s))%nat.
Proof.
  unfold trim, trimEnd. rewrite split_length_rev.
  pose proof (split_length_trimStart sep (rev (trimStart s))).
  pose proof (split_length_trimStart sep s).
  rewrite split_length_rev in *. lia.
Qed.

End Strings.

(* ===================================================================== *)
(** * Lines                                                               *)
(* ===================================================================== *)

Section Lines.
Import JS Gff3Parser Samples.

(** A line that does not split into nine columns fails on its column
    count, whatever the columns hold. *)
Lemma parseGFF3Line_column_count (line : jsstring) (lineNumber : nat) :
  trim line ≠ [] → startsWith HASH (trim line) = false →
  length (split TAB (trim line)) ≠ 9%nat →
  parseGFF3Line line lineNumber
  = Throw (ColumnCountError lineNumber (length (split TAB (trim line)))).
Proof.
  intros Hne Hhash Hlen. unfold parseGFF3Line.
  destruct (trim line) as [|c t] eqn:Ht; [done|].
  rewrite Hhash.
  destruct (split TAB (c :: t)) as [|c1 [|c2 [|c3 [|c4 [|c5 [|c6 [|c7 [|c8 [|c9 [|c10 cs]]]]]]]]]];
    try reflexivity.
  by destruct Hlen.
Qed.

(** Whatever the first eight columns hold, a line that ends with the
    tab of an empty ninth column never yields a feature: it is skipped
    as blank or as a comment, or fails on a count of at most eight
    columns. *)
Lemma trailing_tab_never_yields_a_feature (record : jsstring) (lineNumber : nat) :
  length (split TAB record) = 8%nat →
  parseGFF3Line (record ++ [TAB]) lineNumber = Return None
  ∨ ∃ got, (got ≤ 8)%nat
           ∧ parseGFF3Line (record ++ [TAB]) lineNumber
             = Throw (ColumnCountError lineNumber got).
Proof.
  intros Hlen. pose proof (split_length_trim TAB record) as Hle.
  assert (Ht : trim (record ++ [TAB]) = trim record) by (by apply trim_snoc_white).
  destruct (trim record) as [|c t] eqn:Htrim.
  { left. unfold parseGFF3Line. by rewrite Ht. }
  destruct (startsWith HASH (c :: t)) eqn:Hhash.
  { left. unfold parseGFF3Line. by rewrite Ht, Hhash. }
  right. exists (length (split TAB (c :: t))). split; [lia|].
  rewrite parseGFF3Line_column_count; rewrite Ht; try done. lia.
Qed.


End Lines.

(* ===================================================================== *)
(** * Coordinates and attributes of a line                                *)
(* ===================================================================== *)

Section Columns.
Import JS Gff3Parser Samples.

Lemma num_not_gt_le (x y : number) :
  isNaN x || isNaN y = false → num_gt x y = false → num_le x y = true.
Proof.
  unfold num_gt. destruct x, y; simpl; try done; lia.
Qed.

(** [parseInt] reads the digits in front and ignores what follows. *)
Lemma parseInt10_prefix :
  parseInt10 (lit "3.7") = Fin 3 ∧ parseInt10 (lit "12abc") = Fin 12
  ∧ parseInt10 (lit "abc") = NaN ∧ parseInt10 (lit ".5") = NaN.
Proof. repeat split; reflexivity. Qed.

(** What [parseGFF3Line] does with a line of nine columns: the checks,
    in the order of the source. *)
Lemma parseGFF3Line_nine_columns (line : jsstring) (lineNumber : nat)
    (c1 c2 c3 c4 c5 c6 c7 c8 c9 : jsstring) :
  startsWith HASH (trim line) = false →
  split TAB (trim line) = [c1; c2; c3; c4; c5; c6; c7; c8; c9] →
  parseGFF3Line line lineNumber =
    if isNaN (parseInt10 c4) || isNaN (parseInt10 c5)
    then Throw (CoordinateTypeError lineNumber)
    else if num_gt (parseInt10 c4) (parseInt10 c5)
    then Throw (CoordinateOrderError lineNumber (parseInt10 c4) (parseInt10 c5))
    else if negb (validStrand c7) then Throw (StrandError lineNumber c7)
    else match parseAttributes c9 with
         | None => Throw URIError
         | Some attributes =>
             Return (Some {|
               seqid := c1; source := c2; type_ := c3;
               start := parseInt10 c4; end_ := parseInt10 c5;
               score := if str_eqb c6 (lit ".") then None else Some c6;
               strand := c7;
               phase := if str_eqb c8 (lit ".") then None else Some (parseInt10 c8);
               attributes := attributes;
               lineNumber := lineNumber |})
         end.
Proof.
  intros Hhash Hcols. unfold parseGFF3Line.
  destruct (trim line) as [|c t] eqn:Ht; [discriminate Hcols|].
  by rewrite Hhash, Hcols.
Qed.

(** A line of nine columns fails on the type of its coordinates exactly
    when [parseInt] finds no integer in front of the start or of the
    end token. *)
Lemma coordinate_type_error_iff (line : jsstring) (lineNumber : nat)
    (c1 c2 c3 c4 c5 c6 c7 c8 c9 : jsstring) :
  startsWith HASH (trim line) = false →
  split TAB (trim line) = [c1; c2; c3; c4; c5; c6; c7; c8; c9] →
  parseGFF3Line line lineNumber = Throw (CoordinateTypeError lineNumber)
  ↔ isNaN (parseInt10 c4) || isNaN (parseInt10 c5) = true.
Proof.
  intros Hhash Hcols. rewrite (parseGFF3Line_nine_columns _ _ _ _ _ _ _ _ _ _ _ Hhash Hcols).
  destruct (isNaN (parseInt10 c4) || isNaN (parseInt10 c5)); [done|].
  split; [|done].
  destruct (num_gt _ _); [done|]. destruct (negb _); [done|].
  by destruct (parseAttributes c9).
Qed.

(** A line of nine columns whose start and end parse, with the start
    above the end, fails on the order of its coordinates. *)
Lemma coordinate_order_error (line : jsstring) (lineNumber : nat)
    (c1 c2 c3 c4 c5 c6 c7 c8 c9 : jsstring) :
  startsWith HASH (trim line) = false →
  split TAB (trim line) = [c1; c2; c3; c4; c5; c6; c7; c8; c9] →
  isNaN (parseInt10 c4) || isNaN (parseInt10 c5) = false →
  num_gt (parseInt10 c4) (parseInt10 c5) = true →
  parseGFF3Line line lineNumber
  = Throw (CoordinateOrderError lineNumber (parseInt10 c4) (parseInt10 c5)).
Proof.
  intros Hhash Hcols Hnan Hgt.
  by rewrite (parseGFF3Line_nine_columns _ _ _ _ _ _ _ _ _ _ _ Hhash Hcols), Hnan, Hgt.
Qed.

(** The feature of a line carries the number of the line, and its
    start is not above its end. *)
Lemma parseGFF3Line_feature (line : jsstring) (n : nat) (f : Feature) :
  parseGFF3Line line n = Return (Some f) →
  lineNumber f = n ∧ num_le (start f) (end_ f) = true
  ∧ isNaN (start f) = false ∧ isNaN (end_ f) = false.
Proof.
  unfold parseGFF3Line.
  destruct (trim line) as [|c t]; [done|].
  destruct (startsWith HASH (c :: t)); [done|].
  destruct (split TAB (c :: t)) as [|c1 [|c2 [|c3 [|c4 [|c5 [|c6 [|c7 [|c8 [|c9 [|c10 cs]]]]]]]]]];
    try done.
  destruct (isNaN (parseInt10 c4) || isNaN (parseInt10 c5)) eqn:Hnan; [done|].
  destruct (num_gt _ _) eqn:Hgt; [done|].
  destruct (negb _); [done|].
  destruct (parseAttributes c9); [|done].
  intros [= <-]. simpl. apply orb_false_elim in Hnan as Hn. destruct Hn.
  auto using num_not_gt_le.
Qed.

(** C5, on the input where the code leaves the claim: the start token
    "3.7" and the end token "12abc" are not integers, and the line
    yields a feature from 3 to 12 and no error. *)
Theorem fraction_and_garbage_yield_a_feature :
  split TAB fractionLine
  = lit <$> ["chr1"; "RefSeq"; "gene"; "3.7"; "12abc"; "."; "+"; "."; "ID=gene001"]%string
  ∧ ∃ f, parseGFF3Line fractionLine 1 = Return (Some f)
         ∧ start f = Fin 3 ∧ end_ f = Fin 12.
Proof.
  split; [reflexivity|]. eexists. split; [vm_compute; reflexivity|]. by split.
Qed.

(** A segment of the attribute column without '=' is passed over. *)
Lemma parsePairs_no_equals (segment : jsstring) (rest : list jsstring)
    (attributes : gmap jsstring jsstring) :
  indexOf EQUALS (trim segment) = None →
  parsePairs (segment :: rest) attributes = parsePairs rest attributes.
Proof.
  intros Hno. simpl. rewrite Hno. by destruct (trim segment).
Qed.

(** A segment whose value does not decode makes the whole column throw. *)
Lemma parsePairs_bad_escape (segment : jsstring) (rest : list jsstring)
    (attributes : gmap jsstring jsstring) (k : nat) :
  indexOf EQUALS (trim segment) = Some k →
  decodeURIComponent (trim (substringFrom (k + 1) (trim segment))) = None →
  parsePairs (segment :: rest) attributes = None.
Proof.
  intros Heq Hbad. simpl. rewrite Heq, Hbad.
  destruct (trim segment); [discriminate Heq | done].
Qed.

(** C9. The line [badEscapeLine] has nine columns and is valid but for
    the escape %ZZ in its attribute value (with "ZZ" for "%ZZ" it yields
    a feature).  Decoding throws, [parseGFF3Line] lets the URIError
    through, which is none of its own four errors, and [parseGFF3]
    records the line in [errors] and builds no feature for it; a segment
    without '=' in the same column is passed over without an error. *)
Theorem bad_percent_escape_fails_the_line :
  length (split TAB badEscapeLine) = 9%nat
  ∧ (∃ f, parseGFF3Line plainNameLine 3 = Return (Some f)
          ∧ attributes f !! lit "Name" = Some (lit "ZZ"))
  ∧ decodeURIComponent (lit "%ZZ") = None
  ∧ parseGFF3Line badEscapeLine 3 = Throw URIError
  ∧ (∃ r, parseGFF3 oneInTen = Return r
          ∧ errors r = [{| errLineNumber := 3; errMessage := URIError;
                           errLine := badEscapeLine |}]
          ∧ lineNumber <$> features r = [1; 2; 4; 5; 6; 7; 8; 9; 10]%nat)
  ∧ (∃ f, parseGFF3Line flagLine 3 = Return (Some f)
          ∧ attributes f = {[ lit "ID" := lit "exon001" ]}).
Proof.
  split; [reflexivity|].
  split; [eexists; split; [vm_compute; reflexivity | reflexivity]|].
  split; [reflexivity|]. split; [reflexivity|].
  split.
  - eexists. split; [vm_compute; reflexivity|]. split; reflexivity.
  - eexists. split; [vm_compute; reflexivity|]. vm_compute. reflexivity.
Qed.

End Columns.

(* ===================================================================== *)
(** * The file-level threshold                                            *)
(* ===================================================================== *)

Section Threshold.
Import JS Gff3Parser GenomeBrowser Notions Samples.

(** The loop of [parseGFF3] appends, to what it is given, the features
    and the failed lines of the lines it reads. *)
Lemma parseLines_outcomes (lines : list jsstring) (i : nat)
    (fs : list Feature) (es : list ErrorEntry) :
  parseLines lines i fs es
  = (fs ++ omap featureOf (outcomes lines i), es ++ omap errorOf (outcomes lines i)).
Proof.
  revert i fs es. induction lines as [|line rest IH]; intros i fs es; simpl.
  - by rewrite !app_nil_r.
  - unfold featureOf at 1, errorOf at 1. simpl.
    destruct (parseGFF3Line line (i + 1)) as [[f|]|e]; rewrite IH; simpl;
      by rewrite <- ?app_assoc.
Qed.

Lemma parseLines_from_start (lines : list jsstring) :
  parseLines lines 0 [] [] = (parsedFeatures lines, failedLines lines).
Proof. by rewrite parseLines_outcomes. Qed.

Lemma cons_head_nonempty (c : N) (pieces : list jsstring) : cons_head c pieces ≠ [].
Proof. by destruct pieces. Qed.

Lemma splitLines_nonempty (s : jsstring) : splitLines s ≠ [].
Proof.
  destruct s as [|c [|d r]]; [done|..]; unfold splitLines; fold splitLines;
    repeat case_match; try done; apply cons_head_nonempty.
Qed.

(** [parseGFF3] after its guard, in terms of the failed lines. *)
Lemma parseGFF3_nonempty (fileContent : jsstring) :
  fileContent ≠ [] →
  parseGFF3 fileContent =
    let lines := splitLines fileContent in
    if tooManyErrors (length (failedLines lines)) (length lines)
    then Throw (malformedFile (failedLines lines))
    else
      let st := hierarchyState (buildHierarchy (parsedFeatures lines)) in
      Return {|
        features := parsedFeatures lines;
        resultLinks := links st;
        resultRootFeatures := rootFeatures st;
        resultFeatureById := featureById (buildHierarchy (parsedFeatures lines));
        extent := computeExtent (parsedFeatures lines);
        sequences := distinct [] (seqid <$> parsedFeatures lines);
        featureTypes := distinct [] (type_ <$> parsedFeatures lines);
        stats := {| totalFeatures := length (parsedFeatures lines);
                    statRootFeatures := length (rootFeatures st);
                    statErrors := length (failedLines lines) |};
        errors := failedLines lines;
        warnings := console st |}.
Proof.
  intros Hne. unfold parseGFF3. destruct fileContent as [|c s]; [done|].
  by rewrite parseLines_from_start.
Qed.

(** The test of the source is the strict comparison of the share of
    failed lines with one tenth. *)
Lemma tooManyErrors_iff (nErrors nLines : nat) :
  tooManyErrors nErrors nLines = true ↔ (nLines < 10 * nErrors)%nat.
Proof.
  unfold tooManyErrors. rewrite andb_true_iff, !Nat.ltb_lt. lia.
Qed.

(** C1, amended.  For a text buffer that is not empty, [parseGFF3]
    throws the aggregate error when, and only when, the failed lines
    are strictly more than one tenth of all lines.  The error then
    carries the number of failed lines, the first five of them with
    their messages, and the count of the others when there are more
    than five.  Otherwise the parse returns, with exactly the failed
    lines in [errors] and the features of the other lines. *)
Theorem parseGFF3_threshold (fileContent : jsstring) :
  fileContent ≠ [] →
  let lines := splitLines fileContent in
  let failed := failedLines lines in
  ((∃ count listed more, parseGFF3 fileContent = Throw (MalformedFile count listed more))
   ↔ (length lines < 10 * length failed)%nat)
  ∧ ((length lines < 10 * length failed)%nat →
     parseGFF3 fileContent
     = Throw (MalformedFile (length failed)
                ((λ e, (errLineNumber e, errMessage e)) <$> take 5 failed)
                (if (5 <? length failed)%nat then Some (length failed - 5)%nat else None)))
  ∧ ((10 * length failed ≤ length lines)%nat →
     ∃ r, parseGFF3 fileContent = Return r
          ∧ errors r = failed
          ∧ statErrors (stats r) = length failed
          ∧ features r = parsedFeatures lines).
Proof.
  intros Hne lines failed. rewrite (parseGFF3_nonempty _ Hne). cbv zeta.
  fold lines. fold failed.
  destruct (tooManyErrors (length failed) (length lines)) eqn:Htest.
  - apply tooManyErrors_iff in Htest.
    split; [|split].
    + split; [done|]. intros _. by eexists _, _, _.
    + done.
    + lia.
  - assert (Hle : (10 * length failed ≤ length lines)%nat).
    { destruct (decide (length lines < 10 * length failed)%nat) as [Hlt|]; [|lia].
      apply tooManyErrors_iff in Hlt. congruence. }
    split; [|split].
    + split; [by intros (? & ? & ? & ?)|lia].
    + lia.
    + intros _. by eexists.
Qed.

(** One failed line in ten is not above the threshold: the parse
    returns.  Two in nineteen are above it. *)
Lemma parseGFF3_threshold_witness :
  oneInTen ≠ []
  ∧ (length (splitLines oneInTen) = 10 ∧ length (failedLines (splitLines oneInTen)) = 1)%nat
  ∧ ∃ r, parseGFF3 oneInTen = Return r ∧ errors r = failedLines (splitLines oneInTen).
Proof.
  split; [done|]. split; [by vm_compute|].
  destruct (parseGFF3_threshold oneInTen) as (_ & _ & Hok); [done|].
  destruct Hok as (r & Hr & He & _); [vm_compute; lia|].
  by exists r.
Defined.

Lemma two_in_nineteen_is_malformed :
  (length (splitLines twoInNineteen) = 19 ∧ length (failedLines (splitLines twoInNineteen)) = 2)%nat
  ∧ parseGFF3 twoInNineteen
    = Throw (MalformedFile 2 [(2, ColumnCountError 2 8); (3, URIError)]%nat None).
Proof. split; by vm_compute. Qed.

(** C1 as stated fails on the empty buffer: none of its lines fails,
    and the parse does not succeed. *)
Lemma empty_buffer_is_refused :
  failedLines (splitLines []) = []
  ∧ length (splitLines []) = 1%nat
  ∧ parseGFF3 [] = Throw InvalidInput.
Proof. by vm_compute. Qed.

End Threshold.

(* ===================================================================== *)
(** * The hierarchy                                                       *)
(* ===================================================================== *)

Section Hierarchy.
Import JS Gff3Parser GenomeBrowser Notions Samples.

(** ** Roots and children lists *)

Lemma occurrences_app (i : nat) (l1 l2 : list nat) :
  occurrences i (l1 ++ l2) = (occurrences i l1 + occurrences i l2)%nat.
Proof. unfold occurrences. by rewrite filter_app, length_app. Qed.

Lemma occurrences_singleton (i j : nat) :
  occurrences i [j] = if bool_decide (j = i) then 1%nat else 0%nat.
Proof.
  unfold occurrences. rewrite filter_cons, filter_nil.
  by destruct (decide (j = i)) as [->|Hne]; case_bool_decide.
Qed.

Lemma occurrences_pos (i : nat) (l : list nat) :
  (0 < occurrences i l)%nat ↔ i ∈ l.
Proof.
  unfold occurrences. induction l as [|j l IH].
  - rewrite filter_nil. simpl. split; [lia|]. by intros ?%elem_of_nil.
  - rewrite filter_cons, elem_of_cons. destruct (decide (j = i)) as [->|Hne]; simpl.
    + split; [auto|lia].
    + rewrite IH. split; [auto|]. by intros [->|?].
Qed.

(** Pushing onto one children list adds one occurrence, of what is
    pushed. *)
Lemma occurrences_push (i k p : nat) (lists : list (list nat)) :
  (p < length lists)%nat →
  occurrences i (concat (alter (λ cs, cs ++ [k]) p lists))
  = (occurrences i (concat lists) + occurrences i [k])%nat.
Proof.
  revert p. induction lists as [|cs lists IH]; intros p Hp; simpl in *; [lia|].
  destruct p as [|p]; simpl.
  - rewrite !occurrences_app. lia.
  - specialize (IH p). unfold alter in IH. rewrite !occurrences_app, IH by lia. lia.
Qed.

(** The index holds positions of the array it is built from. *)
Lemma indexById_range (features : list Feature) (i : nat) (byId : gmap jsstring nat)
    (id : jsstring) (p : nat) :
  indexById features i byId !! id = Some p →
  byId !! id = Some p ∨ (i ≤ p < i + length features)%nat.
Proof.
  revert i byId. induction features as [|f features IH]; intros i byId; simpl; [auto|].
  intros [Hin|Hrange]%IH; [|right; lia].
  destruct (attr "ID" f) as [fid|]; [|auto].
  destruct (decide (fid = id)) as [->|Hne].
  - rewrite lookup_insert_eq in Hin. injection Hin as <-. right. lia.
  - rewrite lookup_insert_ne in Hin by done. auto.
Qed.

Lemma linkStep_childLists_length (byId : gmap jsstring nat) (i : nat) (f : Feature)
    (st : LinkState) :
  length (childLists (links (linkStep byId i f st))) = length (childLists (links st)).
Proof.
  unfold linkStep. destruct (attr "Parent" f) as [pid|]; [|done].
  destruct (byId !! pid); [|done]. simpl. apply length_alter.
Qed.

(** One turn of the second loop puts the feature it visits in one
    place, once. *)
Lemma linkStep_occurrences (byId : gmap jsstring nat) (i : nat) (f : Feature)
    (st : LinkState) (j : nat) :
  (∀ id p, byId !! id = Some p → (p < length (childLists (links st)))%nat) →
  occurrences j (placed (linkStep byId i f st))
  = (occurrences j (placed st) + occurrences j [i])%nat.
Proof.
  intros Hrange. unfold placed, linkStep.
  destruct (attr "Parent" f) as [pid|]; simpl.
  - destruct (byId !! pid) as [p|] eqn:Hp; simpl.
    + rewrite !occurrences_app, occurrences_push by eauto. lia.
    + rewrite !occurrences_app. lia.
  - rewrite !occurrences_app. lia.
Qed.

Lemma linkAll_occurrences (byId : gmap jsstring nat) (features : list Feature)
    (i : nat) (st : LinkState) (j : nat) :
  (∀ id p, byId !! id = Some p → (p < length (childLists (links st)))%nat) →
  occurrences j (placed (linkAll byId features i st))
  = (occurrences j (placed st)
     + if bool_decide (i ≤ j < i + length features)%nat then 1 else 0)%nat.
Proof.
  revert i st. induction features as [|f features IH]; intros i st Hrange; simpl.
  - case_bool_decide; lia.
  - rewrite IH by (intros id p Hp; rewrite linkStep_childLists_length; eauto).
    rewrite linkStep_occurrences, occurrences_singleton by done.
    repeat case_bool_decide; lia.
Qed.

Lemma elem_of_concat (i : nat) (lists : list (list nat)) :
  i ∈ concat lists ↔ ∃ p cs, lists !! p = Some cs ∧ i ∈ cs.
Proof.
  induction lists as [|l lists IH]; simpl.
  - split; [by intros ?%elem_of_nil|]. by intros (p & cs & Hp & _).
  - rewrite elem_of_app, IH. split.
    + intros [Hi|(p & cs & Hp & Hi)]; [by exists 0%nat, l | by exists (S p), cs].
    + intros ([|p] & cs & Hp & Hi); simpl in Hp; [left; congruence | right; eauto].
Qed.

Lemma concat_replicate_nil (n : nat) : concat (replicate n ([] : list nat)) = [].
Proof. induction n; simpl; auto. Qed.

Lemma linkStep_placed (byId : gmap jsstring nat) (i : nat) (f : Feature)
    (st : LinkState) (j : nat) :
  j ∈ placed (linkStep byId i f st) → j ∈ placed st ∨ j = i.
Proof.
  unfold placed, linkStep. destruct (attr "Parent" f) as [pid|]; simpl.
  - destruct (byId !! pid) as [p|]; simpl.
    + rewrite !elem_of_app, !elem_of_concat.
      intros [Hj|(q & cs & Hq & Hj)]; [auto|].
      destruct (decide (p = q)) as [->|Hne].
      * rewrite list_lookup_alter_eq in Hq.
        destruct (childLists (links st) !! q) as [cs0|] eqn:Hcs0; [|done].
        injection Hq as <-. apply elem_of_app in Hj as [Hj|Hj%list_elem_of_singleton]; eauto 8.
      * rewrite list_lookup_alter_ne in Hq by done. eauto 8.
    + rewrite !elem_of_app, list_elem_of_singleton. tauto.
  - rewrite !elem_of_app, list_elem_of_singleton. tauto.
Qed.

Lemma linkStep_linked (byId : gmap jsstring nat) (i : nat) (f : Feature) (st : LinkState) :
  (i < length (parents (links st)))%nat →
  linked st → untouchedFrom i st →
  linked (linkStep byId i f st) ∧ untouchedFrom (S i) (linkStep byId i f st)
  ∧ length (parents (links (linkStep byId i f st))) = length (parents (links st)).
Proof.
  intros Hi [Hroots Hchildren] Huntouched.
  assert (Hafter : untouchedFrom (S i) (linkStep byId i f st)
                   ∧ length (parents (links (linkStep byId i f st)))
                     = length (parents (links st))).
  { split.
    - intros j Hj. destruct (Huntouched j) as [Hout Hnone]; [lia|]. split.
      + intros [?| ->]%linkStep_placed; [done|lia].
      + unfold linkStep. destruct (attr "Parent" f) as [pid|]; [|done].
        destruct (byId !! pid); [|done]. simpl.
        rewrite length_insert, list_lookup_insert_ne by lia. done.
    - unfold linkStep. destruct (attr "Parent" f) as [pid|]; [|done].
      destruct (byId !! pid); [|done]. simpl. apply length_insert. }
  split; [|exact Hafter].
  destruct (Huntouched i) as [Hout Hnone]; [lia|]. unfold placed in Hout.
  rewrite elem_of_app, elem_of_concat in Hout.
  unfold linked, linkStep. destruct (attr "Parent" f) as [pid|]; simpl.
  - destruct (byId !! pid) as [p|]; simpl.
    + split.
      * intros j Hj. rewrite list_lookup_insert_ne; [auto|]. intros <-. tauto.
      * intros q cs j Hq Hj. destruct (decide (p = q)) as [->|Hne].
        -- rewrite list_lookup_alter_eq in Hq.
           destruct (childLists (links st) !! q) as [cs0|] eqn:Hcs0; [|done].
           injection Hq as <-.
           apply elem_of_app in Hj as [Hj| ->%list_elem_of_singleton].
           ++ rewrite list_lookup_insert_ne; [eauto|]. intros <-. apply Hout. eauto.
           ++ by rewrite list_lookup_insert_eq.
        -- rewrite list_lookup_alter_ne in Hq by done.
           rewrite list_lookup_insert_ne; [eauto|]. intros <-. apply Hout. eauto.
    + split; [|done]. intros j [Hj| ->%list_elem_of_singleton]%elem_of_app; auto.
  - split; [|done]. intros j [Hj| ->%list_elem_of_singleton]%elem_of_app; auto.
Qed.

Lemma linkAll_linked (byId : gmap jsstring nat) (features : list Feature) (i : nat)
    (st : LinkState) :
  (i + length features ≤ length (parents (links st)))%nat →
  linked st → untouchedFrom i st →
  linked (linkAll byId features i st).
Proof.
  revert i st. induction features as [|f features IH]; intros i st Hlen Hst Hun;
    simpl in *; [done|].
  destruct (linkStep_linked byId i f st) as (Hst' & Hun' & Hlen'); [lia|done..|].
  apply IH; [lia|done..].
Qed.

(** After [buildHierarchy] the [parent] of a root is null, and the
    [parent] of a feature in a children array is the owner of the
    array. *)
Lemma buildHierarchy_linked (features : list Feature) :
  linked (hierarchyState (buildHierarchy features)).
Proof.
  unfold buildHierarchy. simpl. apply linkAll_linked; simpl.
  - by rewrite length_replicate.
  - split; simpl.
    + by intros j ?%elem_of_nil.
    + intros p cs j [-> _]%lookup_replicate. by intros ?%elem_of_nil.
  - intros j _. unfold placed. simpl. rewrite concat_replicate_nil. split.
    + by intros ?%elem_of_nil.
    + rewrite length_replicate. intros Hj. by apply lookup_replicate_2.
Qed.

(** After [buildHierarchy], every feature of the list is in one
    place exactly once: in [rootFeatures], or in the [children] array of
    one feature.  Never both, never neither; the Parent attributes may
    form a cycle, as no condition on them is assumed.  Positions outside
    the array are in no place.  The [parent] fields agree: a root has
    none, and the array a feature is in is that of its parent. *)
Lemma every_feature_in_exactly_one_place (features : list Feature) (i : nat) :
  let st := hierarchyState (buildHierarchy features) in
  let inRoots := i ∈ rootFeatures st in
  let inChildren := ∃ p cs, childLists (links st) !! p = Some cs ∧ i ∈ cs in
  occurrences i (rootFeatures st ++ concat (childLists (links st)))
  = (if bool_decide (i < length features)%nat then 1 else 0)%nat
  ∧ ((i < length features)%nat ↔ inRoots ∨ inChildren)
  ∧ ¬ (inRoots ∧ inChildren)
  ∧ (inRoots → parents (links st) !! i = Some None)
  ∧ (∀ p cs, childLists (links st) !! p = Some cs → i ∈ cs →
       parents (links st) !! i = Some (Some p)).
Proof.
  intros st inRoots inChildren.
  assert (Hocc : occurrences i (placed st)
                 = (if bool_decide (i < length features)%nat then 1 else 0)%nat).
  { unfold st, buildHierarchy. simpl. rewrite linkAll_occurrences.
    - unfold placed. simpl. rewrite concat_replicate_nil.
      repeat case_bool_decide; simpl; lia.
    - simpl. intros id p [Hp|Hp]%indexById_range.
      + by rewrite lookup_empty in Hp.
      + rewrite length_replicate. lia. }
  assert (Hchildren : inChildren ↔ (0 < occurrences i (concat (childLists (links st))))%nat).
  { by rewrite occurrences_pos, elem_of_concat. }
  assert (Hroots : inRoots ↔ (0 < occurrences i (rootFeatures st))%nat)
    by (by rewrite occurrences_pos).
  destruct (buildHierarchy_linked features) as [Hnull Hparent]. fold st in Hnull, Hparent.
  unfold placed in Hocc. split; [exact Hocc|].
  rewrite occurrences_app in Hocc.
  split; [|split; [|split]].
  - rewrite Hchildren, Hroots. case_bool_decide; lia.
  - rewrite Hchildren, Hroots. case_bool_decide; lia.
  - apply Hnull.
  - intros p cs. apply Hparent.
Qed.

(** ** Features whose parent is not found *)

Lemma linkAll_console (byId : gmap jsstring nat) (features : list Feature)
    (i : nat) (st : LinkState) :
  console (linkAll byId features i st) = console st ++ omap (warningOf byId) features.
Proof.
  revert i st. induction features as [|f features IH]; intros i st; simpl.
  - by rewrite app_nil_r.
  - rewrite IH. unfold linkStep, warningOf at 2.
    destruct (attr "Parent" f) as [pid|]; simpl; [|done].
    destruct (byId !! pid); simpl; [done|]. by rewrite <- app_assoc.
Qed.

Lemma linkAll_roots_kept (byId : gmap jsstring nat) (features : list Feature)
    (i : nat) (st : LinkState) (j : nat) :
  j ∈ rootFeatures st → j ∈ rootFeatures (linkAll byId features i st).
Proof.
  revert i st. induction features as [|f features IH]; intros i st Hj; simpl; [done|].
  apply IH. unfold linkStep.
  destruct (attr "Parent" f) as [pid|]; simpl.
  - destruct (byId !! pid); simpl; [done|]. apply elem_of_app. by left.
  - apply elem_of_app. by left.
Qed.

Lemma linkAll_orphan_is_root (byId : gmap jsstring nat) (features : list Feature)
    (i : nat) (st : LinkState) (k : nat) (f : Feature) (parentId : jsstring) :
  features !! k = Some f →
  attr "Parent" f = Some parentId →
  byId !! parentId = None →
  (i + k)%nat ∈ rootFeatures (linkAll byId features i st).
Proof.
  revert i st k. induction features as [|g features IH]; intros i st k Hk Hparent Hnone;
    [done|].
  destruct k as [|k]; simpl in *.
  - injection Hk as ->. apply linkAll_roots_kept. unfold linkStep.
    rewrite Hparent, Hnone. simpl. rewrite Nat.add_0_r. apply elem_of_app. right.
    by apply list_elem_of_singleton.
  - replace (i + S k)%nat with (S i + k)%nat by lia. by eapply IH.
Qed.

(** The numbers of the lines go up along the outcomes. *)
Lemma outcomes_feature_number (lines : list jsstring) (i : nat) (f : Feature) :
  f ∈ omap featureOf (outcomes lines i) → (i < lineNumber f)%nat.
Proof.
  revert i. induction lines as [|line rest IH]; intros i; simpl; [by intros ?%elem_of_nil|].
  unfold featureOf at 1. simpl.
  destruct (parseGFF3Line line (i + 1)) as [[g|]|e] eqn:Hline;
    try (intros ?%IH; lia).
  intros [->|?%IH]%elem_of_cons; [|lia].
  apply parseGFF3Line_feature in Hline as [-> _]. lia.
Qed.

Lemma outcomes_error_number (lines : list jsstring) (i : nat) (e : ErrorEntry) :
  e ∈ omap errorOf (outcomes lines i) → (i < errLineNumber e)%nat.
Proof.
  revert i. induction lines as [|line rest IH]; intros i; simpl; [by intros ?%elem_of_nil|].
  unfold errorOf at 1. simpl.
  destruct (parseGFF3Line line (i + 1)) as [[g|]|err];
    try (intros ?%IH; lia).
  intros [->|?%IH]%elem_of_cons; simpl; lia.
Qed.

(** No line is both a feature and a failed line. *)
Lemma outcomes_feature_not_error (lines : list jsstring) (i : nat)
    (f : Feature) (e : ErrorEntry) :
  f ∈ omap featureOf (outcomes lines i) →
  e ∈ omap errorOf (outcomes lines i) →
  errLineNumber e ≠ lineNumber f.
Proof.
  revert i. induction lines as [|line rest IH]; intros i; simpl; [by intros ?%elem_of_nil|].
  unfold featureOf at 1, errorOf at 1. simpl.
  destruct (parseGFF3Line line (i + 1)) as [[g|]|err] eqn:Hline; try apply IH.
  - intros [->|Hf]%elem_of_cons He; [|by eapply IH].
    apply parseGFF3Line_feature in Hline as [-> _].
    apply outcomes_error_number in He. lia.
  - intros Hf [->|He]%elem_of_cons; [|by eapply IH].
    apply outcomes_feature_number in Hf. simpl. lia.
Qed.

(** The warnings for one line, among those of a list of features whose
    line numbers go up: the warning of the feature of that line. *)
Lemma warnings_of_one_line (byId : gmap jsstring nat) (lines : list jsstring) (i : nat)
    (f : Feature) (w : Warning) :
  f ∈ omap featureOf (outcomes lines i) →
  warningOf byId f = Some w →
  filter (λ w', warnLine w' = lineNumber f)
         (omap (warningOf byId) (omap featureOf (outcomes lines i))) = [w].
Proof.
  assert (Hline : ∀ g w', warningOf byId g = Some w' → warnLine w' = lineNumber g).
  { intros g w'. unfold warningOf. destruct (attr "Parent" g); simpl; [|done].
    destruct (byId !! _); [done|]. by intros [= <-]. }
  assert (Hnone : ∀ rest j n, (n ≤ j)%nat →
            filter (λ w', warnLine w' = n)
                   (omap (warningOf byId) (omap featureOf (outcomes rest j))) = []).
  { intros rest j n Hn.
    destruct (filter _ _) as [|w' ws] eqn:Hfil; [done|].
    assert (Hin : w' ∈ w' :: ws) by left. rewrite <- Hfil in Hin.
    apply list_elem_of_filter in Hin as [Hn' (g & Hg & Hw)%list_elem_of_omap].
    apply outcomes_feature_number in Hg. apply Hline in Hw. lia. }
  revert i. induction lines as [|line rest IH]; intros i; simpl; [by intros ?%elem_of_nil|].
  unfold featureOf at 1 3. simpl.
  destruct (parseGFF3Line line (i + 1)) as [[g|]|e] eqn:Hparse; try apply IH.
  intros [->|Hf]%elem_of_cons Hw; simpl.
  - rewrite Hw, filter_cons_True by eauto.
    apply parseGFF3Line_feature in Hparse as [-> _].
    by rewrite Hnone by lia.
  - destruct (warningOf byId g) as [wg|] eqn:Hg; [|by apply IH].
    rewrite filter_cons_False; [by apply IH|].
    apply Hline in Hg. apply parseGFF3Line_feature in Hparse as [Hn _].
    apply outcomes_feature_number in Hf. lia.
Qed.

(** C2, amended.  In a successful parse, a feature whose [Parent]
    names no indexed ID is in [rootFeatures], and [buildHierarchy] writes
    exactly one warning for it, to the console.  The list [errors] of the
    result receives nothing for it: it holds the failed lines only, and
    the line of a feature is not one of them. *)
Theorem unresolved_parent_is_a_warned_root (fileContent : jsstring) (r : ParseResult)
    (k : nat) (f : Feature) (parentId : jsstring) :
  parseGFF3 fileContent = Return r →
  features r !! k = Some f →
  attr "Parent" f = Some parentId →
  resultFeatureById r !! parentId = None →
  k ∈ resultRootFeatures r
  ∧ filter (λ w, warnLine w = lineNumber f) (warnings r)
    = [{| warnLine := lineNumber f; warnParent := parentId; warnFeature := attr "ID" f |}]
  ∧ ∀ e, e ∈ errors r → errLineNumber e ≠ lineNumber f.
Proof.
  intros Hparse Hk Hparent Hnone.
  destruct fileContent as [|c s]; [done|].
  rewrite parseGFF3_nonempty in Hparse by done. cbv zeta in Hparse.
  destruct (tooManyErrors _ _); [done|]. injection Hparse as <-. simpl in *.
  set (lines := splitLines (c :: s)) in *.
  split; [|split].
  - by apply (linkAll_orphan_is_root _ _ 0 _ k f parentId).
  - rewrite linkAll_console. simpl.
    apply warnings_of_one_line; [by eapply list_elem_of_lookup_2|].
    unfold warningOf. rewrite Hparent. simpl. by rewrite Hnone.
  - intros e He. eapply outcomes_feature_not_error; [|exact He].
    by eapply list_elem_of_lookup_2.
Qed.

Lemma unresolved_parent_is_a_warned_root_witness :
  ∃ r f,
    parseGFF3 (fileOf [geneLine; orphanLine]) = Return r
    ∧ features r !! 1%nat = Some f
    ∧ attr "Parent" f = Some (lit "missingID")
    ∧ resultFeatureById r !! lit "missingID" = None
    ∧ 1%nat ∈ resultRootFeatures r
    ∧ length (filter (λ w, warnLine w = lineNumber f) (warnings r)) = 1%nat.
Proof.
  destruct (parseGFF3 (fileOf [geneLine; orphanLine])) as [r|e] eqn:Hr;
    [|by vm_compute in Hr].
  destruct (features r !! 1%nat) as [f|] eqn:Hf;
    [|injection Hr as <-; by vm_compute in Hf].
  assert (Hparent : attr "Parent" f = Some (lit "missingID")).
  { injection Hr as <-. vm_compute in Hf. injection Hf as <-. by vm_compute. }
  assert (Hnone : resultFeatureById r !! lit "missingID" = None).
  { injection Hr as <-. by vm_compute. }
  exists r, f. repeat (split; [done|]).
  destruct (unresolved_parent_is_a_warned_root _ r 1 f _ Hr Hf Hparent Hnone)
    as (Hroot & Hwarn & _).
  split; [done|]. by rewrite Hwarn.
Defined.

(** C2 as stated fails: the feature with [Parent=missingID] leaves
    [errors] empty; its one warning is on the console. *)
Lemma unresolved_parent_is_not_in_errors :
  ∃ r, parseGFF3 (fileOf [geneLine; orphanLine]) = Return r
       ∧ errors r = []
       ∧ resultRootFeatures r = [0; 1]%nat
       ∧ warnings r = [{| warnLine := 2; warnParent := lit "missingID";
                          warnFeature := Some (lit "mRNA002") |}].
Proof. eexists. split; [by vm_compute|]. by vm_compute. Qed.

(** Features on a cycle of Parent references: each is in the
    [children] array of its parent and none is a root, so nothing leads
    to them from [rootFeatures]. *)
Lemma parent_cycles :
  (∃ r, parseGFF3 (fileOf [selfParentLine]) = Return r
        ∧ resultRootFeatures r = []
        ∧ resultLinks r = {| parents := [Some 0%nat]; childLists := [[0%nat]] |}
        ∧ rootNodes r = Some [])
  ∧ (∃ r, parseGFF3 (fileOf [cycleLineA; cycleLineB]) = Return r
          ∧ resultRootFeatures r = []
          ∧ resultLinks r = {| parents := [Some 1%nat; Some 0%nat];
                               childLists := [[1%nat]; [0%nat]] |}
          ∧ rootNodes r = Some []).
Proof. split; eexists; (split; [by vm_compute|]); by vm_compute. Qed.

End Hierarchy.

(* ===================================================================== *)
(** * The track layout                                                    *)
(* ===================================================================== *)

Section Tracks.
Import JS Gff3Parser GenomeBrowser Notions.

Lemma apart_sym (a b : FeatureNode) : apart a b → apart b a.
Proof. unfold apart. tauto. Qed.

(** The overlap test of the source, read on one pair: two features
    overlap unless one ends strictly before the other begins. *)
Lemma overlaps_false_iff (f feature : FeatureNode) :
  overlaps f feature = false ↔ apart f feature.
Proof.
  unfold overlaps, apart, num_gt.
  rewrite negb_false_iff, orb_true_iff. tauto.
Qed.

Lemma hasOverlap_false_iff (track : list FeatureNode) (feature : FeatureNode) :
  hasOverlap track feature = false ↔ ∀ f, f ∈ track → apart f feature.
Proof.
  unfold hasOverlap. induction track as [|g track IH]; simpl.
  - split; [|done]. by intros _ f ?%elem_of_nil.
  - rewrite orb_false_iff, IH, overlaps_false_iff. split.
    + intros [Hg Ht] f [->|Hf]%elem_of_cons; auto.
    + intros H. split; [apply H; left | intros f Hf; apply H; by right].
Qed.

(** A lane stays without overlap when a feature that lies apart from
    all of it is pushed onto it. *)
Lemma nonOverlapping_push (lane : list FeatureNode) (feature : FeatureNode) :
  nonOverlapping lane → hasOverlap lane feature = false →
  nonOverlapping (lane ++ [feature]).
Proof.
  intros Hlane Hfree i j a b Hij Hi Hj.
  pose proof (proj1 (hasOverlap_false_iff lane feature) Hfree) as Hapart.
  apply lookup_snoc_Some in Hi as [[Hilt Hi]|[-> <-]];
    apply lookup_snoc_Some in Hj as [[Hjlt Hj]|[-> <-]]; try done.
  - by eapply Hlane.
  - by eapply Hapart, list_elem_of_lookup_2.
  - by eapply apart_sym, Hapart, list_elem_of_lookup_2.
Qed.

Lemma nonOverlapping_singleton (feature : FeatureNode) : nonOverlapping [feature].
Proof.
  intros i j a b Hij Hi%lookup_lt_Some Hj%lookup_lt_Some. simpl in *. lia.
Qed.

(** What the loop over the tracks does: it stops at the first track
    without overlap and pushes the feature there, or finds none. *)
Lemma place_first_fit (tracks : list (list FeatureNode)) (feature : FeatureNode) :
  match place tracks feature with
  | Some placed =>
      ∃ k lane, tracks !! k = Some lane
        ∧ hasOverlap lane feature = false
        ∧ (∀ j lane', (j < k)%nat → tracks !! j = Some lane' → hasOverlap lane' feature = true)
        ∧ placed = <[k := lane ++ [feature]]> tracks
  | None => ∀ lane, lane ∈ tracks → hasOverlap lane feature = true
  end.
Proof.
  induction tracks as [|track tracks IH]; simpl.
  - by intros lane ?%elem_of_nil.
  - destruct (hasOverlap track feature) eqn:Hover; simpl.
    + destruct (place tracks feature) as [placed|]; simpl.
      * destruct IH as (k & lane & Hk & Hfree & Hbefore & ->).
        exists (S k), lane. repeat split; try done.
        intros [|j] lane' Hj Hlane'; simpl in Hlane'; [congruence|].
        apply (Hbefore j); [lia|done].
      * intros lane [->|Hlane]%elem_of_cons; auto.
    + exists 0%nat, track. repeat split; try done. intros j lane' Hj. lia.
Qed.

Lemma placeFeature_nonOverlapping (tracks : list (list FeatureNode)) (feature : FeatureNode) :
  Forall nonOverlapping tracks → Forall nonOverlapping (placeFeature tracks feature).
Proof.
  intros Hall. unfold placeFeature.
  pose proof (place_first_fit tracks feature) as Hplace.
  destruct (place tracks feature) as [placed|].
  - destruct Hplace as (k & lane & Hk & Hfree & _ & ->).
    apply Forall_insert; [done|]. apply nonOverlapping_push; [|done].
    by eapply Forall_lookup_1.
  - apply Forall_app. split; [done|].
    apply Forall_singleton, nonOverlapping_singleton.
Qed.

Lemma placeFeature_concat (tracks : list (list FeatureNode)) (feature : FeatureNode) :
  concat (placeFeature tracks feature) ≡ₚ concat tracks ++ [feature].
Proof.
  unfold placeFeature.
  assert (Hplace : ∀ placed, place tracks feature = Some placed →
                     concat placed ≡ₚ concat tracks ++ [feature]).
  { induction tracks as [|track tracks IH]; simpl; [done|].
    intros placed. destruct (hasOverlap track feature); simpl.
    - destruct (place tracks feature) as [placed'|]; simpl; [|done].
      intros [= <-]. simpl. rewrite IH by done. by rewrite app_assoc.
    - intros [= <-]. simpl. rewrite <- !app_assoc.
      apply Permutation_app_head, Permutation_app_comm. }
  destruct (place tracks feature) as [placed|]; [by apply Hplace|].
  by rewrite concat_app.
Qed.

Lemma organizeIntoTracks_snoc (features : list FeatureNode) (feature : FeatureNode) :
  organizeIntoTracks (features ++ [feature])
  = placeFeature (organizeIntoTracks features) feature.
Proof. unfold organizeIntoTracks. by rewrite foldl_app. Qed.

Lemma organizeIntoTracks_nonOverlapping (features : list FeatureNode) :
  Forall nonOverlapping (organizeIntoTracks features).
Proof.
  induction features as [|feature features IH] using rev_ind; [by constructor|].
  rewrite organizeIntoTracks_snoc. by apply placeFeature_nonOverlapping.
Qed.

Lemma organizeIntoTracks_concat (features : list FeatureNode) :
  concat (organizeIntoTracks features) ≡ₚ features.
Proof.
  induction features as [|feature features IH] using rev_ind; [done|].
  by rewrite organizeIntoTracks_snoc, placeFeature_concat, IH.
Qed.

(** C4. In every lane that [organizeIntoTracks] builds, the features at
    two different positions lie apart: one ends strictly before the
    other begins.  The features are placed one after the other, in the
    order of the list: each goes to the end of the first lane it does not
    overlap, the lanes before that one all overlap it, and a new lane is
    opened, last, only when every lane overlaps it.  Every feature is in
    one lane. *)
Theorem organizeIntoTracks_first_fit (features : list FeatureNode) (feature : FeatureNode) :
  let tracks := organizeIntoTracks features in
  (∀ lane i j a b, lane ∈ tracks → i ≠ j → lane !! i = Some a → lane !! j = Some b →
     num_lt (end_ (nodeFeature a)) (start (nodeFeature b)) = true
     ∨ num_lt (end_ (nodeFeature b)) (start (nodeFeature a)) = true)
  ∧ concat tracks ≡ₚ features
  ∧ (∀ lane, hasOverlap lane feature = false ↔ ∀ f, f ∈ lane → apart f feature)
  ∧ ((∃ k lane, tracks !! k = Some lane
        ∧ hasOverlap lane feature = false
        ∧ (∀ j lane', (j < k)%nat → tracks !! j = Some lane' → hasOverlap lane' feature = true)
        ∧ organizeIntoTracks (features ++ [feature]) = <[k := lane ++ [feature]]> tracks)
     ∨ ((∀ lane, lane ∈ tracks → hasOverlap lane feature = true)
        ∧ organizeIntoTracks (features ++ [feature]) = tracks ++ [[feature]])).
Proof.
  intros tracks. split; [|split; [|split]].
  - intros lane i j a b Hlane Hij Hi Hj.
    pose proof (organizeIntoTracks_nonOverlapping features) as Hall.
    rewrite Forall_forall in Hall. by apply (Hall lane Hlane i j a b).
  - apply organizeIntoTracks_concat.
  - intros lane. apply hasOverlap_false_iff.
  - rewrite organizeIntoTracks_snoc. fold tracks. unfold placeFeature.
    pose proof (place_first_fit tracks feature) as Hplace.
    destruct (place tracks feature) as [placed|]; [left | by right].
    destruct Hplace as (k & lane & Hk & Hfree & Hbefore & ->). by exists k, lane.
Qed.

End Tracks.

(* ===================================================================== *)
(** * The redraw                                                          *)
(* ===================================================================== *)

Section Redraw.
Import JS Gff3Parser GenomeBrowser Notions Samples.

Variable width : float.
Variable scale : Scale.

Local Opaque maxFeaturesToRender.
Local Abbreviation cap := maxFeaturesToRender.
Local Abbreviation render := (renderFeature width scale).
Local Abbreviation visible := (filter (λ root, culled width scale root = false)).

(** The loop over one track hands to [renderFeature] the features in
    view, in order, as long as the count is below the cap. *)
Lemma drawFeature_fold (track : list FeatureNode) (group : list Primitive) (count : nat) :
  foldl (drawFeature width scale) (group, count) track
  = (group ++ flat_map render (take (cap - count) (visible track)),
     (count + length (take (cap - count) (visible track)))%nat).
Proof.
  revert group count. induction track as [|f track IH]; intros group count; simpl.
  - rewrite filter_nil, take_nil. simpl. by rewrite app_nil_r, Nat.add_0_r.
  - unfold drawFeature at 2. simpl.
    destruct (Nat.leb_spec cap count) as [Hfull|Hroom].
    + rewrite IH. replace (cap - count)%nat with 0%nat by lia. by rewrite !take_0.
    + destruct (culled width scale f) eqn:Hf.
      * rewrite IH, filter_cons_False; [done|]. congruence.
      * rewrite IH, filter_cons_True by done.
        replace (cap - count)%nat with (S (cap - S count)) by lia. simpl.
        rewrite <- app_assoc. f_equal. lia.
Qed.

Lemma drawTrack_full (st : Redraw) (track : list FeatureNode) :
  (cap ≤ renderedCount st)%nat → drawTrack width scale st track = st.
Proof.
  intros Hfull. unfold drawTrack.
  by destruct (Nat.leb_spec cap (renderedCount st)); [|lia].
Qed.

Lemma drawTracks_full (st : Redraw) (tracks : list (list FeatureNode)) :
  (cap ≤ renderedCount st)%nat → foldl (drawTrack width scale) st tracks = st.
Proof.
  intros Hfull. induction tracks as [|track tracks IH]; simpl; [done|].
  by rewrite drawTrack_full.
Qed.

(** The whole redraw from a state: the primitives and the count. *)
Lemma drawTrack_fold (tracks : list (list FeatureNode)) (st : Redraw) :
  let done := foldl (drawTrack width scale) st tracks in
  let handed := take (cap - renderedCount st) (visible (concat tracks)) in
  concat (trackGroups done) = concat (trackGroups st) ++ flat_map render handed
  ∧ renderedCount done = (renderedCount st + length handed)%nat.
Proof.
  revert st. induction tracks as [|track tracks IH]; intros st; simpl.
  - rewrite filter_nil, take_nil. simpl. by rewrite app_nil_r, Nat.add_0_r.
  - unfold drawTrack at 2 4.
    destruct (Nat.leb_spec cap (renderedCount st)) as [Hfull|Hroom].
    + rewrite drawTracks_full by done.
      replace (cap - renderedCount st)%nat with 0%nat by lia.
      rewrite take_0. simpl. by rewrite app_nil_r, Nat.add_0_r.
    + rewrite drawFeature_fold. simpl.
      match goal with |- context [foldl _ ?st' tracks] => destruct (IH st') as [Hgroups Hcount] end.
      simpl in *. rewrite Hgroups, Hcount.
      rewrite filter_app, take_app, flat_map_app, length_app, concat_app. simpl.
      rewrite app_nil_r, <- !app_assoc.
      set (mine := visible track). set (others := visible (concat tracks)).
      replace (cap - (renderedCount st + length (take (cap - renderedCount st) mine)))%nat
        with (cap - renderedCount st - length mine)%nat
        by (rewrite length_take; lia).
      split; [done|lia].
Qed.

(** A redraw, read off the roots in view: the first ones up to the cap
    are handed to [renderFeature], each counted once. *)
Lemma updateFeatures_handed (tracks : list (list FeatureNode)) :
  let r := updateFeatures width tracks scale in
  concat (trackGroups r) = flat_map render (take cap (visible (concat tracks)))
  ∧ renderedCount r = length (take cap (visible (concat tracks))).
Proof.
  unfold updateFeatures.
  destruct (drawTrack_fold tracks {| trackGroups := []; renderedCount := 0 |}) as [Hg Hc].
  simpl in *. by rewrite Nat.sub_0_r in Hg, Hc.
Qed.




(** C7, amended.  The cap bounds [renderedCount], the number of root
    features handed to [renderFeature] in one redraw, whatever each of
    them draws: the count is the number of roots in view, or the cap when
    there are more.  The roots handed are the first in view, track by
    track; once the cap is reached the features and tracks that follow
    are skipped, as if they were not there.  A redraw starts from no
    group and a count of zero, so nothing skipped is kept for later. *)
Theorem cap_bounds_rendered_roots (tracks : list (list FeatureNode)) :
  let r := updateFeatures width tracks scale in
  let inViewRoots := filter (λ root, culled width scale root = false) (concat tracks) in
  (renderedCount r ≤ maxFeaturesToRender)%nat
  ∧ renderedCount r = (length inViewRoots `min` maxFeaturesToRender)%nat
  ∧ concat (trackGroups r)
    = flat_map (renderFeature width scale) (take maxFeaturesToRender inViewRoots)
  ∧ ((maxFeaturesToRender ≤ length inViewRoots)%nat →
     ∀ rest, updateFeatures width (tracks ++ rest) scale = r).
Proof.
  intros r inViewRoots. destruct (updateFeatures_handed tracks) as [Hg Hc].
  fold r in Hg, Hc. fold inViewRoots in Hg, Hc.
  rewrite length_take in Hc.
  split; [lia|]. split; [lia|]. split; [done|].
  intros Hreached rest. unfold updateFeatures. rewrite foldl_app.
  apply drawTracks_full. fold (updateFeatures width tracks scale). fold r. lia.
Qed.

End Redraw.

Local Transparent GenomeBrowser.maxFeaturesToRender.

Section RedrawExamples.
Import JS Gff3Parser GenomeBrowser Notions Samples.


(** C7 as stated fails: one root is handed to [renderFeature], and
    5001 primitives are drawn, one for the gene and one for each of its
    5000 children. *)
Lemma cap_does_not_count_children :
  let r := updateFeatures windowWidth [[geneWithManyExons]] windowScale in
  renderedCount r = 1%nat
  ∧ length (concat (trackGroups r)) = S maxFeaturesToRender
  ∧ (maxFeaturesToRender < length (concat (trackGroups r)))%nat.
Proof.
  assert (H : length (concat (trackGroups
                (updateFeatures windowWidth [[geneWithManyExons]] windowScale)))
              = S maxFeaturesToRender) by (by vm_compute).
  cbv zeta. rewrite H. split; [by vm_compute|]. split; [done|lia].
Qed.

End RedrawExamples.

(* ===================================================================== *)
(** * The zoom handler                                                    *)
(* ===================================================================== *)

Section Throttle.
Import GenomeBrowser Notions MoreNotions.
Context {T : Type}.
Local Open Scope float_scope.

Lemma clearTimeout_pending (st : ZoomState T) :
  onePending st → clearTimeout (zoomTimeout st) (timeouts st) = [].
Proof.
  intros [Hnone|(t & Hone & Hid)].
  - rewrite Hnone. by destruct (zoomTimeout st).
  - rewrite Hone, Hid. simpl. by rewrite filter_cons_False, filter_nil by auto.
Qed.

Lemma onZoom_onePending (now : float) (transform : T) (st : ZoomState T) :
  onePending st → onePending (onZoom now transform st).
Proof.
  intros Hst. unfold onZoom. destruct (_ <? _); [|exact Hst].
  right. simpl. rewrite clearTimeout_pending by done. by eexists.
Qed.

(** A timeout that fires is the one pending, and none is pending after. *)
Lemma timeout_fires (st st' : ZoomState T) (now : float) (id : nat) :
  onePending st → step st (TimeoutFires now id) = Some st' →
  ∃ t, timeouts st = [t] ∧ timeoutId t = id ∧ (due t <=? now) = true
       ∧ timeouts st' = []
       ∧ frameCallbacks st' = frameCallbacks st ++ [UpdateAndStamp (captured t)]
       ∧ redraws st' = redraws st.
Proof.
  intros [Hnone|(t & Hone & Hid)]; simpl.
  - by rewrite Hnone, filter_nil.
  - rewrite Hone. destruct (decide (timeoutId t = id)) as [Heq|Hne].
    + rewrite filter_cons_True by done.
      destruct (due t <=? now) eqn:Hdue; [|done]. intros [= <-]. simpl.
      exists t. rewrite filter_cons_False, filter_nil by auto. done.
    + by rewrite filter_cons_False, filter_nil.
Qed.

(** The callbacks of a frame touch neither the timeouts nor the axis:
    they draw their transforms, in order, and the last that stamps
    leaves its time. *)
Lemma frame_runs (now : float) (callbacks : list (FrameCallback T)) (st : ZoomState T) :
  zoomTimeout (foldl (runFrameCallback now) st callbacks) = zoomTimeout st
  ∧ timeouts (foldl (runFrameCallback now) st callbacks) = timeouts st
  ∧ lastTransform (foldl (runFrameCallback now) st callbacks) = lastTransform st
  ∧ axis (foldl (runFrameCallback now) st callbacks) = axis st
  ∧ nextTimeoutId (foldl (runFrameCallback now) st callbacks) = nextTimeoutId st
  ∧ frameCallbacks (foldl (runFrameCallback now) st callbacks) = frameCallbacks st
  ∧ redraws (foldl (runFrameCallback now) st callbacks) = redraws st ++ queued callbacks.
Proof.
  revert st. induction callbacks as [|callback callbacks IH]; intros st.
  - simpl. by rewrite app_nil_r.
  - cbn [foldl].
    destruct (IH (runFrameCallback now st callback)) as (-> & -> & -> & -> & -> & -> & ->).
    destruct callback; simpl; by rewrite <- app_assoc.
Qed.

Lemma frame_onePending (now : float) (callbacks : list (FrameCallback T))
    (st : ZoomState T) :
  onePending st → onePending (foldl (runFrameCallback now) st callbacks).
Proof.
  intros Hst. unfold onePending.
  destruct (frame_runs now callbacks st) as (-> & -> & _). exact Hst.
Qed.

Lemma step_onePending (st st' : ZoomState T) (e : Event T) :
  onePending st → step st e = Some st' → onePending st'.
Proof.
  intros Hst. destruct e as [now transform|now id|now].
  - intros [= <-]. by apply onZoom_onePending.
  - intros (t & _ & _ & _ & Hnone & _)%timeout_fires; [|done]. by left.
  - cbn [step]. destruct (frameCallbacks st) as [|callback rest]; [done|].
    intros [= <-]. apply frame_onePending.
    first [exact Hst | destruct callback; exact Hst].
Qed.

Lemma run_onePending (events : list (Event T)) (st st' : ZoomState T) :
  onePending st → run st events = Some st' → onePending st'.
Proof.
  revert st. induction events as [|e events IH]; intros st Hst; simpl.
  - by intros [= <-].
  - destruct (step st e) as [st1|] eqn:Hstep; [|done]. simpl.
    apply IH. by eapply step_onePending.
Qed.

(** C8, amended.  In every state the handler can reach, at most one
    timeout is pending.  A transform that arrives less than the throttle
    interval after [lastUpdateTime] draws nothing on arrival: it cancels
    the pending timeout, if there is one, and sets a new one that holds
    this transform and is due one whole throttle interval after this
    arrival.  The firing time thus moves with every such transform.  A
    timeout that fires is the pending one; it queues one redraw, of the
    transform it holds, and leaves none pending. *)
Theorem one_timeout_rearmed_on_arrival (events : list (Event T)) (st : ZoomState T) :
  run initialZoom events = Some st →
  (length (timeouts st) ≤ 1)%nat
  ∧ (∀ now transform,
       (now - lastUpdateTime st <? throttleInterval) = true →
       timeouts (onZoom now transform st)
       = [{| timeoutId := nextTimeoutId st;
             due := now + throttleInterval;
             captured := transform |}]
       ∧ frameCallbacks (onZoom now transform st) = frameCallbacks st
       ∧ redraws (onZoom now transform st) = redraws st)
  ∧ (∀ now id st',
       step st (TimeoutFires now id) = Some st' →
       ∃ t, timeouts st = [t] ∧ timeoutId t = id ∧ (due t <=? now) = true
            ∧ timeouts st' = []
            ∧ frameCallbacks st' = frameCallbacks st ++ [UpdateAndStamp (captured t)]
            ∧ redraws st' = redraws st).
Proof.
  intros Hrun.
  assert (Hst : onePending st)
    by (apply (run_onePending events initialZoom st); [by left | exact Hrun]).
  split; [|split].
  - destruct Hst as [->|(t & -> & _)]; simpl; lia.
  - intros now transform Hsoon. unfold onZoom. rewrite Hsoon. simpl.
    by rewrite clearTimeout_pending.
  - intros now id st'. by apply timeout_fires.
Qed.

End Throttle.

Section ThrottleExamples.
Import GenomeBrowser Notions Samples.
Local Open Scope float_scope.

Lemma one_timeout_rearmed_on_arrival_witness :
  ∃ st, run initialZoom burst = Some st
        ∧ (length (timeouts st) ≤ 1)%nat
        ∧ timeouts (onZoom 1050 4%nat st)
          = [{| timeoutId := 3; due := 1110; captured := 4%nat |}].
Proof.
  destruct (run initialZoom burst) as [st|] eqn:Hrun; [|by vm_compute in Hrun].
  exists st. split; [done|].
  destruct (one_timeout_rearmed_on_arrival burst st Hrun) as (Hone & Harm & _).
  split; [exact Hone|].
  destruct (Harm 1050 4%nat) as (-> & _).
  - injection Hrun as <-. by vm_compute.
  - injection Hrun as <-. by vm_compute.
Defined.

(** C8 as stated fails: the timeout set for the second transform is
    due at 1080; the third transform arrives at 1040, while it is
    pending, and the timeout pending afterwards is due at 1100. *)
Lemma firing_time_moves_with_each_arrival :
  (timeouts <$> run initialZoom (take 3 burst))
  = Some [{| timeoutId := 1; due := 1080; captured := 2%nat |}]
  ∧ (timeouts <$> run initialZoom burst)
    = Some [{| timeoutId := 2; due := 1100; captured := 3%nat |}].
Proof. split; by vm_compute. Qed.

(** A transform that arrives once the interval has passed, while a
    timeout is still pending, is drawn at once and leaves the timeout in
    place: the redraw of the older transform 2 comes after that of the
    newer transform 3. *)
Lemma pending_timeout_outlives_immediate_redraw :
  (λ st, (redraws st, lastTransform st))
    <$> run initialZoom
          [Zoom 1000 1%nat; AnimationFrame 1016; Zoom 1050 2%nat; Zoom 1070 3%nat;
           AnimationFrame 1082; TimeoutFires 1110 1; AnimationFrame 1116]
  = Some ([1; 3; 2]%nat, Some 3%nat).
Proof. by vm_compute. Qed.

End ThrottleExamples.

(* ===================================================================== *)
(** * Worked inputs                                                       *)
(* ===================================================================== *)

Section Worked.
Import JS Gff3Parser GenomeBrowser Notions Samples.

Lemma testsAgree_sound (upTo nErrors nLines : nat) :
  testsAgree upTo = true → (nErrors ≤ nLines ≤ upTo)%nat →
  tooManyErrors nErrors nLines = tooManyErrors64 nErrors nLines.
Proof.
  unfold testsAgree. rewrite forallb_forall. intros Hall [He Hn].
  specialize (Hall nLines). rewrite forallb_forall in Hall.
  apply Bool.eqb_prop, Hall; apply in_seq; lia.
Qed.

Lemma testsAgree_400 : testsAgree 400 = true.
Proof. vm_compute. reflexivity. Qed.

(** The threshold test on the exact quotient and the test in binary64
    agree on every file of at most 400 lines. *)
Lemma tooManyErrors_binary64 (nErrors nLines : nat) :
  (nErrors ≤ nLines ≤ 400)%nat →
  tooManyErrors nErrors nLines = tooManyErrors64 nErrors nLines.
Proof. apply testsAgree_sound, testsAgree_400. Qed.

(** The scenario of a gene with one transcript and two exons: one root,
    named BRCA1, one lane, and a redraw of the whole extent on a drawing
    area 800 wide that draws the arrow of the gene, the line between the
    two exons and the two exon blocks. *)
Lemma gene_with_two_exons :
  ∃ r roots,
    parseGFF3 brca1File = Return r
    ∧ errors r = [] ∧ warnings r = []
    ∧ rootNodes r = Some roots
    ∧ (λ root, attr "Name" (nodeFeature root)) <$> roots = [Some (lit "BRCA1")]
    ∧ length (organizeIntoTracks roots) = 1%nat
    ∧ primitiveKind <$> concat (trackGroups
        (updateFeatures 800 (organizeIntoTracks roots) (scaleLinear 1000 9000 0 800)))
      = [("arrow", 1); ("line", 0); ("exon block", 3); ("exon block", 4)]%nat%string.
Proof.
  eexists _, _. split; [by vm_compute|]. split; [done|]. split; [done|].
  split; [by vm_compute|]. by vm_compute.
Qed.

Lemma organizeIntoTracks_first_fit_witness :
  organizeIntoTracks [geneA; geneB] = [[geneA; geneB]]
  ∧ apart geneA geneB
  ∧ hasOverlap [geneA; geneB] geneC = true
  ∧ organizeIntoTracks ([geneA; geneB] ++ [geneC]) = [[geneA; geneB]; [geneC]].
Proof.
  destruct (organizeIntoTracks_first_fit [geneA; geneB] geneC)
    as (Hapart & _ & _ & Hstep).
  assert (Htracks : organizeIntoTracks [geneA; geneB] = [[geneA; geneB]])
    by (by vm_compute).
  split; [exact Htracks|]. split.
  - apply (Hapart [geneA; geneB] 0%nat 1%nat); [|done..].
    cbv zeta. rewrite Htracks. left.
  - split; [by vm_compute|].
    destruct Hstep as [(k & lane & Hk & Hfree & _)|[_ ->]].
    + rewrite Htracks in Hk. destruct k as [|[|k]]; [|done..].
      injection Hk as <-. by vm_compute in Hfree.
    + by rewrite Htracks.
Defined.


Lemma cap_bounds_rendered_roots_witness :
  let tracks := [replicate maxFeaturesToRender geneA; [geneB]] in
  (maxFeaturesToRender
   ≤ length (filter (λ root, culled 800 (scaleLinear 1 3000 0 800) root = false)
                    (concat tracks)))%nat
  ∧ renderedCount (updateFeatures 800 tracks (scaleLinear 1 3000 0 800))
    = maxFeaturesToRender
  ∧ updateFeatures 800 (tracks ++ [[geneC]]) (scaleLinear 1 3000 0 800)
    = updateFeatures 800 tracks (scaleLinear 1 3000 0 800).
Proof.
  intros tracks.
  destruct (cap_bounds_rendered_roots 800 (scaleLinear 1 3000 0 800) tracks)
    as (_ & Hcount & _ & Hskip).
  assert (Hn : length (filter (λ root, culled 800 (scaleLinear 1 3000 0 800) root = false)
                         (concat tracks)) = S maxFeaturesToRender)
    by (by vm_compute).
  cbv zeta in Hcount, Hskip. rewrite Hn in Hcount, Hskip |- *.
  split; [lia|]. split; [rewrite Hcount; lia|].
  apply Hskip. lia.
Defined.

End Worked.

(* ===================================================================== *)
(** * More on lines                                                       *)
(* ===================================================================== *)

Section MoreLines.
Import JS Gff3Parser GenomeBrowser Notions Samples.

(** [parseGFF3Line] returns null for the blank lines and the comment
    lines, and for no other line. *)
Theorem skipped_lines_are_blank_or_comment (line : jsstring) (lineNumber : nat) :
  parseGFF3Line line lineNumber = Return None
  ↔ trim line = [] ∨ startsWith HASH (trim line) = true.
Proof.
  unfold parseGFF3Line. destruct (trim line) as [|c t] eqn:Ht.
  { split; [by left|done]. }
  destruct (startsWith HASH (c :: t)) eqn:Hhash.
  { split; [by right|done]. }
  split; [|by intros [|]].
  destruct (split TAB (c :: t)) as [|c1 [|c2 [|c3 [|c4 [|c5 [|c6 [|c7 [|c8 [|c9 [|c10 cs]]]]]]]]]];
    try done.
  destruct (isNaN _ || isNaN _); [done|]. destruct (num_gt _ _); [done|].
  destruct (negb _); [done|]. by destruct (parseAttributes c9).
Qed.

(** A line fails on its column count exactly when it is neither blank
    nor a comment and the tabs cut its trimmed text into a number of
    columns other than nine; the error carries that number. *)
Theorem column_count_error_iff (line : jsstring) (lineNumber got : nat) :
  parseGFF3Line line lineNumber = Throw (ColumnCountError lineNumber got)
  ↔ trim line ≠ [] ∧ startsWith HASH (trim line) = false
    ∧ got = length (split TAB (trim line)) ∧ got ≠ 9%nat.
Proof.
  split.
  - unfold parseGFF3Line. destruct (trim line) as [|c t] eqn:Ht; [done|].
    destruct (startsWith HASH (c :: t)) eqn:Hhash; [done|].
    destruct (split TAB (c :: t)) as [|c1 [|c2 [|c3 [|c4 [|c5 [|c6 [|c7 [|c8 [|c9 [|c10 cs]]]]]]]]]];
      try (intros [= <-]; repeat split; simpl; (done || lia)).
    destruct (isNaN _ || isNaN _); [done|]. destruct (num_gt _ _); [done|].
    destruct (negb _); [done|]. by destruct (parseAttributes c9).
  - intros (Hne & Hhash & -> & Hnine). by apply parseGFF3Line_column_count.
Qed.

(** The feature of a line holds the columns of the line: the texts of
    columns 1, 2, 3 and 7, the integers [parseInt] reads in columns 4 and
    5, neither of them NaN and the first not above the second, one of the
    four strand tokens, the parsed attributes, and the number of the
    line. *)
Theorem returned_feature_holds_the_columns (line : jsstring) (n : nat) (f : Feature) :
  parseGFF3Line line n = Return (Some f) →
  ∃ c4 c5 c6 c8 c9,
    split TAB (trim line) = [seqid f; source f; type_ f; c4; c5; c6; strand f; c8; c9]
    ∧ start f = parseInt10 c4 ∧ end_ f = parseInt10 c5
    ∧ isNaN (start f) = false ∧ isNaN (end_ f) = false
    ∧ num_le (start f) (end_ f) = true
    ∧ validStrand (strand f) = true
    ∧ parseAttributes c9 = Some (attributes f)
    ∧ lineNumber f = n.
Proof.
  intros Hline. destruct (parseGFF3Line_feature _ _ _ Hline) as (Hn & Hle & Hs & He).
  revert Hline. unfold parseGFF3Line.
  destruct (trim line) as [|c t]; [done|].
  destruct (startsWith HASH (c :: t)); [done|].
  destruct (split TAB (c :: t)) as [|c1 [|c2 [|c3 [|c4 [|c5 [|c6 [|c7 [|c8 [|c9 [|c10 cs]]]]]]]]]];
    try done.
  destruct (isNaN _ || isNaN _); [done|]. destruct (num_gt _ _); [done|].
  destruct (validStrand c7) eqn:Hstrand; [|done]. simpl.
  destruct (parseAttributes c9) as [attrs|] eqn:Hattrs; [|done].
  intros [= <-]. simpl in *. by exists c4, c5, c6, c8, c9.
Qed.

Lemma returned_feature_holds_the_columns_witness :
  ∃ f, parseGFF3Line geneLine 1 = Return (Some f)
       ∧ start f = Fin 1000 ∧ end_ f = Fin 9000 ∧ strand f = lit "+"
       ∧ lineNumber f = 1%nat.
Proof.
  destruct (parseGFF3Line geneLine 1) as [[f|]|e] eqn:Hline;
    [|by vm_compute in Hline..].
  destruct (returned_feature_holds_the_columns geneLine 1 f Hline)
    as (c4 & c5 & c6 & c8 & c9 & Hcols & Hs & He & _ & _ & _ & _ & _ & Hn).
  exists f. split; [done|].
  assert (Hc : split TAB (trim geneLine)
               = [lit "chr1"; lit "RefSeq"; lit "gene"; lit "1000"; lit "9000";
                  lit "."; lit "+"; lit "."; lit "ID=gene001;Name=BRCA1"])
    by (by vm_compute).
  rewrite Hc in Hcols. injection Hcols as _ _ _ H4 H5 _ Hstrand _ _.
  subst c4 c5. by rewrite Hs, He, <- Hstrand.
Defined.

(** A line of nine columns fails with the first check that fails, in
    the order of the source: the type of the coordinates, their order,
    the strand, the attributes.  An invalid strand or a bad escape is
    reported only for coordinates that pass. *)
Theorem nine_column_errors_in_order (line : jsstring) (n : nat)
    (c1 c2 c3 c4 c5 c6 c7 c8 c9 : jsstring) :
  startsWith HASH (trim line) = false →
  split TAB (trim line) = [c1; c2; c3; c4; c5; c6; c7; c8; c9] →
  let startPos := parseInt10 c4 in
  let endPos := parseInt10 c5 in
  let typed := isNaN startPos || isNaN endPos = false in
  let ordered := num_gt startPos endPos = false in
  (parseGFF3Line line n = Throw (CoordinateTypeError n) ↔ ¬ typed)
  ∧ (parseGFF3Line line n = Throw (CoordinateOrderError n startPos endPos)
     ↔ typed ∧ ¬ ordered)
  ∧ (parseGFF3Line line n = Throw (StrandError n c7)
     ↔ typed ∧ ordered ∧ validStrand c7 = false)
  ∧ (parseGFF3Line line n = Throw URIError
     ↔ typed ∧ ordered ∧ validStrand c7 = true ∧ parseAttributes c9 = None)
  ∧ ((∃ f, parseGFF3Line line n = Return (Some f))
     ↔ typed ∧ ordered ∧ validStrand c7 = true ∧ is_Some (parseAttributes c9)).
Proof.
  intros Hhash Hcols startPos endPos typed ordered.
  rewrite (parseGFF3Line_nine_columns _ _ _ _ _ _ _ _ _ _ _ Hhash Hcols).
  fold startPos endPos. unfold typed, ordered.
  destruct (isNaN startPos || isNaN endPos); [naive_solver|].
  destruct (num_gt startPos endPos); [naive_solver|].
  destruct (validStrand c7); simpl; [|naive_solver].
  destruct (parseAttributes c9) as [attrs|]; [naive_solver|].
  repeat split; naive_solver.
Qed.

Lemma nine_column_errors_in_order_witness :
  startsWith HASH (trim fractionLine) = false
  ∧ parseGFF3Line fractionLine 7 ≠ Throw (CoordinateTypeError 7)
  ∧ ∃ f, parseGFF3Line fractionLine 7 = Return (Some f).
Proof.
  split; [done|].
  destruct (nine_column_errors_in_order fractionLine 7
              (lit "chr1") (lit "RefSeq") (lit "gene") (lit "3.7") (lit "12abc")
              (lit ".") (lit "+") (lit ".") (lit "ID=gene001"))
    as (Htype & _ & _ & _ & Hok); [done..|].
  split.
  - rewrite Htype. intros Hnot. by apply Hnot.
  - by apply Hok.
Defined.

End MoreLines.

(* ===================================================================== *)
(** * The attribute column                                                *)
(* ===================================================================== *)

Section Attributes.
Import JS Gff3Parser GenomeBrowser Notions MoreNotions Samples.

Lemma trimStart_suffix (s : jsstring) : ∃ white, s = white ++ trimStart s.
Proof.
  induction s as [|c s [white IH]]; [by exists []|]. simpl.
  destruct (isWhiteSpace c); [|by exists []].
  exists (c :: white). simpl. by rewrite <- IH.
Qed.

Lemma trimStart_length (s : jsstring) : (length (trimStart s) ≤ length s)%nat.
Proof.
  destruct (trimStart_suffix s) as [white Hs]. rewrite Hs at 2.
  rewrite length_app. lia.
Qed.

Lemma trimStart_fixed (s : jsstring) :
  trimStart s = s ↔ s = [] ∨ ∃ c r, s = c :: r ∧ isWhiteSpace c = false.
Proof.
  destruct s as [|c r]; simpl; [split; auto|].
  destruct (isWhiteSpace c) eqn:Hc.
  - split.
    + intros Heq. pose proof (trimStart_length r) as Hlen.
      rewrite Heq in Hlen. simpl in Hlen. lia.
    + intros [?|(c' & r' & [= <- <-] & ?)]; congruence.
  - split; [|done]. intros _. right. by exists c, r.
Qed.

Lemma trimEnd_length (s : jsstring) : (length (trimEnd s) ≤ length s)%nat.
Proof.
  unfold trimEnd. rewrite length_rev.
  pose proof (trimStart_length (rev s)). by rewrite length_rev in *.
Qed.

(** A text is its own [trim] when neither of its ends is white space. *)
Lemma trim_fixed (s : jsstring) :
  trim s = s ↔ trimStart s = s ∧ trimStart (rev s) = rev s.
Proof.
  unfold trim, trimEnd. split.
  - intros Heq.
    assert (Hstart : trimStart s = s).
    { destruct (trimStart_suffix s) as [white Hs].
      pose proof (trimEnd_length (trimStart s)) as Hlen. unfold trimEnd in Hlen.
      rewrite Heq in Hlen. rewrite Hs in Hlen at 1. rewrite length_app in Hlen.
      destruct white; [by rewrite Hs at 2|]. simpl in Hlen. lia. }
    split; [done|]. rewrite Hstart in Heq.
    by rewrite <- Heq at 2; rewrite rev_involutive.
  - intros [-> ->]. apply rev_involutive.
Qed.

Lemma trim_pair (key value : jsstring) :
  trim key = key → trim value = value →
  trim (key ++ EQUALS :: value) = key ++ EQUALS :: value.
Proof.
  intros [Hk _]%trim_fixed [_ Hv]%trim_fixed. apply trim_fixed. split.
  - apply trimStart_fixed. right.
    apply trimStart_fixed in Hk as [->|(c & r & -> & Hc)]; simpl; eauto.
  - rewrite rev_app_distr. simpl. rewrite <- app_assoc. simpl.
    apply trimStart_fixed. right.
    apply trimStart_fixed in Hv as [Hv|(c & r & Hv & Hc)]; rewrite Hv; simpl; eauto.
Qed.

Lemma indexOf_first (c : N) (before after : jsstring) :
  c ∉ before → indexOf c (before ++ c :: after) = Some (length before).
Proof.
  induction before as [|d before IH]; simpl; intros Hnot.
  - by rewrite N.eqb_refl.
  - apply not_elem_of_cons in Hnot as [Hd Hnot].
    destruct (N.eqb_spec d c) as [->|_]; [done|]. by rewrite IH.
Qed.

Lemma split_no_separator (sep : N) (s : jsstring) : sep ∉ s → split sep s = [s].
Proof.
  induction s as [|c s IH]; simpl; [done|]. intros [Hc Hs]%not_elem_of_cons.
  destruct (N.eqb_spec c sep) as [->|_]; [done|]. by rewrite IH.
Qed.

Lemma split_first_piece (sep : N) (piece rest : jsstring) :
  sep ∉ piece → split sep (piece ++ sep :: rest) = piece :: split sep rest.
Proof.
  induction piece as [|c piece IH]; simpl; intros Hnot.
  - by rewrite N.eqb_refl.
  - apply not_elem_of_cons in Hnot as [Hc Hnot].
    destruct (N.eqb_spec c sep) as [->|_]; [done|]. by rewrite IH.
Qed.

Lemma joinWith_head (sep : N) (piece : jsstring) (rest : list jsstring) :
  ∃ tail, joinWith sep (piece :: rest) = piece ++ tail.
Proof.
  destruct rest as [|q rest]; [exists []; simpl; by rewrite app_nil_r|].
  by exists (sep :: joinWith sep (q :: rest)).
Qed.

(** Splitting what was joined gives the pieces back, when no piece
    holds the separator. *)
Lemma split_joinWith (sep : N) (pieces : list jsstring) :
  pieces ≠ [] → Forall (λ p, sep ∉ p) pieces →
  split sep (joinWith sep pieces) = pieces.
Proof.
  induction pieces as [|p [|q pieces] IH]; [done|..]; intros _ Hall.
  - simpl. apply split_no_separator. by inversion Hall.
  - inversion Hall as [|? ? Hp Hrest]; subst.
    change (joinWith sep (p :: q :: pieces)) with (p ++ sep :: joinWith sep (q :: pieces)).
    rewrite split_first_piece by done. by rewrite IH.
Qed.

(** A text without a percent sign decodes to itself. *)
Lemma decodeURIComponent_plain (s : jsstring) :
  PERCENT ∉ s → decodeURIComponent s = Some s.
Proof.
  intros Hs. unfold decodeURIComponent.
  assert (Htokens : tokens s = Some (Plain <$> s)).
  { induction s as [|c s IH]; [done|].
    apply not_elem_of_cons in Hs as [Hc Hs]. simpl.
    destruct (N.eqb_spec c PERCENT) as [->|_]; [done|]. by rewrite IH. }
  rewrite Htokens. simpl. clear. induction s as [|c s IH]; [done|].
  rewrite fmap_cons. cbn [decodeTokens]. by rewrite IH.
Qed.

(** One written pair, read back by the loop of [parseAttributes]. *)
Lemma parsePairs_written (key value : jsstring) (rest : list jsstring)
    (attributes : gmap jsstring jsstring) :
  plainKey key → plainValue value →
  parsePairs ((key ++ EQUALS :: value) :: rest) attributes
  = parsePairs rest (<[key := value]> attributes).
Proof.
  intros (Hk & _ & Heq & Hproto) (Hv & _ & Hpercent).
  cbn [parsePairs]. rewrite trim_pair by done.
  rewrite indexOf_first by done. unfold substring, substringFrom.
  rewrite Nat.sub_0_r, drop_0, take_app_length.
  replace (length key + 1)%nat with (length (key ++ [EQUALS])) by (rewrite length_app; simpl; lia).
  rewrite (cons_middle EQUALS key value), app_assoc, drop_app_length.
  rewrite Hk, Hv, decodeURIComponent_plain by done.
  unfold setAttribute, str_eqb. rewrite bool_decide_eq_false_2 by done.
  by destruct key.
Qed.

(** Round trip of the attribute column.  The column written from a
    list of plain keys and values, as key=value joined by ';', parses
    back to these keys and values; of two pairs with one key, the later
    is kept.  A value may hold '='. *)
Theorem written_attributes_parse_back (pairs : list (jsstring * jsstring)) :
  Forall (λ kv, plainKey kv.1 ∧ plainValue kv.2) pairs →
  parseAttributes (joinWith SEMICOLON (writePair <$> pairs))
  = Some (foldl (λ m kv, <[kv.1 := kv.2]> m) ∅ pairs)
  ∧ ∀ before key value after,
      pairs = before ++ (key, value) :: after → key ∉ after.*1 →
      ∃ m, parseAttributes (joinWith SEMICOLON (writePair <$> pairs)) = Some m
           ∧ m !! key = Some value.
Proof.
  intros Hall.
  assert (Hloop : ∀ attributes,
            parsePairs (writePair <$> pairs) attributes
            = Some (foldl (λ m kv, <[kv.1 := kv.2]> m) attributes pairs)).
  { induction Hall as [|[key value] pairs [Hk Hv] _ IH]; intros attributes; [done|].
    cbn [fmap list_fmap foldl]. unfold writePair at 1. simpl fst. simpl snd.
    rewrite parsePairs_written by done. apply IH. }
  assert (Hparse : parseAttributes (joinWith SEMICOLON (writePair <$> pairs))
                   = Some (foldl (λ m kv, <[kv.1 := kv.2]> m) ∅ pairs)).
  { destruct pairs as [|[key value] pairs]; [done|].
    unfold parseAttributes.
    destruct (joinWith SEMICOLON (writePair <$> (key, value) :: pairs)) as [|c s] eqn:Hjoin.
    { destruct pairs; simpl in Hjoin; unfold writePair in Hjoin; simpl in Hjoin;
        by destruct key. }
    assert (Heq : EQUALS ∈ c :: s).
    { rewrite <- Hjoin. rewrite fmap_cons.
      destruct (joinWith_head SEMICOLON (writePair (key, value)) (writePair <$> pairs))
        as [tail ->].
      unfold writePair. simpl. rewrite !elem_of_app, elem_of_cons. auto. }
    unfold str_eqb. rewrite bool_decide_eq_false_2.
    - rewrite <- Hjoin, split_joinWith; [apply Hloop|done|].
      apply Forall_fmap. eapply Forall_impl; [exact Hall|].
      intros [k v] [(_ & Hk & _) (_ & Hv & _)]. unfold writePair. simpl in *.
      rewrite elem_of_app, elem_of_cons. intros [?|[?|?]]; done.
    - intros Hdot. rewrite Hdot in Heq. by apply list_elem_of_singleton in Heq. }
  split; [exact Hparse|].
  intros before key value after -> Hlast. eexists. split; [exact Hparse|].
  rewrite foldl_app. simpl.
  match goal with |- context [foldl ?f ?a before] => generalize (foldl f a before) end.
  clear Hall Hloop Hparse. revert Hlast.
  induction after as [|[k v] after IH] using rev_ind; intros Hlast m; simpl.
  - apply lookup_insert_eq.
  - rewrite fmap_app, elem_of_app in Hlast. simpl in Hlast.
    rewrite foldl_app. simpl. rewrite lookup_insert_ne.
    + apply IH. tauto.
    + intros ->. apply Hlast. right. left.
Qed.

Lemma written_attributes_parse_back_witness :
  ∃ m, parseAttributes (lit "ID=gene001;Note=a=b;ID=gene002") = Some m
       ∧ m !! lit "ID" = Some (lit "gene002")
       ∧ m !! lit "Note" = Some (lit "a=b").
Proof.
  assert (Hplain : Forall (λ kv, plainKey kv.1 ∧ plainValue kv.2)
                     [(lit "ID", lit "gene001"); (lit "Note", lit "a=b");
                      (lit "ID", lit "gene002")]).
  { repeat (apply Forall_cons; split;
              [split; repeat split; apply (bool_decide_unpack _); by vm_compute|]).
    constructor. }
  destruct (written_attributes_parse_back _ Hplain) as [Hparse Hlast].
  eexists. split; [exact Hparse|]. split.
  - destruct (Hlast [(lit "ID", lit "gene001"); (lit "Note", lit "a=b")]
                (lit "ID") (lit "gene002") []) as (m & Hm & Hid); [done|by intros ?%elem_of_nil|].
    rewrite Hparse in Hm. by injection Hm as <-.
  - destruct (Hlast [(lit "ID", lit "gene001")] (lit "Note") (lit "a=b")
                [(lit "ID", lit "gene002")]) as (m & Hm & Hnote); [done| |].
    + by intros [= ]%list_elem_of_singleton.
    + rewrite Hparse in Hm. by injection Hm as <-.
Defined.

End Attributes.

(* ===================================================================== *)
(** * The result of a parse                                               *)
(* ===================================================================== *)

Section Results.
Import JS Gff3Parser GenomeBrowser Notions MoreNotions Samples Gff3Helpers AppShell.

Lemma outcomes_lookup (lines : list jsstring) (i : nat)
    (o : nat * jsstring * completion (option Feature) LineError) :
  o ∈ outcomes lines i
  ↔ ∃ k line, lines !! k = Some line
              ∧ o = ((i + k + 1)%nat, line, parseGFF3Line line (i + k + 1)%nat).
Proof.
  revert i. induction lines as [|l lines IH]; intros i; simpl.
  - split; [by intros ?%elem_of_nil | by intros (k & line & ? & _)].
  - rewrite elem_of_cons, IH. split.
    + intros [->|(k & line & Hk & ->)].
      * exists 0%nat, l. by rewrite Nat.add_0_r.
      * exists (S k), line. split; [done|]. by replace (i + S k + 1)%nat with (S i + k + 1)%nat by lia.
    + intros ([|k] & line & Hk & ->); simpl in Hk.
      * left. injection Hk as ->. by rewrite Nat.add_0_r.
      * right. exists k, line. split; [done|].
        by replace (i + S k + 1)%nat with (S i + k + 1)%nat by lia.
Qed.

Lemma outcomes_sorted (lines : list jsstring) (i : nat) :
  StronglySorted lt (lineNumber <$> omap featureOf (outcomes lines i))
  ∧ StronglySorted lt (errLineNumber <$> omap errorOf (outcomes lines i)).
Proof.
  revert i. induction lines as [|line rest IH]; intros i; simpl; [split; constructor|].
  destruct (IH (S i)) as [Hf He].
  unfold featureOf at 1, errorOf at 1. simpl.
  destruct (parseGFF3Line line (i + 1)) as [[f|]|e] eqn:Hline; simpl; split; try done.
  - constructor; [done|]. apply Forall_fmap, Forall_forall. intros g Hg. simpl.
    apply outcomes_feature_number in Hg.
    apply parseGFF3Line_feature in Hline as [-> _]. lia.
  - constructor; [done|]. apply Forall_fmap, Forall_forall. intros g Hg. simpl.
    apply outcomes_error_number in Hg. lia.
Qed.

Lemma outcomes_length (lines : list jsstring) (i : nat) :
  (length (omap featureOf (outcomes lines i)) + length (omap errorOf (outcomes lines i))
   ≤ length lines)%nat.
Proof.
  revert i. induction lines as [|line rest IH]; intros i; simpl; [lia|].
  specialize (IH (S i)).
  change (omap featureOf ((?o :: ?os)))
    with (match featureOf o with Some x => x :: omap featureOf os | None => omap featureOf os end).
  change (omap errorOf ((?o :: ?os)))
    with (match errorOf o with Some x => x :: omap errorOf os | None => omap errorOf os end).
  unfold featureOf at 1, errorOf at 1. cbn [snd].
  destruct (parseGFF3Line line (i + 1)) as [[f|]|e]; cbn [length]; unfold omap in IH; lia.
Qed.

(** What [parseGFF3] returns, when it returns. *)
Lemma parseGFF3_returns (fileContent : jsstring) (r : ParseResult) :
  parseGFF3 fileContent = Return r →
  fileContent ≠ []
  ∧ features r = parsedFeatures (splitLines fileContent)
  ∧ errors r = failedLines (splitLines fileContent)
  ∧ tooManyErrors (length (errors r)) (length (splitLines fileContent)) = false
  ∧ resultLinks r = links (hierarchyState (buildHierarchy (features r)))
  ∧ resultRootFeatures r = rootFeatures (hierarchyState (buildHierarchy (features r)))
  ∧ resultFeatureById r = featureById (buildHierarchy (features r))
  ∧ warnings r = console (hierarchyState (buildHierarchy (features r)))
  ∧ extent r = computeExtent (features r)
  ∧ sequences r = distinct [] (seqid <$> features r)
  ∧ featureTypes r = distinct [] (type_ <$> features r)
  ∧ stats r = {| totalFeatures := length (features r);
                 statRootFeatures := length (resultRootFeatures r);
                 statErrors := length (errors r) |}.
Proof.
  intros Hparse. destruct fileContent as [|c s]; [done|].
  rewrite parseGFF3_nonempty in Hparse by done. cbv zeta in Hparse.
  destruct (tooManyErrors _ _) eqn:Htest; [done|]. injection Hparse as <-.
  by repeat split.
Qed.

(** Provenance.  Every feature and every entry of [errors] of a result
    comes from one line of the file, the line whose number it carries:
    the feature is what [parseGFF3Line] returns on that line, the entry
    holds what it throws there and the first 100 code units of the line.
    Every line of the file is skipped, or is the line of one feature, or
    of one entry. *)
Theorem result_entries_come_from_their_lines (fileContent : jsstring) (r : ParseResult) :
  parseGFF3 fileContent = Return r →
  let lines := splitLines fileContent in
  (∀ f, f ∈ features r →
     ∃ k line, lineNumber f = S k ∧ lines !! k = Some line
               ∧ parseGFF3Line line (S k) = Return (Some f))
  ∧ (∀ e, e ∈ errors r →
       ∃ k line, errLineNumber e = S k ∧ lines !! k = Some line
                 ∧ parseGFF3Line line (S k) = Throw (errMessage e)
                 ∧ errLine e = take 100 line)
  ∧ (∀ k line, lines !! k = Some line →
       parseGFF3Line line (S k) = Return None
       ∨ (∃ f, f ∈ features r ∧ lineNumber f = S k)
       ∨ (∃ e, e ∈ errors r ∧ errLineNumber e = S k)).
Proof.
  intros (_ & Hf & He & _)%parseGFF3_returns lines. rewrite Hf, He. fold lines.
  unfold parsedFeatures, failedLines. split; [|split].
  - intros f (o & (k & line & Hk & ->)%outcomes_lookup & Ho)%list_elem_of_omap.
    unfold featureOf in Ho. simpl in Ho.
    destruct (parseGFF3Line line (k + 1)) as [[g|]|] eqn:Hline; try done.
    injection Ho as ->. replace (k + 1)%nat with (S k) in Hline by lia.
    exists k, line. split; [|done]. by apply parseGFF3Line_feature in Hline as [-> _].
  - intros e (o & (k & line & Hk & ->)%outcomes_lookup & Ho)%list_elem_of_omap.
    unfold errorOf in Ho. simpl in Ho.
    destruct (parseGFF3Line line (k + 1)) as [|err] eqn:Hline; try done.
    injection Ho as <-. simpl. replace (k + 1)%nat with (S k) in * by lia.
    exists k, line. by repeat split.
  - intros k line Hk.
    assert (Ho : (S k, line, parseGFF3Line line (S k)) ∈ outcomes lines 0).
    { apply outcomes_lookup. exists k, line. split; [done|].
      by replace (0 + k + 1)%nat with (S k) by lia. }
    destruct (parseGFF3Line line (S k)) as [[f|]|err] eqn:Hline; [|by left|].
    + right. left. exists f. split.
      * apply list_elem_of_omap. eexists. split; [exact Ho|done].
      * by apply parseGFF3Line_feature in Hline as [-> _].
    + right. right. eexists. split.
      * apply list_elem_of_omap. eexists. split; [exact Ho|done].
      * done.
Qed.

Lemma result_entries_come_from_their_lines_witness :
  ∃ r e, parseGFF3 oneInTen = Return r
         ∧ e ∈ errors r
         ∧ errLineNumber e = 3%nat
         ∧ splitLines oneInTen !! 2%nat = Some badEscapeLine
         ∧ parseGFF3Line badEscapeLine 3 = Throw (errMessage e).
Proof.
  destruct (parseGFF3 oneInTen) as [r|] eqn:Hr; [|by vm_compute in Hr].
  destruct (result_entries_come_from_their_lines oneInTen r Hr) as (_ & Herr & _).
  assert (He : errors r = [{| errLineNumber := 3; errMessage := URIError;
                              errLine := badEscapeLine |}])
    by (pose proof Hr as Hv; vm_compute in Hv; injection Hv as <-; by vm_compute).
  eexists r, _. split; [done|]. split; [rewrite He; left|].
  destruct (Herr {| errLineNumber := 3; errMessage := URIError; errLine := badEscapeLine |})
    as (k & line & Hn & Hk & Hline & _); [rewrite He; left|].
  simpl in Hn. injection Hn as <-. split; [done|]. split; [by vm_compute|].
  assert (line = badEscapeLine) as -> by (vm_compute in Hk; by injection Hk as <-).
  exact Hline.
Defined.

(** File order.  The features of a result are in the order of their
    lines, and so are the entries of [errors]: the line numbers go up
    strictly along both lists, so no line gives two features or two
    entries, and the two lists together are no longer than the file. *)
Theorem result_is_in_file_order (fileContent : jsstring) (r : ParseResult) :
  parseGFF3 fileContent = Return r →
  StronglySorted lt (lineNumber <$> features r)
  ∧ StronglySorted lt (errLineNumber <$> errors r)
  ∧ (totalFeatures (stats r) + statErrors (stats r) ≤ length (splitLines fileContent))%nat
  ∧ (10 * statErrors (stats r) ≤ length (splitLines fileContent))%nat.
Proof.
  intros (_ & Hf & He & Htest & _ & _ & _ & _ & _ & _ & _ & Hstats)%parseGFF3_returns.
  rewrite Hstats. simpl. rewrite Hf, He in *.
  destruct (outcomes_sorted (splitLines fileContent) 0) as [Hsf Hse].
  pose proof (outcomes_length (splitLines fileContent) 0).
  repeat split; try done.
  destruct (decide (length (splitLines fileContent)
                    < 10 * length (failedLines (splitLines fileContent)))%nat) as [Hlt|]; [|lia].
  apply tooManyErrors_iff in Hlt. congruence.
Qed.

Lemma result_is_in_file_order_witness :
  ∃ r, parseGFF3 oneInTen = Return r
       ∧ lineNumber <$> features r = [1; 2; 4; 5; 6; 7; 8; 9; 10]%nat
       ∧ StronglySorted lt (lineNumber <$> features r).
Proof.
  destruct (parseGFF3 oneInTen) as [r|] eqn:Hr; [|by vm_compute in Hr].
  destruct (result_is_in_file_order oneInTen r Hr) as (Hsorted & _).
  exists r. split; [done|]. split; [|done].
  pose proof Hr as Hv. vm_compute in Hv. injection Hv as <-. by vm_compute.
Defined.

End Results.

(* ===================================================================== *)
(** * White space and line endings                                        *)
(* ===================================================================== *)

Section WhiteSpace.
Import JS Gff3Parser GenomeBrowser Notions MoreNotions Samples LineEndings.

Lemma trim_white_around (before line after : jsstring) :
  forallb isWhiteSpace before = true → forallb isWhiteSpace after = true →
  trim (before ++ line ++ after) = trim line.
Proof.
  intros Hb Ha.
  assert (Hafter : ∀ s, trim (s ++ after) = trim s).
  { induction after as [|c after IH] using rev_ind; intros s; [by rewrite app_nil_r|].
    rewrite forallb_app in Ha. simpl in Ha.
    apply andb_true_iff in Ha as [Ha Hc]. rewrite andb_true_r in Hc.
    rewrite app_assoc, trim_snoc_white by done. by apply IH. }
  rewrite app_assoc, Hafter. clear Hafter Ha.
  induction before as [|c before IH]; [done|].
  simpl in Hb. apply andb_true_iff in Hb as [Hc Hb].
  unfold trim in *. simpl. rewrite Hc. by apply IH.
Qed.

(** White space around a line is ignored: before anything else the
    line is trimmed, so the same line with white space (blanks, tabs, a
    carriage return) in front of it or after it is read the same way. *)
Theorem white_space_around_a_line_is_ignored (before line after : jsstring)
    (lineNumber : nat) :
  forallb isWhiteSpace before = true → forallb isWhiteSpace after = true →
  parseGFF3Line (before ++ line ++ after) lineNumber = parseGFF3Line line lineNumber.
Proof.
  intros Hb Ha. unfold parseGFF3Line. by rewrite trim_white_around.
Qed.

Lemma white_space_around_a_line_is_ignored_witness :
  parseGFF3Line (lit "  " ++ geneLine ++ [CR]) 1 = parseGFF3Line geneLine 1.
Proof.
  by apply (white_space_around_a_line_is_ignored (lit "  ") geneLine [CR] 1).
Defined.

Lemma splitLines_one (line : jsstring) :
  LF ∉ line → CR ∉ line → splitLines line = [line].
Proof.
  induction line as [|c line IH]; [done|]. intros Hlf Hcr.
  apply not_elem_of_cons in Hlf as [Hc1 Hlf]. apply not_elem_of_cons in Hcr as [Hc2 Hcr].
  simpl. destruct (N.eqb_spec c LF); [done|].
  destruct line as [|d line]; [done|].
  destruct (N.eqb_spec c CR); [done|]. simpl andb. cbv iota.
  by rewrite IH.
Qed.

Lemma splitLines_first (line rest : jsstring) :
  LF ∉ line → CR ∉ line →
  splitLines (line ++ LF :: rest) = line :: splitLines rest
  ∧ splitLines (line ++ CR :: LF :: rest) = line :: splitLines rest.
Proof.
  induction line as [|c line IH]; [done|]. intros Hlf Hcr.
  apply not_elem_of_cons in Hlf as [Hc1 Hlf]. apply not_elem_of_cons in Hcr as [Hc2 Hcr].
  destruct (IH Hlf Hcr) as [IH1 IH2].
  split.
  - change ((c :: line) ++ LF :: rest) with (c :: (line ++ LF :: rest)).
    cbn [splitLines]. destruct (N.eqb_spec c LF); [done|].
    destruct (line ++ LF :: rest) as [|d r] eqn:Hr; [by destruct line|].
    destruct (N.eqb_spec c CR); [done|]. simpl andb. cbv iota.
    by rewrite IH1.
  - change ((c :: line) ++ CR :: LF :: rest) with (c :: (line ++ CR :: LF :: rest)).
    cbn [splitLines]. destruct (N.eqb_spec c LF); [done|].
    destruct (line ++ CR :: LF :: rest) as [|d r] eqn:Hr; [by destruct line|].
    destruct (N.eqb_spec c CR); [done|]. simpl andb. cbv iota.
    by rewrite IH2.
Qed.

Lemma splitLines_files (lines : list jsstring) :
  lines ≠ [] → Forall (λ line, (LF ∉ line) ∧ (CR ∉ line)) lines →
  splitLines (fileOf lines) = lines ∧ splitLines (crlfFileOf lines) = lines.
Proof.
  intros Hne Hall. induction Hall as [|line rest [Hlf Hcr] Hrest IH]; [done|].
  destruct rest as [|line' rest].
  - split; by apply splitLines_one.
  - destruct IH as [IH1 IH2]; [done|].
    destruct (splitLines_first line (fileOf (line' :: rest)) Hlf Hcr) as [H1 _].
    destruct (splitLines_first line (crlfFileOf (line' :: rest)) Hlf Hcr) as [_ H2].
    change (fileOf (line :: line' :: rest)) with (line ++ LF :: fileOf (line' :: rest)).
    change (crlfFileOf (line :: line' :: rest))
      with (line ++ CR :: LF :: crlfFileOf (line' :: rest)).
    by rewrite H1, H2, IH1, IH2.
Qed.

Lemma parseGFF3_by_lines (a b : jsstring) :
  (a = [] ↔ b = []) → splitLines a = splitLines b → parseGFF3 a = parseGFF3 b.
Proof.
  intros Hempty Hlines. destruct a as [|c a].
  - by rewrite (proj1 Hempty eq_refl).
  - destruct b as [|d b]; [by destruct Hempty as [_ H]; specialize (H eq_refl)|].
    rewrite !parseGFF3_nonempty by done. cbv zeta. by rewrite Hlines.
Qed.

(** The line ending does not matter.  A file whose lines are separated
    by a carriage return and a line feed is split into the same lines as
    the file with line feeds only, and [parseGFF3] gives the same on the
    two. *)
Theorem line_endings_do_not_matter (lines : list jsstring) :
  lines ≠ [] → Forall (λ line, (LF ∉ line) ∧ (CR ∉ line)) lines →
  splitLines (crlfFileOf lines) = lines
  ∧ splitLines (fileOf lines) = lines
  ∧ parseGFF3 (crlfFileOf lines) = parseGFF3 (fileOf lines).
Proof.
  intros Hne Hall. destruct (splitLines_files lines Hne Hall) as [H1 H2].
  split; [done|]. split; [done|]. apply parseGFF3_by_lines; [|by rewrite H1, H2].
  destruct lines as [|line [|line' rest]]; [done|done|].
  split; intros H; by destruct line.
Qed.

Lemma line_endings_do_not_matter_witness :
  parseGFF3 (crlfFileOf [geneLine; mRNALine]) = parseGFF3 (fileOf [geneLine; mRNALine]).
Proof.
  apply (line_endings_do_not_matter [geneLine; mRNALine]); [done|].
  repeat (apply Forall_cons; split;
          [split; apply (bool_decide_unpack _); by vm_compute|]).
  constructor.
Defined.

End WhiteSpace.

(* ===================================================================== *)
(** * A line that ends with a tab                                         *)
(* ===================================================================== *)

Section TrailingTab.
Import JS Gff3Parser Notions Samples.

Lemma joinWith_cons_head (sep c : N) (pieces : list jsstring) :
  pieces ≠ [] → joinWith sep (cons_head c pieces) = c :: joinWith sep pieces.
Proof. destruct pieces as [|h [|h' t]]; done. Qed.

Lemma joinWith_split (sep : N) (s : jsstring) : joinWith sep (split sep s) = s.
Proof.
  induction s as [|c s IH]; [done|]. simpl.
  pose proof (split_nonempty sep s) as Hne.
  destruct (N.eqb_spec c sep) as [->|_].
  - destruct (split sep s) as [|h t]; [done|]. simpl in *. by rewrite IH.
  - by rewrite joinWith_cons_head, IH.
Qed.

Lemma split_pieces (sep : N) (s : jsstring) : Forall (λ piece, sep ∉ piece) (split sep s).
Proof.
  induction s as [|c s IH]; simpl.
  - constructor; [by intros ?%elem_of_nil|constructor].
  - destruct (N.eqb_spec c sep) as [->|Hc].
    + constructor; [by intros ?%elem_of_nil|done].
    + destruct (split sep s) as [|h t]; simpl.
      * constructor; [|constructor]. by intros ->%list_elem_of_singleton.
      * inversion IH as [|? ? Hh Ht]; subst. constructor; [|done].
        intros [->|?]%elem_of_cons; done.
Qed.

Lemma trimStart_elem (s : jsstring) (x : N) : x ∈ trimStart s → x ∈ s.
Proof.
  destruct (trimStart_suffix s) as (white & Hs). intros Hx.
  rewrite Hs. apply elem_of_app. by right.
Qed.

Lemma trimEnd_elem (s : jsstring) (x : N) : x ∈ trimEnd s → x ∈ s.
Proof.
  unfold trimEnd. intros Hx.
  apply (proj1 (list_elem_of_In _ _)) in Hx. apply (proj2 (in_rev _ _)) in Hx.
  apply (proj2 (list_elem_of_In _ _)) in Hx. apply trimStart_elem in Hx.
  apply (proj1 (list_elem_of_In _ _)) in Hx. apply (proj2 (in_rev _ _)) in Hx.
  by apply list_elem_of_In.
Qed.

Lemma trimStart_app_nonwhite (a b : jsstring) :
  forallb isWhiteSpace a = false →
  trimStart (a ++ b) = trimStart a ++ b ∧ trimStart a ≠ [].
Proof.
  induction a as [|c a IH]; [done|]. simpl. destruct (isWhiteSpace c); simpl; [|done].
  apply IH.
Qed.

Lemma trimEnd_app_nonwhite (a b : jsstring) :
  forallb isWhiteSpace b = false → trimEnd (a ++ b) = a ++ trimEnd b.
Proof.
  intros Hb. unfold trimEnd. rewrite rev_app_distr.
  assert (Hrev : forallb isWhiteSpace (rev b) = false).
  { destruct (forallb isWhiteSpace (rev b)) eqn:Hall; [|done].
    rewrite forallb_forall in Hall.
    assert (forallb isWhiteSpace b = true); [|congruence].
    apply forallb_forall. intros x Hx. apply Hall. by apply in_rev in Hx. }
  destruct (trimStart_app_nonwhite (rev b) (rev a) Hrev) as [-> _].
  by rewrite rev_app_distr, rev_involutive.
Qed.

Lemma parseGFF3Line_skips (line : jsstring) (lineNumber : nat) :
  trim line = [] ∨ startsWith HASH (trim line) = true →
  parseGFF3Line line lineNumber = Return None.
Proof.
  unfold parseGFF3Line. intros [->|Hhash]; [done|].
  destruct (trim line); [done|]. by rewrite Hhash.
Qed.

(** A line of eight columns: the trim takes white space off its first
    and its last column when both hold something else, and then leaves
    the tabs alone. *)
Lemma trim_eight_columns (c1 c2 c3 c4 c5 c6 c7 c8 : jsstring) :
  Forall (λ piece, TAB ∉ piece) [c1; c2; c3; c4; c5; c6; c7; c8] →
  forallb isWhiteSpace c1 = false → forallb isWhiteSpace c8 = false →
  split TAB (trim (joinWith TAB [c1; c2; c3; c4; c5; c6; c7; c8]))
  = [trimStart c1; c2; c3; c4; c5; c6; c7; trimEnd c8]
  ∧ trim (joinWith TAB [c1; c2; c3; c4; c5; c6; c7; c8]) ≠ []
  ∧ startsWith HASH (trim (joinWith TAB [c1; c2; c3; c4; c5; c6; c7; c8]))
    = startsWith HASH (trimStart c1).
Proof.
  intros Hfree H1 H8. unfold trim. cbn [joinWith].
  destruct (trimStart_app_nonwhite c1
              (TAB :: c2 ++ TAB :: c3 ++ TAB :: c4 ++ TAB :: c5 ++ TAB :: c6
               ++ TAB :: c7 ++ TAB :: c8) H1) as [-> Hne].
  replace (trimStart c1 ++ TAB :: c2 ++ TAB :: c3 ++ TAB :: c4 ++ TAB :: c5
           ++ TAB :: c6 ++ TAB :: c7 ++ TAB :: c8)
    with ((trimStart c1 ++ TAB :: c2 ++ TAB :: c3 ++ TAB :: c4 ++ TAB :: c5
           ++ TAB :: c6 ++ TAB :: c7 ++ [TAB]) ++ c8)
    by (repeat (rewrite <- app_assoc; simpl); reflexivity).
  rewrite (trimEnd_app_nonwhite _ c8 H8).
  rewrite !Forall_cons in Hfree.
  destruct Hfree as (F1 & F2 & F3 & F4 & F5 & F6 & F7 & F8 & _).
  assert (F1' : TAB ∉ trimStart c1) by (intros ?%trimStart_elem; done).
  assert (F8' : TAB ∉ trimEnd c8) by (intros ?%trimEnd_elem; done).
  split; [|split].
  - repeat (rewrite <- app_assoc; simpl).
    rewrite (split_first_piece TAB (trimStart c1)) by done.
    rewrite (split_first_piece TAB c2) by done.
    rewrite (split_first_piece TAB c3) by done.
    rewrite (split_first_piece TAB c4) by done.
    rewrite (split_first_piece TAB c5) by done.
    rewrite (split_first_piece TAB c6) by done.
    rewrite (split_first_piece TAB c7) by done.
    by rewrite split_no_separator.
  - destruct (trimStart c1); [done|]. done.
  - destruct (trimStart c1); [done|]. done.
Qed.

Lemma fewer_columns_when_an_end_is_white (c1 c2 c3 c4 c5 c6 c7 c8 : jsstring) :
  Forall (λ piece, TAB ∉ piece) [c1; c2; c3; c4; c5; c6; c7; c8] →
  forallb isWhiteSpace c1 = true ∨ forallb isWhiteSpace c8 = true →
  (length (split TAB (trim (joinWith TAB [c1; c2; c3; c4; c5; c6; c7; c8]))) < 8)%nat.
Proof.
  intros Hfree [H1|H8].
  - assert (Ht : trim (joinWith TAB [c1; c2; c3; c4; c5; c6; c7; c8])
                 = trim (joinWith TAB [c2; c3; c4; c5; c6; c7; c8])).
    { assert (Hw : forallb isWhiteSpace (c1 ++ [TAB]) = true)
        by (rewrite forallb_app, H1; done).
      pose proof (trim_white_around (c1 ++ [TAB])
                    (joinWith TAB [c2; c3; c4; c5; c6; c7; c8]) [] Hw eq_refl) as H.
      rewrite app_nil_r, <- app_assoc in H. exact H. }
    rewrite Ht.
    pose proof (split_length_trim TAB (joinWith TAB [c2; c3; c4; c5; c6; c7; c8])) as Hle.
    rewrite split_joinWith in Hle; [cbn [length] in Hle; lia|done|].
    by inversion Hfree.
  - assert (Ht : trim (joinWith TAB [c1; c2; c3; c4; c5; c6; c7; c8])
                 = trim (joinWith TAB [c1; c2; c3; c4; c5; c6; c7])).
    { assert (Hw : forallb isWhiteSpace (TAB :: c8) = true) by (simpl; exact H8).
      pose proof (trim_white_around []
                    (joinWith TAB [c1; c2; c3; c4; c5; c6; c7]) (TAB :: c8) eq_refl Hw) as H.
      rewrite <- H. f_equal. cbn [joinWith app].
      repeat (rewrite <- app_assoc; simpl). reflexivity. }
    rewrite Ht.
    pose proof (split_length_trim TAB (joinWith TAB [c1; c2; c3; c4; c5; c6; c7])) as Hle.
    rewrite split_joinWith in Hle; [cbn [length] in Hle; lia|done|].
    rewrite !Forall_cons in Hfree. rewrite !Forall_cons. tauto.
Qed.

(** C10, amended.  A line of eight columns followed by a tab has an
    empty ninth column when it is split as it stands, and never yields a
    feature: the trim that comes first removes the last tab.  With
    something other than white space in its first and in its eighth
    column, the trimmed line has the eight columns, and the line is
    skipped as a comment when the first of these characters is '#' and
    fails on a count of 8 columns otherwise.  With a first or an eighth
    column that is empty or all white space, the trim removes more
    tabs: the line is skipped, or fails on a count below 8. *)
Theorem line_ending_with_a_tab_yields_no_feature (record : jsstring) (lineNumber : nat)
    (c1 c2 c3 c4 c5 c6 c7 c8 : jsstring) :
  split TAB record = [c1; c2; c3; c4; c5; c6; c7; c8] →
  split TAB (record ++ [TAB]) = [c1; c2; c3; c4; c5; c6; c7; c8; []]
  ∧ trim (record ++ [TAB]) = trim record
  ∧ (∀ f, parseGFF3Line (record ++ [TAB]) lineNumber ≠ Return (Some f))
  ∧ (forallb isWhiteSpace c1 = false → forallb isWhiteSpace c8 = false →
       split TAB (trim (record ++ [TAB]))
       = [trimStart c1; c2; c3; c4; c5; c6; c7; trimEnd c8]
       ∧ parseGFF3Line (record ++ [TAB]) lineNumber
         = if startsWith HASH (trimStart c1) then Return None
           else Throw (ColumnCountError lineNumber 8))
  ∧ (forallb isWhiteSpace c1 = true ∨ forallb isWhiteSpace c8 = true →
       parseGFF3Line (record ++ [TAB]) lineNumber = Return None
       ∨ ∃ got, (got < 8)%nat
                ∧ parseGFF3Line (record ++ [TAB]) lineNumber
                  = Throw (ColumnCountError lineNumber got)).
Proof.
  intros Hcols.
  assert (Hrecord : record = joinWith TAB [c1; c2; c3; c4; c5; c6; c7; c8])
    by (by rewrite <- Hcols, joinWith_split).
  assert (Hfree : Forall (λ piece, TAB ∉ piece) [c1; c2; c3; c4; c5; c6; c7; c8])
    by (rewrite <- Hcols; apply split_pieces).
  assert (Ht : trim (record ++ [TAB]) = trim record) by (by apply trim_snoc_white).
  split; [by rewrite split_snoc_sep, Hcols|]. split; [exact Ht|]. split; [|split].
  - intros f Hf.
    destruct (trailing_tab_never_yields_a_feature record lineNumber) as [H|(got & _ & H)];
      [by rewrite Hcols|congruence..].
  - intros H1 H8.
    destruct (trim_eight_columns c1 c2 c3 c4 c5 c6 c7 c8 Hfree H1 H8)
      as (Hsplit & Hne & Hhash).
    rewrite <- Hrecord, <- Ht in Hsplit, Hne, Hhash. split; [exact Hsplit|].
    destruct (startsWith HASH (trimStart c1)) eqn:Hc.
    + apply parseGFF3Line_skips. by right.
    + rewrite parseGFF3Line_column_count; rewrite ?Hsplit; done.
  - intros Hwhite.
    pose proof (fewer_columns_when_an_end_is_white c1 c2 c3 c4 c5 c6 c7 c8 Hfree Hwhite)
      as Hlt.
    rewrite <- Hrecord, <- Ht in Hlt.
    destruct (trim (record ++ [TAB])) as [|c t] eqn:Htrim.
    { left. apply parseGFF3Line_skips. left. done. }
    destruct (startsWith HASH (c :: t)) eqn:Hhash.
    { left. apply parseGFF3Line_skips. right. by rewrite Htrim. }
    right. exists (length (split TAB (c :: t))). split; [done|].
    rewrite parseGFF3Line_column_count; rewrite Htrim; try done. lia.
Qed.

Lemma line_ending_with_a_tab_yields_no_feature_witness :
  split TAB eightColumns
  = lit <$> ["chr1"; "RefSeq"; "gene"; "1000"; "9000"; "."; "+"; "."]%string
  ∧ parseGFF3Line (eightColumns ++ [TAB]) 4 = Throw (ColumnCountError 4 8).
Proof.
  split; [reflexivity|].
  destruct (line_ending_with_a_tab_yields_no_feature eightColumns 4
              (lit "chr1") (lit "RefSeq") (lit "gene") (lit "1000") (lit "9000")
              (lit ".") (lit "+") (lit ".") eq_refl) as (_ & _ & _ & Height & _).
  destruct Height as [_ ->]; reflexivity.
Defined.

(** C10 as stated fails: with an empty eighth column the line still
    ends with the tab of an empty ninth column, and the trim removes
    both tabs: the count is 7, not 8. *)
Lemma empty_eighth_column_counts_seven :
  let line := tsv ["chr1"; "RefSeq"; "gene"; "1000"; "9000"; "."; "+"; ""; ""]%string in
  split TAB line
  = lit <$> ["chr1"; "RefSeq"; "gene"; "1000"; "9000"; "."; "+"; ""; ""]%string
  ∧ last line = Some TAB
  ∧ parseGFF3Line line 1 = Throw (ColumnCountError 1 7).
Proof. by vm_compute. Qed.

End TrailingTab.

(* ===================================================================== *)
(** * How the coordinates are read                                        *)
(* ===================================================================== *)

Section Coordinates.
Import JS Gff3Parser Notions Samples Decimal.

Lemma digit_cases (c : N) :
  isDigit c = true →
  isWhiteSpace c = false ∧ (c =? MINUS) = false ∧ (c =? PLUS) = false.
Proof.
  unfold isDigit. intros [H1%N.leb_le H2%N.leb_le]%andb_true_iff.
  assert (Hc : c = 48 ∨ c = 49 ∨ c = 50 ∨ c = 51 ∨ c = 52 ∨ c = 53 ∨ c = 54
               ∨ c = 55 ∨ c = 56 ∨ c = 57) by lia.
  repeat (destruct Hc as [->|Hc]; [done|]). by subst.
Qed.

Lemma digitsValue_run (digits rest : jsstring) (acc : option Z) :
  forallb isDigit digits = true → digitNext rest = false →
  digitsValue acc (digits ++ rest)
  = match digits with
    | [] => acc
    | _ :: _ =>
        Some (foldl (λ acc c, 10 * acc + Z.of_N (c - 48))%Z (default 0%Z acc) digits)
    end.
Proof.
  intros Hdigits Hrest. revert acc.
  induction digits as [|c digits IH]; intros acc.
  - destruct rest as [|d rest]; [done|]. simpl in *. by rewrite Hrest.
  - simpl in Hdigits. apply andb_true_iff in Hdigits as [Hc Hdigits].
    simpl. rewrite Hc, (IH Hdigits). by destruct digits.
Qed.

Lemma trimStart_white (white s : jsstring) :
  forallb isWhiteSpace white = true → trimStart (white ++ s) = trimStart s.
Proof.
  induction white as [|c white IH]; [done|]. simpl.
  intros [Hc Hw]%andb_true_iff. rewrite Hc. by apply IH.
Qed.

Lemma parseInt10_digits (white digits rest : jsstring) :
  forallb isWhiteSpace white = true →
  digits ≠ [] → forallb isDigit digits = true → digitNext rest = false →
  parseInt10 (white ++ digits ++ rest) = toNumber (decimal digits)
  ∧ parseInt10 (white ++ PLUS :: digits ++ rest) = toNumber (decimal digits)
  ∧ parseInt10 (white ++ MINUS :: digits ++ rest) = toNumber (- decimal digits).
Proof.
  intros Hwhite Hne Hdigits Hrest.
  pose proof (digitsValue_run digits rest None Hdigits Hrest) as Hrun.
  destruct digits as [|c digits]; [done|].
  simpl in Hdigits. apply andb_true_iff in Hdigits as [Hc _].
  destruct (digit_cases c Hc) as (Hw & Hminus & Hplus).
  unfold parseInt10. rewrite !trimStart_white by done.
  split; [|split].
  - change ((c :: digits) ++ rest) with (c :: (digits ++ rest)) in *.
    cbn [trimStart]. rewrite Hw, Hminus, Hplus, Hrun. done.
  - remember ((c :: digits) ++ rest) as s eqn:Hs.
    rewrite (trimStart_white white (PLUS :: s)) by done. simpl. by rewrite Hrun.
  - remember ((c :: digits) ++ rest) as s eqn:Hs.
    rewrite (trimStart_white white (MINUS :: s)) by done. simpl. by rewrite Hrun.
Qed.

Lemma toNumber_exact (z : Z) :
  (0 ≤ z < 2 ^ 53)%Z → toNumber z = Fin z ∧ toNumber (- z) = Fin (- z).
Proof.
  intros [H0 H53]. destruct z as [|p|p]; [done| |lia].
  assert (Hround : roundPos (Z.pos p) = Fin (Z.pos p)).
  { unfold roundPos.
    assert (Z.log2 (Z.pos p) < 53)%Z by (apply Z.log2_lt_pow2; lia).
    destruct (Z.leb_spec (Z.log2 (Z.pos p) - 52) 0); [done|lia]. }
  split; [exact Hround|]. change (- Z.pos p)%Z with (Z.neg p).
  unfold toNumber. change (- Z.neg p)%Z with (Z.pos p). by rewrite Hround.
Qed.

Lemma decimal_nonneg (digits : jsstring) : (0 ≤ decimal digits)%Z.
Proof.
  unfold decimal.
  assert (H : ∀ acc, (0 ≤ acc)%Z →
            (0 ≤ foldl (λ acc c, 10 * acc + Z.of_N (c - 48))%Z acc digits)%Z).
  { induction digits as [|c digits IH]; intros acc Hacc; [done|].
    simpl. apply IH. lia. }
  by apply H.
Qed.

(** The start and the end of a record are the leading digits of their
    columns.  When the fourth and the fifth column each begin,
    after white space, with a run of decimal digits, whatever follows the
    digits in the column is ignored: with a valid strand and attributes
    that decode, the line yields a feature whose start and end are the
    integers the two runs stand for (below 2^53, and start not above
    end). *)
Theorem coordinates_are_the_leading_digits (line : jsstring) (lineNumber : nat)
    (c1 c2 c3 c6 c7 c8 c9 : jsstring)
    (white4 digits4 rest4 white5 digits5 rest5 : jsstring)
    (attributes : gmap jsstring jsstring) :
  startsWith HASH (trim line) = false →
  split TAB (trim line)
  = [c1; c2; c3; white4 ++ digits4 ++ rest4; white5 ++ digits5 ++ rest5; c6; c7; c8; c9] →
  forallb isWhiteSpace white4 = true → forallb isWhiteSpace white5 = true →
  digits4 ≠ [] → digits5 ≠ [] →
  forallb isDigit digits4 = true → forallb isDigit digits5 = true →
  digitNext rest4 = false → digitNext rest5 = false →
  (decimal digits4 ≤ decimal digits5 < 2 ^ 53)%Z →
  validStrand c7 = true →
  parseAttributes c9 = Some attributes →
  ∃ f, parseGFF3Line line lineNumber = Return (Some f)
       ∧ start f = Fin (decimal digits4) ∧ end_ f = Fin (decimal digits5).
Proof.
  intros Hhash Hcols Hw4 Hw5 Hn4 Hn5 Hd4 Hd5 Hr4 Hr5 Horder Hstrand Hattrs.
  pose proof (decimal_nonneg digits4) as H0.
  rewrite (parseGFF3Line_nine_columns line lineNumber _ _ _ _ _ _ _ _ _ Hhash Hcols).
  destruct (parseInt10_digits white4 digits4 rest4 Hw4 Hn4 Hd4 Hr4) as [-> _].
  destruct (parseInt10_digits white5 digits5 rest5 Hw5 Hn5 Hd5 Hr5) as [-> _].
  destruct (toNumber_exact (decimal digits4)) as [-> _]; [lia|].
  destruct (toNumber_exact (decimal digits5)) as [-> _]; [lia|].
  simpl isNaN. simpl orb. cbv iota.
  assert (Hgt : num_gt (Fin (decimal digits4)) (Fin (decimal digits5)) = false).
  { unfold num_gt. simpl. lia. }
  rewrite Hgt, Hstrand, Hattrs. simpl. eauto.
Qed.

Lemma coordinates_are_the_leading_digits_witness :
  ∃ f, parseGFF3Line fractionLine 1 = Return (Some f)
       ∧ start f = Fin 3 ∧ end_ f = Fin 12.
Proof.
  apply (coordinates_are_the_leading_digits fractionLine 1
           (lit "chr1") (lit "RefSeq") (lit "gene") (lit ".") (lit "+") (lit ".")
           (lit "ID=gene001")
           [] (lit "3") (lit ".7") [] (lit "12") (lit "abc")
           {[ lit "ID" := lit "gene001" ]});
    try done; try (by vm_compute).
Defined.

End Coordinates.


(* ===================================================================== *)
(** * Extent, sequences, types and the filter by type                     *)
(* ===================================================================== *)

Section Summaries.
Import JS Gff3Parser GenomeBrowser Notions MoreNotions Samples Gff3Helpers AppShell.

Lemma num_le_trans (x y z : number) :
  num_le x y = true → num_le y z = true → num_le x z = true.
Proof. destruct x, y, z; simpl; try done; lia. Qed.

Lemma num_min_spec (x y : number) :
  isNaN x = false → isNaN y = false →
  isNaN (num_min x y) = false
  ∧ num_le (num_min x y) x = true ∧ num_le (num_min x y) y = true.
Proof.
  unfold num_min. destruct x, y; simpl; try done; intros _ _;
    try (repeat split; simpl; lia).
  destruct (z0 <? z)%Z eqn:H; simpl; repeat split; lia.
Qed.

Lemma num_max_spec (x y : number) :
  isNaN x = false → isNaN y = false →
  isNaN (num_max x y) = false
  ∧ num_le x (num_max x y) = true ∧ num_le y (num_max x y) = true.
Proof.
  unfold num_max. destruct x, y; simpl; try done; intros _ _;
    try (repeat split; simpl; lia).
  destruct (z <? z0)%Z eqn:H; simpl; repeat split; lia.
Qed.

Lemma fold_min_spec (features : list Feature) (m : number) :
  isNaN m = false → Forall (λ f, isNaN (start f) = false) features →
  let least := foldl (λ m f, num_min m (start f)) m features in
  isNaN least = false ∧ num_le least m = true
  ∧ ∀ f, f ∈ features → num_le least (start f) = true.
Proof.
  intros Hm Hall. revert m Hm.
  induction Hall as [|f features Hf _ IH]; intros m Hm; simpl.
  - repeat split; [done|destruct m; simpl in *; try done; lia|]. by intros f ?%elem_of_nil.
  - destruct (num_min_spec m (start f) Hm Hf) as (Hn & Hl & Hr).
    destruct (IH _ Hn) as (Hn' & Hle & Hin). repeat split; [done|..].
    + by eapply num_le_trans.
    + intros g [->|Hg]%elem_of_cons; [by eapply num_le_trans | auto].
Qed.

Lemma fold_max_spec (features : list Feature) (m : number) :
  isNaN m = false → Forall (λ f, isNaN (end_ f) = false) features →
  let most := foldl (λ m f, num_max m (end_ f)) m features in
  isNaN most = false ∧ num_le m most = true
  ∧ ∀ f, f ∈ features → num_le (end_ f) most = true.
Proof.
  intros Hm Hall. revert m Hm.
  induction Hall as [|f features Hf _ IH]; intros m Hm; simpl.
  - repeat split; [done|destruct m; simpl in *; try done; lia|]. by intros f ?%elem_of_nil.
  - destruct (num_max_spec m (end_ f) Hm Hf) as (Hn & Hl & Hr).
    destruct (IH _ Hn) as (Hn' & Hle & Hin). repeat split; [done|..].
    + by eapply num_le_trans.
    + intros g [->|Hg]%elem_of_cons; [by eapply num_le_trans | auto].
Qed.

(** The extent of a list of features whose coordinates are numbers:
    it spans every feature. *)
Lemma computeExtent_spans (features : list Feature) :
  Forall (λ f, isNaN (start f) = false) features →
  Forall (λ f, isNaN (end_ f) = false) features →
  ∀ f, f ∈ features →
    num_le (extentStart (computeExtent features)) (start f) = true
    ∧ num_le (end_ f) (extentEnd (computeExtent features)) = true.
Proof.
  intros Hs He f Hf. unfold computeExtent. simpl.
  destruct (fold_min_spec features PosInf eq_refl Hs) as (Hn1 & _ & Hmin).
  destruct (fold_max_spec features NegInf eq_refl He) as (Hn2 & _ & Hmax).
  specialize (Hmin f Hf). specialize (Hmax f Hf). cbv zeta in *.
  split.
  - destruct (foldl _ PosInf features); simpl in *; try done.
    by destruct (start f).
  - destruct (foldl _ NegInf features); simpl in *; try done.
    by destruct (end_ f).
Qed.

Lemma result_features_are_ordered (fileContent : jsstring) (r : ParseResult) :
  parseGFF3 fileContent = Return r →
  Forall (λ f, isNaN (start f) = false) (features r)
  ∧ Forall (λ f, isNaN (end_ f) = false) (features r)
  ∧ Forall (λ f, num_le (start f) (end_ f) = true) (features r).
Proof.
  intros (_ & Hf & _)%parseGFF3_returns. rewrite Hf. unfold parsedFeatures.
  assert (Hall : ∀ f, f ∈ omap featureOf (outcomes (splitLines fileContent) 0) →
            isNaN (start f) = false ∧ isNaN (end_ f) = false
            ∧ num_le (start f) (end_ f) = true).
  { intros f (o & (k & line & _ & ->)%outcomes_lookup & Ho)%list_elem_of_omap.
    unfold featureOf in Ho. simpl in Ho.
    destruct (parseGFF3Line line (k + 1)) as [[g|]|] eqn:Hline; try done.
    injection Ho as ->. apply parseGFF3Line_feature in Hline. tauto. }
  rewrite !Forall_forall. naive_solver.
Qed.

(** The extent of a result spans every feature of it: no feature
    starts before [extent.start] or ends after [extent.end], and the
    extent of a result without features is 0 to 0.  The start of the
    extent is never above its end. *)
Theorem extent_spans_every_feature (fileContent : jsstring) (r : ParseResult) :
  parseGFF3 fileContent = Return r →
  (∀ f, f ∈ features r →
     num_le (extentStart (extent r)) (start f) = true
     ∧ num_le (end_ f) (extentEnd (extent r)) = true)
  ∧ (features r = [] → extent r = {| extentStart := Fin 0; extentEnd := Fin 0 |})
  ∧ num_le (extentStart (extent r)) (extentEnd (extent r)) = true.
Proof.
  intros Hparse.
  destruct (result_features_are_ordered fileContent r Hparse) as (Hs & He & Hle).
  apply parseGFF3_returns in Hparse as (_ & _ & _ & _ & _ & _ & _ & _ & Hext & _).
  rewrite Hext.
  assert (Hspan := computeExtent_spans (features r) Hs He).
  split; [exact Hspan|]. split; [by intros ->|].
  destruct (features r) as [|f fs] eqn:Hfs; [done|].
  destruct (Hspan f) as [H1 H2]; [left|].
  rewrite Forall_forall in Hle. specialize (Hle f ltac:(left)).
  eauto using num_le_trans.
Qed.

Lemma extent_spans_every_feature_witness :
  ∃ r, parseGFF3 brca1File = Return r
       ∧ extent r = {| extentStart := Fin 1000; extentEnd := Fin 9000 |}
       ∧ num_le (extentStart (extent r)) (extentEnd (extent r)) = true.
Proof.
  destruct (parseGFF3 brca1File) as [r|] eqn:Hr; [|by vm_compute in Hr].
  destruct (extent_spans_every_feature brca1File r Hr) as (_ & _ & Hle).
  exists r. split; [done|]. split; [|done]. pose proof Hr as Hv. vm_compute in Hv. injection Hv as <-. by vm_compute.
Defined.

(** ** Sequences and types *)

Lemma distinct_spec (seen l : list jsstring) :
  NoDup (distinct seen l)
  ∧ ∀ x, x ∈ distinct seen l ↔ x ∈ l ∧ x ∉ seen.
Proof.
  revert seen. induction l as [|y l IH]; intros seen; simpl.
  - split; [constructor|]. intros x. split; [by intros ?%elem_of_nil|].
    by intros [?%elem_of_nil _].
  - case_bool_decide as Hy.
    + destruct (IH seen) as [Hnd Hin]. split; [done|].
      intros x. rewrite Hin, elem_of_cons. naive_solver.
    + destruct (IH (y :: seen)) as [Hnd Hin]. split.
      * constructor; [|done]. rewrite Hin, elem_of_cons. naive_solver.
      * intros x. rewrite elem_of_cons, Hin, !elem_of_cons.
        destruct (decide (x = y)) as [->|]; naive_solver.
Qed.

(** [sequences] and [featureTypes] of a result list, without
    repetition, the sequence names and the types that occur among its
    features, and nothing else. *)
Theorem sequences_and_types_are_those_of_the_features (fileContent : jsstring)
    (r : ParseResult) :
  parseGFF3 fileContent = Return r →
  NoDup (sequences r) ∧ NoDup (featureTypes r)
  ∧ (∀ s, s ∈ sequences r ↔ ∃ f, f ∈ features r ∧ seqid f = s)
  ∧ (∀ t, t ∈ featureTypes r ↔ ∃ f, f ∈ features r ∧ type_ f = t).
Proof.
  intros (_ & _ & _ & _ & _ & _ & _ & _ & _ & Hseq & Htypes & _)%parseGFF3_returns.
  rewrite Hseq, Htypes.
  destruct (distinct_spec [] (seqid <$> features r)) as [Hnd1 Hin1].
  destruct (distinct_spec [] (type_ <$> features r)) as [Hnd2 Hin2].
  repeat split; try done.
  - intros (Hs%list_elem_of_fmap & _)%Hin1. naive_solver.
  - intros (f & Hf & <-). apply Hin1. split; [|by intros ?%elem_of_nil].
    apply list_elem_of_fmap. eauto.
  - intros (Hs%list_elem_of_fmap & _)%Hin2. naive_solver.
  - intros (f & Hf & <-). apply Hin2. split; [|by intros ?%elem_of_nil].
    apply list_elem_of_fmap. eauto.
Qed.

Lemma sequences_and_types_are_those_of_the_features_witness :
  ∃ r, parseGFF3 brca1File = Return r
       ∧ featureTypes r = [lit "gene"; lit "mRNA"; lit "exon"]
       ∧ NoDup (featureTypes r).
Proof.
  destruct (parseGFF3 brca1File) as [r|] eqn:Hr; [|by vm_compute in Hr].
  destruct (sequences_and_types_are_those_of_the_features brca1File r Hr) as (_ & Hnd & _).
  exists r. split; [done|]. split; [|done]. pose proof Hr as Hv. vm_compute in Hv. injection Hv as <-. by vm_compute.
Defined.

(** ** filterByType *)

(** [filterByType] keeps, in their order, exactly the features whose
    type is the given type or is in the given array; one type and the
    array of that one type give the same.  Two filters commute, and a
    filter applied twice changes nothing more. *)
Theorem filterByType_keeps_the_listed_types (features : list Feature)
    (types others : TypesArgument) (type : jsstring) :
  (∀ f, f ∈ filterByType features types ↔ f ∈ features ∧ type_ f ∈ typeList types)
  ∧ filterByType features types `sublist_of` features
  ∧ filterByType features (OneType type) = filterByType features (TypeArray [type])
  ∧ filterByType (filterByType features types) others
    = filterByType (filterByType features others) types
  ∧ filterByType (filterByType features types) types = filterByType features types
  ∧ filterByType features (TypeArray []) = [].
Proof.
  unfold filterByType. split; [|split; [|split; [|split; [|split]]]].
  - intros f. by rewrite list_elem_of_filter, (comm and).
  - apply sublist_filter.
  - done.
  - rewrite !list_filter_filter. apply list_filter_iff. naive_solver.
  - rewrite list_filter_filter. apply list_filter_iff. naive_solver.
  - induction features as [|f features IH]; [done|].
    rewrite filter_cons_False; [done|]. simpl. by intros ?%elem_of_nil.
Qed.

(** The filter by all the types of a result keeps every feature of
    the result, and every feature of the result is kept by the filter by
    one of these types. *)
Theorem filter_by_result_types_keeps_all (fileContent : jsstring) (r : ParseResult) :
  parseGFF3 fileContent = Return r →
  filterByType (features r) (TypeArray (featureTypes r)) = features r
  ∧ (∀ f, f ∈ features r →
       ∃ t, t ∈ featureTypes r ∧ f ∈ filterByType (features r) (OneType t)).
Proof.
  intros (_ & _ & _ & _ & _ & _ & _ & _ & _ & _ & Htypes & _)%parseGFF3_returns.
  assert (Hin : ∀ f, f ∈ features r → type_ f ∈ featureTypes r).
  { intros f Hf. rewrite Htypes. apply distinct_spec.
    split; [|by intros ?%elem_of_nil]. apply list_elem_of_fmap. eauto. }
  split.
  - unfold filterByType. simpl. clear Htypes.
    induction (features r) as [|f fs IH]; [done|].
    rewrite filter_cons_True by (apply Hin; left).
    f_equal. apply IH. intros g Hg. apply Hin. by right.
  - intros f Hf. exists (type_ f). split; [by apply Hin|].
    unfold filterByType. apply list_elem_of_filter. split; [|done]. simpl. left.
Qed.

Lemma filter_by_result_types_keeps_all_witness :
  ∃ r, parseGFF3 brca1File = Return r
       ∧ filterByType (features r) (TypeArray (featureTypes r)) = features r.
Proof.
  destruct (parseGFF3 brca1File) as [r|] eqn:Hr; [|by vm_compute in Hr].
  exists r. split; [done|].
  apply (filter_by_result_types_keeps_all brca1File r Hr).
Defined.

End Summaries.

(* ===================================================================== *)
(** * Loading a file                                                      *)
(* ===================================================================== *)

Section Loading.
Import JS Gff3Parser GenomeBrowser Notions MoreNotions Samples MoreSamples Gff3Helpers AppShell.

Lemma totalFeatures_length (fileContent : jsstring) (r : ParseResult) :
  parseGFF3 fileContent = Return r → totalFeatures (stats r) = length (features r).
Proof.
  intros (_ & _ & _ & _ & _ & _ & _ & _ & _ & _ & _ & Hstats)%parseGFF3_returns.
  by rewrite Hstats.
Qed.


(** A file that is not empty and holds nothing but blank lines and
    comments is not an error for [parseGFF3], and [handleFileLoad]
    refuses it with the 'No features found' error. *)
Theorem file_of_comments_is_refused_by_the_loader (content name : jsstring)
    (st : AppState) :
  content ≠ [] →
  Forall (λ line, trim line = [] ∨ startsWith HASH (trim line) = true)
         (splitLines content) →
  (∃ r, parseGFF3 content = Return r ∧ features r = [] ∧ errors r = [])
  ∧ error (handleFileLoad content name st) = Some NoFeaturesFound
  ∧ browserData (handleFileLoad content name st) = None.
Proof.
  intros Hne Hall.
  assert (Hnone : ∀ i, omap featureOf (outcomes (splitLines content) i) = []
                       ∧ omap errorOf (outcomes (splitLines content) i) = []).
  { induction Hall as [|line rest Hline _ IH]; intros i; [done|]. simpl.
    assert (Hskip : parseGFF3Line line (i + 1) = Return None).
    { unfold parseGFF3Line. destruct Hline as [->| ->]; [done|].
      by destruct (trim line). }
    unfold featureOf at 1, errorOf at 1. simpl. rewrite Hskip. apply IH. }
  assert (Hparse : ∃ r, parseGFF3 content = Return r ∧ features r = [] ∧ errors r = []).
  { rewrite (parseGFF3_nonempty content Hne). cbv zeta.
    unfold parsedFeatures, failedLines.
    rewrite (proj1 (Hnone 0%nat)), (proj2 (Hnone 0%nat)). simpl. eauto. }
  split; [exact Hparse|]. destruct Hparse as (r & Hr & Hf & _).
  unfold browserData, handleFileLoad. rewrite Hr.
  rewrite (totalFeatures_length content r Hr), Hf. done.
Qed.

Lemma file_of_comments_is_refused_by_the_loader_witness :
  error (handleFileLoad commentsOnly (lit "notes.gff3") initialApp) = Some NoFeaturesFound.
Proof.
  apply (file_of_comments_is_refused_by_the_loader commentsOnly (lit "notes.gff3") initialApp).
  - by vm_compute.
  - repeat (apply Forall_cons; split; [vm_compute; auto|]). constructor.
Defined.

End Loading.

(* ===================================================================== *)
(** * The hierarchy, by the Parent attributes                             *)
(* ===================================================================== *)

Section HierarchyByParent.
Import JS Gff3Parser GenomeBrowser Notions MoreNotions Samples HierarchyNotions.

Lemma indexById_lookup (features : list Feature) (i : nat) (byId : gmap jsstring nat)
    (id : jsstring) (p : nat) :
  indexById features i byId !! id = Some p
  ↔ (∃ k f, p = (i + k)%nat ∧ features !! k = Some f ∧ attr "ID" f = Some id
            ∧ ∀ q g, (k < q)%nat → features !! q = Some g → attr "ID" g ≠ Some id)
    ∨ (byId !! id = Some p
       ∧ ∀ q g, features !! q = Some g → attr "ID" g ≠ Some id).
Proof.
  revert i byId. induction features as [|f features IH]; intros i byId; simpl.
  - split; [intros H; right; split; [done|]; by intros q g ?|].
    intros [(k & g & _ & Hk & _)|[H _]]; [by rewrite lookup_nil in Hk|done].
  - rewrite IH. clear IH. split.
    + intros [(k & g & -> & Hk & Hid & Hlast)|[Hm Hnone]].
      * left. exists (S k), g. split; [lia|]. split; [done|]. split; [done|].
        intros [|q] h Hq Hh; [lia|]. apply (Hlast q h); [lia|done].
      * destruct (attr "ID" f) as [fid|] eqn:Hfid.
        -- destruct (decide (fid = id)) as [->|Hne].
           ++ rewrite lookup_insert_eq in Hm. injection Hm as <-.
              left. exists 0%nat, f. split; [lia|]. split; [done|]. split; [done|].
              intros [|q] h Hq Hh; [lia|]. by apply (Hnone q h).
           ++ rewrite lookup_insert_ne in Hm by done. right. split; [done|].
              intros [|q] h Hh; [|by apply (Hnone q h)].
              injection Hh as <-. rewrite Hfid. congruence.
        -- right. split; [done|].
           intros [|q] h Hh; [|by apply (Hnone q h)].
           injection Hh as <-. by rewrite Hfid.
    + intros [(k & g & -> & Hk & Hid & Hlast)|[Hm Hnone]].
      * destruct k as [|k]; simpl in Hk.
        -- injection Hk as ->. right. rewrite Hid, Nat.add_0_r, lookup_insert_eq.
           split; [done|]. intros q h Hh. apply (Hlast (S q) h); [lia|done].
        -- left. exists k, g. split; [lia|]. split; [done|]. split; [done|].
           intros q h Hq Hh. apply (Hlast (S q) h); [lia|done].
      * right. split.
        -- destruct (attr "ID" f) as [fid|] eqn:Hfid; [|done].
           rewrite lookup_insert_ne; [done|].
           intros ->. by apply (Hnone 0%nat f).
        -- intros q h Hh. by apply (Hnone (S q) h).
Qed.

(** The index [featureById] of the first pass.  An identifier is in
    the index when some feature carries it as a non-empty [ID], and it
    then stands for the last such feature of the array: of two features
    with the same [ID], the later one is the one found. *)
Theorem index_holds_the_last_feature_of_an_id (features : list Feature)
    (id : jsstring) (p : nat) :
  featureById (buildHierarchy features) !! id = Some p
  ↔ ∃ f, features !! p = Some f ∧ attr "ID" f = Some id
         ∧ ∀ q g, (p < q)%nat → features !! q = Some g → attr "ID" g ≠ Some id.
Proof.
  unfold buildHierarchy. simpl. rewrite indexById_lookup. split.
  - intros [(k & f & -> & H)|[H _]]; [eauto|by rewrite lookup_empty in H].
  - intros (f & H). left. exists p, f. eauto.
Qed.

Lemma linkStep_by_parent (byId : gmap jsstring nat) (i : nat) (f : Feature)
    (st : LinkState) :
  links (linkStep byId i f st)
  = match parentOf byId f with
    | Some p => linkChild i p (links st)
    | None => links st
    end
  ∧ rootFeatures (linkStep byId i f st)
    = match parentOf byId f with
      | Some p => rootFeatures st
      | None => rootFeatures st ++ [i]
      end.
Proof.
  unfold linkStep, parentOf. destruct (attr "Parent" f) as [pid|]; simpl; [|done].
  by destruct (byId !! pid).
Qed.

Lemma linkAll_roots (byId : gmap jsstring nat) (features : list Feature) (i : nat)
    (st : LinkState) :
  rootFeatures (linkAll byId features i st)
  = rootFeatures st
    ++ positionsWhere (λ f, bool_decide (parentOf byId f = None)) features i.
Proof.
  revert i st. induction features as [|f features IH]; intros i st; simpl.
  - by rewrite app_nil_r.
  - rewrite IH. destruct (linkStep_by_parent byId i f st) as [_ ->].
    destruct (parentOf byId f); simpl; [done|]. by rewrite <- app_assoc.
Qed.

Lemma linkAll_children (byId : gmap jsstring nat) (features : list Feature) (i : nat)
    (st : LinkState) (p : nat) :
  childLists (links (linkAll byId features i st)) !! p
  = (λ cs, cs ++ positionsWhere (λ f, bool_decide (parentOf byId f = Some p)) features i)
      <$> childLists (links st) !! p.
Proof.
  revert i st. induction features as [|f features IH]; intros i st; simpl.
  - destruct (childLists (links st) !! p); simpl; [|done]. by rewrite app_nil_r.
  - rewrite IH. destruct (linkStep_by_parent byId i f st) as [-> _].
    destruct (parentOf byId f) as [q|]; simpl.
    + destruct (decide (q = p)) as [->|Hne].
      * rewrite list_lookup_alter_eq, bool_decide_true by done.
        destruct (childLists (links st) !! p); simpl; [|done].
        by rewrite <- app_assoc.
      * rewrite list_lookup_alter_ne, bool_decide_false by congruence. done.
    + done.
Qed.

Lemma linkAll_parents (byId : gmap jsstring nat) (features : list Feature) (i : nat)
    (st : LinkState) (j : nat) :
  (i + length features ≤ length (parents (links st)))%nat →
  length (parents (links (linkAll byId features i st))) = length (parents (links st))
  ∧ parents (links (linkAll byId features i st)) !! j
    = match features !! (j - i)%nat with
      | Some f =>
          if bool_decide (i ≤ j)%nat then
            match parentOf byId f with
            | Some p => Some (Some p)
            | None => parents (links st) !! j
            end
          else parents (links st) !! j
      | None => parents (links st) !! j
      end.
Proof.
  revert i st. induction features as [|f features IH]; intros i st Hlen; simpl in *.
  - split; [done|]. by destruct (j - i)%nat.
  - destruct (linkStep_by_parent byId i f st) as [Hlinks _].
    assert (Hsame : length (parents (links (linkStep byId i f st)))
                    = length (parents (links st))).
    { rewrite Hlinks. destruct (parentOf byId f); [|done]. simpl. apply length_insert. }
    destruct (IH (S i) (linkStep byId i f st)) as [-> ->]; [lia|]. split; [done|].
    destruct (decide (j < i)%nat) as [Hlt|Hge].
    + rewrite (bool_decide_false (i ≤ j)%nat), (bool_decide_false (S i ≤ j)%nat) by lia.
      assert (parents (links (linkStep byId i f st)) !! j = parents (links st) !! j) as ->.
      { rewrite Hlinks. destruct (parentOf byId f); [|done]. simpl.
        apply list_lookup_insert_ne. lia. }
      replace (j - i)%nat with 0%nat by lia. simpl.
      by destruct (features !! (j - S i)%nat).
    + destruct (decide (j = i)) as [->|Hne].
      * replace (i - S i)%nat with 0%nat by lia. rewrite Nat.sub_diag. simpl.
        rewrite (bool_decide_true (i ≤ i)%nat), (bool_decide_false (S i ≤ i)%nat) by lia.
        assert (parents (links (linkStep byId i f st)) !! i
                = match parentOf byId f with
                  | Some p => Some (Some p)
                  | None => parents (links st) !! i
                  end) as ->.
        { rewrite Hlinks. destruct (parentOf byId f); [|done]. simpl.
          apply list_lookup_insert_eq. lia. }
        by destruct (features !! 0%nat).
      * replace (j - i)%nat with (S (j - S i)) by lia. simpl.
        rewrite (bool_decide_true (i ≤ j)%nat), (bool_decide_true (S i ≤ j)%nat) by lia.
        assert (parents (links (linkStep byId i f st)) !! j = parents (links st) !! j) as ->.
        { rewrite Hlinks. destruct (parentOf byId f); [|done]. simpl.
          apply list_lookup_insert_ne. lia. }
        done.
Qed.

Lemma hierarchy_parents (features : list Feature) :
  parents (links (hierarchyState (buildHierarchy features)))
  = parentOf (featureById (buildHierarchy features)) <$> features.
Proof.
  unfold buildHierarchy. simpl.
  set (byId := indexById features 0 ∅).
  set (st0 := {| links := freshLinks (length features); rootFeatures := []; console := [] |}).
  apply list_eq. intros j.
  destruct (linkAll_parents byId features 0 st0 j) as [_ ->];
    [simpl; by rewrite length_replicate|].
  rewrite Nat.sub_0_r, list_lookup_fmap, (bool_decide_true (0 ≤ j)%nat) by lia.
  destruct (features !! j) as [f|] eqn:Hf; simpl.
  - destruct (parentOf byId f); [done|].
    apply lookup_replicate_2. by apply lookup_lt_Some in Hf.
  - apply lookup_ge_None. rewrite length_replicate. by apply lookup_ge_None.
Qed.

Lemma hierarchy_roots (features : list Feature) :
  rootFeatures (hierarchyState (buildHierarchy features))
  = positionsWhere
      (λ f, bool_decide (parentOf (featureById (buildHierarchy features)) f = None))
      features 0.
Proof. unfold buildHierarchy. simpl. by rewrite linkAll_roots. Qed.

Lemma hierarchy_childLists_length (features : list Feature) :
  length (childLists (links (hierarchyState (buildHierarchy features)))) = length features.
Proof.
  unfold buildHierarchy. simpl.
  assert (Hlen : ∀ byId fs i s, length (childLists (links (linkAll byId fs i s)))
                                = length (childLists (links s))).
  { intros byId. induction fs as [|f fs IH]; intros i s; simpl; [done|].
    by rewrite IH, linkStep_childLists_length. }
  rewrite Hlen. simpl. apply length_replicate.
Qed.

Lemma hierarchy_children (features : list Feature) (p : nat) :
  (p < length features)%nat →
  childLists (links (hierarchyState (buildHierarchy features))) !! p
  = Some (positionsWhere
            (λ f, bool_decide (parentOf (featureById (buildHierarchy features)) f = Some p))
            features 0).
Proof.
  intros Hp. unfold buildHierarchy. simpl. rewrite linkAll_children. simpl.
  by rewrite lookup_replicate_2.
Qed.

(** What the second pass of [buildHierarchy] leaves, read off the
    Parent attributes.  The [parent] of a feature is the feature its
    Parent attribute resolves to in the index, and none when the
    attribute is missing, empty or unknown to the index.  The roots are
    the features without such a parent, and the [children] of a feature
    are the features whose Parent resolves to it, both in the order of
    the array. *)
Theorem links_follow_the_parent_attributes (features : list Feature) :
  let h := buildHierarchy features in
  let st := hierarchyState h in
  parents (links st) = parentOf (featureById h) <$> features
  ∧ rootFeatures st
    = positionsWhere (λ f, bool_decide (parentOf (featureById h) f = None)) features 0
  ∧ length (childLists (links st)) = length features
  ∧ ∀ p, (p < length features)%nat →
      childLists (links st) !! p
      = Some (positionsWhere (λ f, bool_decide (parentOf (featureById h) f = Some p))
                features 0).
Proof.
  intros h st.
  split; [apply hierarchy_parents|]. split; [apply hierarchy_roots|].
  split; [apply hierarchy_childLists_length|]. apply hierarchy_children.
Qed.

Lemma positionsWhere_sorted (test : Feature → bool) (features : list Feature) (i : nat) :
  StronglySorted lt (positionsWhere test features i)
  ∧ ∀ j, j ∈ positionsWhere test features i → (i ≤ j < i + length features)%nat.
Proof.
  revert i. induction features as [|f features IH]; intros i; simpl.
  - split; [constructor|]. by intros j ?%elem_of_nil.
  - destruct (IH (S i)) as [Hsorted Hrange]. destruct (test f).
    + split.
      * constructor; [done|]. apply Forall_forall. intros j Hj%Hrange. lia.
      * intros j [->|Hj%Hrange]%elem_of_cons; lia.
    + split; [done|]. intros j Hj%Hrange. lia.
Qed.

Lemma StronglySorted_lt_NoDup (l : list nat) : StronglySorted lt l → NoDup l.
Proof.
  induction 1 as [|x l _ IH Hall]; constructor; [|done].
  intros Hx. rewrite Forall_forall in Hall. specialize (Hall x Hx). lia.
Qed.

Lemma hierarchy_children_sorted (features : list Feature) :
  Forall (StronglySorted lt)
         (childLists (links (hierarchyState (buildHierarchy features)))).
Proof.
  apply Forall_lookup. intros p cs Hp.
  assert (Hlt : (p < length features)%nat).
  { rewrite <- (hierarchy_childLists_length features). by apply lookup_lt_Some in Hp. }
  rewrite (hierarchy_children features p Hlt) in Hp.
  injection Hp as <-. apply positionsWhere_sorted.
Qed.

(** The roots and every [children] array are in file order: the
    positions go up strictly along each of them, so none of them holds a
    feature twice, and a feature with a parent comes after every child
    its parent had before it. *)
Theorem roots_and_children_are_in_file_order (features : list Feature) :
  let st := hierarchyState (buildHierarchy features) in
  StronglySorted lt (rootFeatures st)
  ∧ Forall (StronglySorted lt) (childLists (links st))
  ∧ NoDup (rootFeatures st)
  ∧ Forall NoDup (childLists (links st)).
Proof.
  intros st.
  assert (Hroots : StronglySorted lt (rootFeatures st)).
  { unfold st. rewrite hierarchy_roots. apply positionsWhere_sorted. }
  pose proof (hierarchy_children_sorted features) as Hchildren. fold st in Hchildren.
  split; [done|]. split; [done|]. split; [by apply StronglySorted_lt_NoDup|].
  eapply Forall_impl; [exact Hchildren|]. apply StronglySorted_lt_NoDup.
Qed.

End HierarchyByParent.

(* ===================================================================== *)
(** * Walking the hierarchy                                               *)
(* ===================================================================== *)

Section Walks.
Import JS Gff3Parser GenomeBrowser Notions MoreNotions Samples HierarchyNotions Gff3Helpers.

Lemma positionsWhere_elem (test : Feature → bool) (features : list Feature) (i j : nat) :
  j ∈ positionsWhere test features i
  ↔ (i ≤ j)%nat ∧ ∃ f, features !! (j - i)%nat = Some f ∧ test f = true.
Proof.
  revert i. induction features as [|f features IH]; intros i; simpl.
  - split; [by intros ?%elem_of_nil|]. intros (_ & g & Hg & _). by destruct (j - i)%nat.
  - assert (Hrest : j ∈ positionsWhere test features (S i)
                    ↔ (i < j)%nat ∧ ∃ g, (f :: features) !! (j - i)%nat = Some g
                                         ∧ test g = true).
    { rewrite IH. split.
      - intros (Hj & g & Hg & Ht). split; [lia|]. exists g.
        replace (j - i)%nat with (S (j - S i)) by lia. done.
      - intros (Hj & g & Hg & Ht). split; [lia|]. exists g.
        replace (j - i)%nat with (S (j - S i)) in Hg by lia. done. }
    destruct (test f) eqn:Htest.
    + rewrite elem_of_cons, Hrest. split.
      * intros [->|[Hj H]]; [|split; [lia|done]].
        split; [lia|]. exists f. by rewrite Nat.sub_diag.
      * intros (Hj & g & Hg & Ht). destruct (decide (j = i)) as [->|]; [by left|].
        right. split; [lia|]. eauto.
    + rewrite Hrest. split; [intros [Hj H]; split; [lia|done]|].
      intros (Hj & g & Hg & Ht). destruct (decide (j = i)) as [->|]; [|split; [lia|eauto]].
      rewrite Nat.sub_diag in Hg. simpl in Hg. injection Hg as <-. congruence.
Qed.

Lemma parentOf_range (features : list Feature) (f : Feature) (p : nat) :
  parentOf (featureById (buildHierarchy features)) f = Some p → (p < length features)%nat.
Proof.
  unfold parentOf, buildHierarchy. simpl.
  destruct (attr "Parent" f) as [pid|]; simpl; [|done].
  intros [H|H]%indexById_range; [by rewrite lookup_empty in H|lia].
Qed.

(** A feature is in the [children] array of [p] exactly when its
    [parent] is [p], and among the roots exactly when it has none. *)
Lemma child_iff_parent (features : list Feature) (p c : nat) :
  (∃ cs, childLists (links (hierarchyState (buildHierarchy features))) !! p = Some cs
         ∧ c ∈ cs)
  ↔ parents (links (hierarchyState (buildHierarchy features))) !! c = Some (Some p).
Proof.
  rewrite hierarchy_parents, list_lookup_fmap. split.
  - intros (cs & Hcs & Hc).
    assert (Hp : (p < length features)%nat).
    { rewrite <- (hierarchy_childLists_length features). by apply lookup_lt_Some in Hcs. }
    rewrite (hierarchy_children features p Hp) in Hcs. injection Hcs as <-.
    apply positionsWhere_elem in Hc as (_ & f & Hf & Ht).
    rewrite Nat.sub_0_r in Hf. rewrite Hf. simpl.
    apply bool_decide_eq_true in Ht. by rewrite Ht.
  - destruct (features !! c) as [f|] eqn:Hf; simpl; [|done].
    intros [= Hpar]. pose proof (parentOf_range features f p Hpar) as Hp.
    eexists. split; [by apply hierarchy_children|].
    apply positionsWhere_elem. split; [lia|]. exists f.
    rewrite Nat.sub_0_r. split; [done|]. by apply bool_decide_eq_true.
Qed.

Lemma root_iff_no_parent (features : list Feature) (r : nat) :
  r ∈ rootFeatures (hierarchyState (buildHierarchy features))
  ↔ parents (links (hierarchyState (buildHierarchy features))) !! r = Some None.
Proof.
  rewrite hierarchy_parents, hierarchy_roots, list_lookup_fmap, positionsWhere_elem.
  rewrite Nat.sub_0_r. split.
  - intros (_ & f & -> & Ht). apply bool_decide_eq_true in Ht. simpl. f_equal. exact Ht.
  - destruct (features !! r) as [f|]; simpl; [|done]. intros [= Hpar].
    split; [lia|]. exists f. split; [done|]. by apply bool_decide_eq_true.
Qed.

(** ** Parent chains *)

Lemma ancestor_add (parents : list (option nat)) (a b i : nat) :
  ancestor parents (a + b) i = ancestor parents a i ≫= ancestor parents b.
Proof.
  revert i. induction a as [|a IH]; intros i; simpl; [done|].
  destruct (parents !! i) as [[p|]|]; auto.
Qed.

Lemma ancestor_None_le (parents : list (option nat)) (a b i : nat) :
  (a ≤ b)%nat → ancestor parents a i = None → ancestor parents b i = None.
Proof.
  intros Hab Ha. replace b with (a + (b - a))%nat by lia.
  by rewrite ancestor_add, Ha.
Qed.

Lemma ancestor_last (parents : list (option nat)) (k j i : nat) :
  ancestor parents (S k) j = Some i
  ↔ ∃ c, ancestor parents k j = Some c ∧ parents !! c = Some (Some i).
Proof.
  replace (S k) with (k + 1)%nat by lia. rewrite ancestor_add.
  destruct (ancestor parents k j) as [c|]; simpl.
  - split.
    + intros H. exists c. split; [done|].
      destruct (parents !! c) as [[p|]|]; congruence.
    + intros (c' & [= <-] & ->). done.
  - split; [done|]. by intros (c & ? & _).
Qed.

Lemma ancestor_in_range (parents : list (option nat)) (d k i r : nat) :
  ancestor parents d i = Some r → parents !! r = Some None → (k ≤ d)%nat →
  ∃ x, ancestor parents k i = Some x ∧ (x < length parents)%nat.
Proof.
  intros Hd Hr Hk.
  destruct (ancestor parents k i) as [x|] eqn:Hx;
    [|by rewrite (ancestor_None_le parents k d i Hk Hx) in Hd].
  exists x. split; [done|].
  destruct (decide (k = d)) as [->|Hne].
  - rewrite Hd in Hx. injection Hx as <-. by apply lookup_lt_Some in Hr.
  - destruct (parents !! x) as [v|] eqn:Hv; [by apply lookup_lt_Some in Hv|].
    assert (ancestor parents (S k) i = None).
    { replace (S k) with (k + 1)%nat by lia. rewrite ancestor_add, Hx. simpl.
      by rewrite Hv. }
    rewrite (ancestor_None_le parents (S k) d i) in Hd; [done|lia|done].
Qed.

Lemma ancestor_chain_injective (parents : list (option nat)) (d j k i r x : nat) :
  ancestor parents d i = Some r → parents !! r = Some None →
  (j < k ≤ d)%nat →
  ancestor parents j i = Some x → ancestor parents k i = Some x → False.
Proof.
  intros Hd Hr Hjk Hj Hk.
  assert (Hm : ancestor parents (j + (d - k)) i = Some r).
  { rewrite ancestor_add, Hj. simpl.
    replace d with (k + (d - k))%nat in Hd by lia.
    by rewrite ancestor_add, Hk in Hd. }
  assert (Hnext : ancestor parents (S (j + (d - k))) i = None).
  { replace (S (j + (d - k))) with ((j + (d - k)) + 1)%nat by lia.
    rewrite ancestor_add, Hm. simpl. by rewrite Hr. }
  rewrite (ancestor_None_le parents (S (j + (d - k))) d i) in Hd; [done|lia|done].
Qed.

(** A feature whose parent chain ends at a root after [d] steps: the
    chain visits [d + 1] different features, so [d] is below the number
    of features. *)
Lemma root_distance_bound (parents : list (option nat)) (d i r : nat) :
  ancestor parents d i = Some r → parents !! r = Some None →
  (d < length parents)%nat.
Proof.
  intros Hd Hr.
  set (at_ := λ k, default 0%nat (ancestor parents k i)).
  assert (Hnodup : NoDup (at_ <$> seq 0 (S d))).
  { apply NoDup_fmap_2_strong; [|apply NoDup_seq].
    intros j k [_ Hj]%elem_of_seq [_ Hk]%elem_of_seq Heq.
    destruct (ancestor_in_range parents d j i r Hd Hr) as (x & Hx & _); [lia|].
    destruct (ancestor_in_range parents d k i r Hd Hr) as (y & Hy & _); [lia|].
    unfold at_ in Heq. rewrite Hx, Hy in Heq. simpl in Heq. subst y.
    destruct (Nat.lt_total j k) as [Hlt|[->|Hgt]]; [|done|].
    - destruct (ancestor_chain_injective parents d j k i r x); auto; lia.
    - destruct (ancestor_chain_injective parents d k j i r x); auto; lia. }
  assert (Hsub : at_ <$> seq 0 (S d) ⊆+ seq 0 (length parents)).
  { apply NoDup_submseteq; [done|].
    intros x (k & -> & [_ Hk]%elem_of_seq)%list_elem_of_fmap.
    destruct (ancestor_in_range parents d k i r Hd Hr) as (y & Hy & Hlt); [lia|].
    unfold at_. rewrite Hy. simpl. apply elem_of_seq. lia. }
  apply submseteq_length in Hsub. rewrite length_fmap, !length_seq in Hsub. lia.
Qed.

(** ** getDescendants on linked features

    [parents] and [childLists] are any two tables that agree: a feature
    is in the [children] array of [p] exactly when its [parent] is [p],
    and no array holds a feature twice. *)
Section Descendants.
Variable parents : list (option nat).
Variable childLists : list (list nat).
Hypothesis agree : ∀ p c,
  (∃ cs, childLists !! p = Some cs ∧ c ∈ cs) ↔ parents !! c = Some (Some p).
Hypothesis once : Forall NoDup childLists.

Lemma traverse_step (depth i : nat) (l : list nat) :
  traverse childLists (S depth) i = Some l
  ↔ ∃ below found,
      childLists !! i = Some below
      ∧ Forall2 (λ c y, ∃ lc, traverse childLists depth c = Some lc ∧ y = c :: lc)
                below found
      ∧ l = concat found.
Proof.
  simpl. destruct (childLists !! i) as [below|]; simpl;
    [|split; [done|by intros (? & ? & ? & _)]].
  split.
  - destruct (mapM _ below) as [found|] eqn:Hfound; simpl; [|done].
    intros [= <-]. exists below, found. split; [done|]. split; [|done].
    apply mapM_Some_1 in Hfound. eapply Forall2_impl; [exact Hfound|].
    intros c y Hy. simpl in Hy.
    destruct (traverse childLists depth c) as [lc|]; simpl in Hy; [|done].
    injection Hy as <-. eauto.
  - intros (below' & found & [= <-] & Hall & ->).
    assert (Hfound : mapM (λ c, (c ::.) <$> traverse childLists depth c) below
                     = Some found).
    { apply mapM_Some_2. eapply Forall2_impl; [exact Hall|].
      intros c y (lc & -> & ->). done. }
    by rewrite Hfound.
Qed.

Lemma found_elem (depth : nat) (below : list nat) (found : list (list nat)) (j : nat) :
  Forall2 (λ c y, ∃ lc, traverse childLists depth c = Some lc ∧ y = c :: lc) below found →
  j ∈ concat found
  ↔ ∃ c lc, c ∈ below ∧ traverse childLists depth c = Some lc ∧ (j = c ∨ j ∈ lc).
Proof.
  induction 1 as [|c y below found (lc & Hlc & ->) _ IH]; simpl.
  - split; [by intros ?%elem_of_nil|]. by intros (c & lc & ?%elem_of_nil & _).
  - rewrite elem_of_cons, elem_of_app, IH. split.
    + intros [->|[Hj|(c' & lc' & Hc' & Hlc' & Hj)]].
      * exists c, lc. split; [left|]. auto.
      * exists c, lc. split; [left|]. auto.
      * exists c', lc'. split; [by right|]. auto.
    + intros (c' & lc' & [->|Hc']%elem_of_cons & Hlc' & Hj).
      * rewrite Hlc in Hlc'. injection Hlc' as <-. tauto.
      * right. right. eauto.
Qed.

Lemma traverse_members (depth i : nat) (l : list nat) :
  traverse childLists depth i = Some l →
  ∀ j, j ∈ l ↔ ∃ k, ancestor parents (S k) j = Some i.
Proof.
  revert i l. induction depth as [|depth IH]; intros i l; [done|].
  intros (below & found & Hbelow & Hall & ->)%traverse_step j.
  rewrite (found_elem depth below found j Hall). split.
  - intros (c & lc & Hc & Hlc & Hj).
    assert (Hpar : parents !! c = Some (Some i)) by (apply agree; eauto).
    destruct Hj as [->|Hj].
    + exists 0%nat. simpl. by rewrite Hpar.
    + apply (IH c lc Hlc) in Hj as (k & Hk). exists (S k).
      apply ancestor_last. eauto.
  - intros (k & (c & Hc & Hpar)%ancestor_last).
    apply agree in Hpar as (below' & Hbelow' & Hin).
    rewrite Hbelow in Hbelow'. injection Hbelow' as <-.
    apply list_elem_of_lookup in Hin as (m & Hm).
    destruct (Forall2_lookup_l _ _ _ _ _ Hall Hm) as (y & _ & lc & Hlc & _).
    exists c, lc. split; [by eapply list_elem_of_lookup_2|]. split; [done|].
    destruct k as [|k]; simpl in Hc.
    + left. congruence.
    + right. apply (IH c lc Hlc). eauto.
Qed.

Lemma traverse_cycle (k i : nat) :
  ancestor parents (S k) i = Some i → ∀ depth, traverse childLists depth i = None.
Proof.
  intros Hcycle depth. revert i Hcycle.
  induction depth as [|depth IH]; intros i Hcycle; [done|].
  destruct (traverse childLists (S depth) i) as [l|] eqn:Hl; [|done].
  apply traverse_step in Hl as (below & found & Hbelow & Hall & _).
  pose proof Hcycle as (c & Hc & Hpar)%ancestor_last.
  pose proof Hpar as (below' & Hbelow' & Hin)%agree.
  rewrite Hbelow in Hbelow'. injection Hbelow' as <-.
  apply list_elem_of_lookup in Hin as (m & Hm).
  destruct (Forall2_lookup_l _ _ _ _ _ Hall Hm) as (y & _ & lc & Hlc & _).
  rewrite (IH c) in Hlc; [done|]. simpl. by rewrite Hpar.
Qed.

Lemma traverse_not_self (depth i : nat) (l : list nat) :
  traverse childLists depth i = Some l → i ∉ l.
Proof.
  intros Hl Hi. apply (traverse_members depth i l Hl) in Hi as (k & Hk).
  by rewrite (traverse_cycle k i Hk depth) in Hl.
Qed.

Lemma found_NoDup (depth i : nat) (below : list nat) (found : list (list nat)) :
  (∀ c lc, traverse childLists depth c = Some lc → NoDup lc) →
  (∀ k, ancestor parents (S k) i ≠ Some i) →
  (∀ c, c ∈ below → parents !! c = Some (Some i)) →
  NoDup below →
  Forall2 (λ c y, ∃ lc, traverse childLists depth c = Some lc ∧ y = c :: lc) below found →
  NoDup (concat found).
Proof.
  intros IH Hacyclic Hpar Hnd Hall. revert Hpar Hnd.
  induction Hall as [|c y below found (lc & Hlc & ->) Hall IHall];
    intros Hpar Hnd; simpl; [constructor|].
  apply NoDup_cons in Hnd as [Hc Hnd].
  assert (Hrest : NoDup (concat found)).
  { apply IHall; [|done]. intros c' Hc'. apply Hpar. by right. }
  assert (Hapart : ∀ j, (j = c ∨ j ∈ lc) → j ∉ concat found).
  { intros j Hj (c' & lc' & Hc' & Hlc' & Hj')%(found_elem depth below found j Hall).
    assert (Hne : c ≠ c') by (by intros ->).
    assert (Hpc : parents !! c = Some (Some i)) by (apply Hpar; left).
    assert (Hpc' : parents !! c' = Some (Some i)) by (apply Hpar; by right).
    assert (Hup : ∃ a, ancestor parents a j = Some c).
    { destruct Hj as [->|Hj]; [by exists 0%nat|].
      apply (traverse_members depth c lc Hlc) in Hj as (a & Ha). eauto. }
    assert (Hup' : ∃ a, ancestor parents a j = Some c').
    { destruct Hj' as [->|Hj']; [by exists 0%nat|].
      apply (traverse_members depth c' lc' Hlc') in Hj' as (a & Ha). eauto. }
    destruct Hup as (a & Ha), Hup' as (a' & Ha').
    assert (Hcross : ∀ x y ax ay, x ≠ y →
              parents !! x = Some (Some i) → parents !! y = Some (Some i) →
              ancestor parents ax j = Some x → ancestor parents ay j = Some y →
              (ax ≤ ay)%nat → False).
    { intros x y ax ay Hxy Hx Hy Hax Hay Hle.
      replace ay with (ax + (ay - ax))%nat in Hay by lia.
      rewrite ancestor_add, Hax in Hay. simpl in Hay.
      destruct (ay - ax)%nat as [|m]; simpl in Hay; [congruence|].
      rewrite Hx in Hay.
      apply (Hacyclic m). apply ancestor_last. eauto. }
    destruct (Nat.le_ge_cases a a'); [eapply (Hcross c c'); eauto|].
    eapply (Hcross c' c); eauto. }
  constructor.
  - intros [Hself|Hother]%elem_of_app.
    + by apply (traverse_not_self depth c lc Hlc).
    + apply (Hapart c); auto.
  - apply NoDup_app. split; [by eapply IH|]. split; [|done].
    intros j Hj. apply Hapart. by right.
Qed.

Lemma traverse_NoDup (depth i : nat) (l : list nat) :
  traverse childLists depth i = Some l → NoDup l.
Proof.
  revert i l. induction depth as [|depth IH]; intros i l Hl; [done|].
  pose proof Hl as (below & found & Hbelow & Hall & ->)%traverse_step.
  apply (found_NoDup depth i below found); auto.
  - intros k Hk. by rewrite (traverse_cycle k i Hk (S depth)) in Hl.
  - intros c Hc. apply agree. eauto.
  - rewrite Forall_lookup in once. by eapply once.
Qed.

(** A feature whose parent chain ends at a feature without parent
    after [d] steps is walked within [length parents - d] nested
    calls. *)
Lemma traverse_total (depth i d r : nat) :
  length childLists = length parents →
  ancestor parents d i = Some r → parents !! r = Some None →
  (length parents ≤ d + depth)%nat →
  is_Some (traverse childLists depth i).
Proof.
  intros Hlen. revert i d. induction depth as [|depth IH]; intros i d Hd Hr Hfuel.
  - pose proof (root_distance_bound parents d i r Hd Hr). lia.
  - destruct (ancestor_in_range parents d 0 i r Hd Hr) as (x & [= <-] & Hi); [lia|].
    simpl. destruct (lookup_lt_is_Some_2 childLists i) as [below Hbelow]; [lia|].
    rewrite Hbelow. simpl.
    assert (Hall : is_Some (mapM (λ c, (c ::.) <$> traverse childLists depth c) below)).
    { apply mapM_is_Some_2, Forall_forall. intros c Hc. unfold compose.
      assert (Hpar : parents !! c = Some (Some i)) by (apply agree; eauto).
      destruct (IH c (S d)) as [lc Hlc]; [simpl; by rewrite Hpar|done|lia|].
      rewrite Hlc. by eexists. }
    destruct Hall as [found ->]. by eexists.
Qed.

Lemma subtree_total (features : list Feature) (depth i d r : nat) :
  length childLists = length parents → length features = length parents →
  ancestor parents d i = Some r → parents !! r = Some None →
  (length parents ≤ d + depth)%nat →
  is_Some (subtree features childLists depth i).
Proof.
  intros Hlen Hfs. revert i d. induction depth as [|depth IH]; intros i d Hd Hr Hfuel.
  - pose proof (root_distance_bound parents d i r Hd Hr). lia.
  - destruct (ancestor_in_range parents d 0 i r Hd Hr) as (x & [= <-] & Hi); [lia|].
    simpl. destruct (lookup_lt_is_Some_2 childLists i) as [below Hbelow]; [lia|].
    destruct (lookup_lt_is_Some_2 features i) as [f Hf]; [lia|].
    rewrite Hbelow, Hf. simpl.
    assert (Hall : is_Some (mapM (subtree features childLists depth) below)).
    { apply mapM_is_Some_2, Forall_forall. intros c Hc. unfold compose.
      assert (Hpar : parents !! c = Some (Some i)) by (apply agree; eauto).
      apply (IH c (S d)); [simpl; by rewrite Hpar|done|lia]. }
    destruct Hall as [found ->]. by eexists.
Qed.

End Descendants.

(** ** The tables of a parse result *)

Lemma result_tables (fileContent : jsstring) (r : ParseResult) :
  parseGFF3 fileContent = Return r →
  let parents := parents (resultLinks r) in
  let childLists := childLists (resultLinks r) in
  (∀ p c, (∃ cs, childLists !! p = Some cs ∧ c ∈ cs) ↔ parents !! c = Some (Some p))
  ∧ Forall NoDup childLists
  ∧ length childLists = length parents
  ∧ length (features r) = length parents
  ∧ ∀ root, root ∈ resultRootFeatures r ↔ parents !! root = Some None.
Proof.
  intros (_ & _ & _ & _ & Hlinks & Hroots & _)%parseGFF3_returns. simpl.
  rewrite Hlinks, Hroots.
  split; [apply child_iff_parent|]. split.
  { eapply Forall_impl; [apply hierarchy_children_sorted|]. apply StronglySorted_lt_NoDup. }
  rewrite hierarchy_childLists_length, hierarchy_parents, length_fmap.
  split; [done|]. split; [done|]. intros root. rewrite <- hierarchy_parents.
  apply root_iff_no_parent.
Qed.

(** The walks below the roots end.  A feature whose parent chain leads
    to a root reaches it in fewer steps than there are features, and
    [getDescendants] on it returns within as many nested calls as are
    left to that number; the trees the component walks from
    [data.rootFeatures] are finite, whatever the Parent attributes of the
    file are. *)
Theorem walks_below_the_roots_end (fileContent : jsstring) (r : ParseResult) :
  parseGFF3 fileContent = Return r →
  is_Some (rootNodes r)
  ∧ ∀ i d root,
      ancestor (parents (resultLinks r)) d i = Some root →
      root ∈ resultRootFeatures r →
      (d < length (features r))%nat
      ∧ is_Some (traverse (childLists (resultLinks r)) (length (features r) - d) i).
Proof.
  intros (Hagree & Honce & Hlen & Hfs & Hroot)%result_tables. split.
  - unfold rootNodes. apply mapM_is_Some_2, Forall_forall. intros root Hr%Hroot.
    unfold compose.
    apply (subtree_total _ _ Hagree (features r) _ root 0 root); auto. lia.
  - intros i d root Hd Hr%Hroot.
    pose proof (root_distance_bound _ d i root Hd Hr) as Hbound. split; [lia|].
    apply (traverse_total _ _ Hagree _ i d root); auto. lia.
Qed.

Lemma walks_below_the_roots_end_witness :
  ∃ r, parseGFF3 brca1File = Return r ∧ is_Some (rootNodes r).
Proof.
  destruct (parseGFF3 brca1File) as [r|] eqn:Hr; [|by vm_compute in Hr].
  exists r. split; [done|]. apply (walks_below_the_roots_end brca1File r Hr).
Defined.

(** When [getDescendants] returns, its list holds the features whose
    parent chain passes through the feature it was called on, each of
    them once, and not that feature itself. *)
Theorem getDescendants_lists_each_descendant_once (fileContent : jsstring)
    (r : ParseResult) (depth i : nat) (l : list nat) :
  parseGFF3 fileContent = Return r →
  traverse (childLists (resultLinks r)) depth i = Some l →
  NoDup l ∧ (i ∉ l)
  ∧ ∀ j, j ∈ l ↔ ∃ k, ancestor (parents (resultLinks r)) (S k) j = Some i.
Proof.
  intros (Hagree & Honce & _)%result_tables Hl.
  split; [by eapply traverse_NoDup|]. split; [by eapply traverse_not_self|].
  by eapply traverse_members.
Qed.

Lemma getDescendants_lists_each_descendant_once_witness :
  ∃ r, parseGFF3 brca1File = Return r
       ∧ traverse (childLists (resultLinks r)) 4 0 = Some [1; 2; 3]%nat
       ∧ NoDup [1; 2; 3]%nat.
Proof.
  destruct (parseGFF3 brca1File) as [r|] eqn:Hr; [|by vm_compute in Hr].
  assert (Hl : traverse (childLists (resultLinks r)) 4 0 = Some [1; 2; 3]%nat).
  { pose proof Hr as Hv. vm_compute in Hv. injection Hv as <-. by vm_compute. }
  exists r. split; [done|]. split; [done|].
  apply (getDescendants_lists_each_descendant_once brca1File r 4 0 _ Hr Hl).
Defined.

(** On a feature of a Parent cycle [getDescendants] never returns:
    whatever the number of nested calls allowed, the walk needs more.
    Such a feature is below no root, so the component never draws it. *)
Theorem getDescendants_never_returns_on_a_cycle (fileContent : jsstring)
    (r : ParseResult) (k i : nat) :
  parseGFF3 fileContent = Return r →
  ancestor (parents (resultLinks r)) (S k) i = Some i →
  (∀ depth, traverse (childLists (resultLinks r)) depth i = None)
  ∧ ∀ d root, ancestor (parents (resultLinks r)) d i = Some root →
              root ∉ resultRootFeatures r.
Proof.
  intros (Hagree & Honce & Hlen & Hfs & Hroot)%result_tables Hcycle.
  assert (Hnever : ∀ depth, traverse (childLists (resultLinks r)) depth i = None)
    by (by eapply traverse_cycle).
  split; [done|]. intros d root Hd Hr%Hroot.
  destruct (traverse_total _ _ Hagree (length (parents (resultLinks r)) - d) i d root)
    as [l Hl]; auto; [lia|].
  by rewrite Hnever in Hl.
Qed.

Lemma getDescendants_never_returns_on_a_cycle_witness :
  ∃ r, parseGFF3 (fileOf [cycleLineA; cycleLineB]) = Return r
       ∧ ancestor (parents (resultLinks r)) 2 0 = Some 0%nat
       ∧ ∀ depth, traverse (childLists (resultLinks r)) depth 0 = None.
Proof.
  destruct (parseGFF3 (fileOf [cycleLineA; cycleLineB])) as [r|] eqn:Hr;
    [|by vm_compute in Hr].
  assert (Hc : ancestor (parents (resultLinks r)) 2 0 = Some 0%nat).
  { pose proof Hr as Hv. vm_compute in Hv. injection Hv as <-. by vm_compute. }
  exists r. split; [done|]. split; [done|].
  apply (getDescendants_never_returns_on_a_cycle _ r 1 0 Hr Hc).
Defined.

(** ** The two readings of getDescendants *)

Lemma subtree_root (features : list Feature) (childLists : list (list nat))
    (depth i : nat) (t : FeatureNode) :
  subtree features childLists depth i = Some t → features !! i = Some (nodeFeature t).
Proof.
  destruct depth as [|depth]; [done|]. simpl.
  destruct (features !! i) as [f|]; simpl; [|done].
  destruct (childLists !! i) as [below|]; simpl; [|done].
  destruct (mapM _ below); simpl; [|done]. by intros [= <-].
Qed.

Lemma subtree_descendants (features : list Feature) (childLists : list (list nat))
    (depth i : nat) (t : FeatureNode) :
  subtree features childLists depth i = Some t →
  ∃ l, traverse childLists depth i = Some l
       ∧ Forall2 (λ node j, features !! j = Some (nodeFeature node)) (getDescendants t) l.
Proof.
  revert i t. induction depth as [|depth IH]; intros i t; [done|]. simpl.
  destruct (features !! i) as [f|]; simpl; [|done].
  destruct (childLists !! i) as [below|]; simpl; [|done].
  destruct (mapM (subtree features childLists depth) below) as [kids|] eqn:Hkids;
    simpl; [|done].
  intros [= <-]. apply mapM_Some_1 in Hkids.
  assert (Hall : ∃ found,
            mapM (λ c, (c ::.) <$> traverse childLists depth c) below = Some found
            ∧ Forall2 (λ node j, features !! j = Some (nodeFeature node))
                      (getDescendants (Node f kids)) (concat found)).
  { clear i. induction Hkids as [|c kid below kids Hkid _ IHkids].
    - exists []. split; [done|]. constructor.
    - destruct IHkids as (found & Hfound & Hrel).
      destruct (IH c kid Hkid) as (lc & Hlc & Hrelc).
      exists ((c :: lc) :: found). split.
      + cbn [mapM]. rewrite Hlc. simpl. by rewrite Hfound.
      + cbn [getDescendants concat]. constructor.
        * by eapply subtree_root.
        * apply Forall2_app; [exact Hrelc|exact Hrel]. }
  destruct Hall as (found & -> & Hrel). eauto.
Qed.

(** The trees of the component and the feature objects of the parser
    agree on [getDescendants].  For every root, the tree below it is the
    tree of the feature at that position, and the list [getDescendants]
    gives on the tree is, feature by feature and in the same order, the
    list it gives on the feature objects: every child is followed by
    what is below it, before the next child. *)
Theorem getDescendants_on_the_trees_below_the_roots (fileContent : jsstring)
    (r : ParseResult) :
  parseGFF3 fileContent = Return r →
  ∃ trees,
    rootNodes r = Some trees
    ∧ Forall2
        (λ root tree,
           features r !! root = Some (nodeFeature tree)
           ∧ ∃ l, traverse (childLists (resultLinks r)) (S (length (features r))) root
                  = Some l
                  ∧ Forall2 (λ node j, features r !! j = Some (nodeFeature node))
                            (getDescendants tree) l)
        (resultRootFeatures r) trees.
Proof.
  intros (Hagree & Honce & Hlen & Hfs & Hroot)%result_tables.
  assert (Hsome : is_Some (rootNodes r)).
  { unfold rootNodes. apply mapM_is_Some_2, Forall_forall. intros root Hr%Hroot.
    unfold compose.
    apply (subtree_total _ _ Hagree (features r) _ root 0 root); auto. lia. }
  destruct Hsome as [trees Htrees]. exists trees. split; [done|].
  unfold rootNodes in Htrees. apply mapM_Some_1 in Htrees.
  eapply Forall2_impl; [exact Htrees|]. intros root tree Htree. split.
  - exact (subtree_root _ _ _ _ _ Htree).
  - exact (subtree_descendants _ _ _ _ _ Htree).
Qed.

Lemma getDescendants_on_the_trees_below_the_roots_witness :
  ∃ r trees, parseGFF3 brca1File = Return r
             ∧ rootNodes r = Some trees
             ∧ (lineNumber ∘ nodeFeature <$> trees = [1]%nat)
             ∧ (lineNumber ∘ nodeFeature <$> concat (getDescendants <$> trees)
                = [2; 3; 4]%nat).
Proof.
  destruct (parseGFF3 brca1File) as [r|] eqn:Hr; [|by vm_compute in Hr].
  destruct (getDescendants_on_the_trees_below_the_roots brca1File r Hr)
    as (trees & Htrees & _).
  exists r, trees. split; [done|]. split; [done|].
  pose proof Hr as Hv. vm_compute in Hv. injection Hv as <-.
  vm_compute in Htrees. injection Htrees as <-. by vm_compute.
Defined.

End Walks.

(* ===================================================================== *)
(** * What the traversal from the roots reaches                           *)
(* ===================================================================== *)

Section Reached.
Import JS Gff3Parser GenomeBrowser Notions MoreNotions Samples HierarchyNotions
       Gff3Helpers ReachNotions.

Section Tables.
Variable parents : list (option nat).
Variable childLists : list (list nat).
Hypothesis agree : ∀ p c,
  (∃ cs, childLists !! p = Some cs ∧ c ∈ cs) ↔ parents !! c = Some (Some p).
Hypothesis once : Forall NoDup childLists.
Hypothesis lengths : length childLists = length parents.

(** The lists found below features none of which is above another do
    not meet. *)
Lemma found_apart (depth : nat) (below : list nat) (found : list (list nat)) :
  NoDup below →
  (∀ x y m, x ∈ below → y ∈ below → ancestor parents (S m) x ≠ Some y) →
  Forall2 (λ c y, ∃ lc, traverse childLists depth c = Some lc ∧ y = c :: lc) below found →
  NoDup (concat found).
Proof.
  intros Hnd Hflat Hall. revert Hnd Hflat.
  induction Hall as [|c y below found (lc & Hlc & ->) Hall IHall];
    intros Hnd Hflat; simpl; [constructor|].
  apply NoDup_cons in Hnd as [Hc Hnd].
  assert (Hrest : NoDup (concat found)).
  { apply IHall; [done|]. intros x y m Hx Hy. apply Hflat; by right. }
  assert (Hapart : ∀ j, (j = c ∨ j ∈ lc) → j ∉ concat found).
  { intros j Hj (c' & lc' & Hc' & Hlc' & Hj')%(found_elem childLists depth below found j Hall).
    assert (Hne : c ≠ c') by (by intros ->).
    assert (Hup : ∃ a, ancestor parents a j = Some c).
    { destruct Hj as [->|Hj]; [by exists 0%nat|].
      apply (traverse_members parents childLists agree depth c lc Hlc) in Hj as (a & Ha).
      eauto. }
    assert (Hup' : ∃ a, ancestor parents a j = Some c').
    { destruct Hj' as [->|Hj']; [by exists 0%nat|].
      apply (traverse_members parents childLists agree depth c' lc' Hlc') in Hj' as (a & Ha).
      eauto. }
    destruct Hup as (a & Ha), Hup' as (a' & Ha').
    assert (Hcross : ∀ x y ax ay, x ≠ y → x ∈ c :: below → y ∈ c :: below →
              ancestor parents ax j = Some x → ancestor parents ay j = Some y →
              (ax ≤ ay)%nat → False).
    { intros x y ax ay Hxy Hx Hy Hax Hay Hle.
      replace ay with (ax + (ay - ax))%nat in Hay by lia.
      rewrite ancestor_add, Hax in Hay. simpl in Hay.
      destruct (ay - ax)%nat as [|m]; simpl in Hay; [congruence|].
      by apply (Hflat x y m Hx Hy). }
    destruct (Nat.le_ge_cases a a').
    - apply (Hcross c c' a a'); auto; [left|by right].
    - apply (Hcross c' c a' a); auto; [by right|left]. }
  constructor.
  - intros [Hself|Hother]%elem_of_app.
    + by apply (traverse_not_self parents childLists agree depth c lc Hlc).
    + apply (Hapart c); auto.
  - apply NoDup_app. split; [by eapply (traverse_NoDup parents childLists agree once)|].
    split; [|done]. intros j Hj. apply Hapart. by right.
Qed.

(** The traversal from a list of features without parent ends; it
    meets no feature twice, and it meets the features whose chain of
    parents ends at one of them. *)
Lemma walkFromRoots_reaches (roots : list nat) :
  NoDup roots → (∀ root, root ∈ roots → parents !! root = Some None) →
  ∃ visited,
    walkFromRoots childLists (S (length parents)) roots = Some visited
    ∧ NoDup visited
    ∧ ∀ i, i ∈ visited ↔ belowRoot parents roots i.
Proof.
  intros Hnd Hroots. unfold walkFromRoots.
  assert (Hsome : is_Some (mapM (λ root, (root ::.)
                    <$> traverse childLists (S (length parents)) root) roots)).
  { apply mapM_is_Some_2, Forall_forall. intros root Hr. unfold compose.
    destruct (traverse_total parents childLists agree (S (length parents)) root 0 root)
      as [l Hl]; auto; [lia|].
    rewrite Hl. by eexists. }
  destruct Hsome as [found Hfound]. rewrite Hfound. simpl.
  exists (concat found). split; [done|].
  assert (Hall : Forall2 (λ c y, ∃ lc, traverse childLists (S (length parents)) c = Some lc
                                       ∧ y = c :: lc) roots found).
  { apply mapM_Some_1 in Hfound. eapply Forall2_impl; [exact Hfound|].
    intros c y Hy. cbv beta in Hy.
    destruct (traverse childLists (S (length parents)) c) as [lc|];
      simpl in Hy; [|done].
    injection Hy as <-. eauto. }
  split.
  - apply (found_apart (S (length parents)) roots found); [done| |done].
    intros x y m Hx _. simpl. by rewrite (Hroots x Hx).
  - intros i. rewrite (found_elem childLists (S (length parents)) roots found i Hall).
    unfold belowRoot. split.
    + intros (root & lc & Hr & Hlc & [->|Hi]).
      * by exists 0%nat, root.
      * apply (traverse_members parents childLists agree _ root lc Hlc) in Hi as (k & Hk).
        by exists (S k), root.
    + intros (d & root & Hd & Hr).
      apply list_elem_of_lookup in Hr as (m & Hm).
      destruct (Forall2_lookup_l _ _ _ _ _ Hall Hm) as (y & _ & lc & Hlc & _).
      exists root, lc. split; [by eapply list_elem_of_lookup_2|]. split; [done|].
      destruct d as [|d]; [left; simpl in Hd; congruence|].
      right. apply (traverse_members parents childLists agree _ root lc Hlc). eauto.
Qed.

End Tables.

(** ** Chains of parents *)

Lemma ancestor_on_cycle (parents : list (option nat)) (k m c x : nat) :
  ancestor parents (S k) c = Some c → ancestor parents m c = Some x →
  ancestor parents (S k) x = Some x.
Proof.
  intros Hc Hx.
  assert (H : ancestor parents (m + S k) c = ancestor parents (S k + m) c)
    by (f_equal; lia).
  rewrite !ancestor_add, Hc, Hx in H. simpl in H. simpl. by rewrite H.
Qed.

Lemma collision (at_ : nat → nat) (m bound : nat) :
  (bound < m)%nat → (∀ k, (k < m)%nat → (at_ k < bound)%nat) →
  ∃ j k, (j < k < m)%nat ∧ at_ j = at_ k.
Proof.
  intros Hm Hrange.
  assert (Hdup : ¬ NoDup (at_ <$> seq 0 m)).
  { intros Hnd.
    assert (Hsub : at_ <$> seq 0 m ⊆+ seq 0 bound).
    { apply NoDup_submseteq; [done|].
      intros x (k & -> & [_ Hk]%elem_of_seq)%list_elem_of_fmap.
      apply elem_of_seq. specialize (Hrange k). lia. }
    apply submseteq_length in Hsub. rewrite length_fmap, !length_seq in Hsub. lia. }
  clear Hm Hrange. induction m as [|m IH].
  - destruct Hdup. constructor.
  - rewrite seq_S, fmap_app in Hdup. simpl in Hdup.
    destruct (decide (at_ m ∈ at_ <$> seq 0 m)) as [Hin|Hout].
    + apply list_elem_of_fmap in Hin as (j & Hj & [_ Hlt]%elem_of_seq).
      exists j, m. split; [lia|done].
    + destruct IH as (j & k & Hjk & Heq).
      * intros Hnd. apply Hdup. apply NoDup_app. split; [done|]. split.
        -- intros x Hx ->%list_elem_of_singleton. done.
        -- apply NoDup_singleton.
      * exists j, k. split; [lia|done].
Qed.

(** A chain of parents within the array ends at a feature without
    parent, or runs into a cycle; it cannot do both. *)
Lemma chain_ends_or_cycles (parents : list (option nat)) (roots : list nat) (i : nat) :
  (∀ root, root ∈ roots ↔ parents !! root = Some None) →
  (∀ c p, parents !! c = Some (Some p) → (p < length parents)%nat) →
  (i < length parents)%nat →
  (belowRoot parents roots i ∨ towardsCycle parents i)
  ∧ ¬ (belowRoot parents roots i ∧ towardsCycle parents i).
Proof.
  intros Hroots Hrange Hi. split.
  - assert (Hrun : ∀ m, belowRoot parents roots i
                        ∨ ∀ k, (k ≤ m)%nat →
                            ∃ x, ancestor parents k i = Some x ∧ (x < length parents)%nat).
    { induction m as [|m IH].
      - right. intros k Hk. replace k with 0%nat by lia. eauto.
      - destruct IH as [Hb|Hall]; [by left|].
        destruct (Hall m) as (x & Hx & Hlt); [lia|].
        destruct (lookup_lt_is_Some_2 parents x Hlt) as [[p|] Hp].
        + right. intros k Hk. destruct (decide (k = S m)) as [->|]; [|apply Hall; lia].
          exists p. split; [|by eapply Hrange].
          apply ancestor_last. eauto.
        + left. exists m, x. split; [done|]. by apply Hroots. }
    destruct (Hrun (length parents)) as [Hb|Hall]; [by left|]. right.
    destruct (collision (λ k, default 0%nat (ancestor parents k i))
                (S (length parents)) (length parents)) as (j & k & Hjk & Heq); [lia| |].
    { intros k Hk. destruct (Hall k) as (x & -> & Hlt); [lia|done]. }
    destruct (Hall j) as (x & Hx & _); [lia|].
    destruct (Hall k) as (y & Hy & _); [lia|].
    rewrite Hx, Hy in Heq. simpl in Heq. subst y.
    exists j, x, (k - j - 1)%nat. split; [done|].
    replace k with (j + S (k - j - 1))%nat in Hy by lia.
    by rewrite ancestor_add, Hx in Hy.
  - intros [(d & root & Hd & Hr%Hroots) (d' & c & k & Hc & Hcycle)].
    assert (Hnone : ∀ m, ancestor parents (S m) root = None)
      by (intros m; simpl; by rewrite Hr).
    destruct (Nat.le_gt_cases d d') as [Hle|Hgt].
    + replace d' with (d + (d' - d))%nat in Hc by lia.
      rewrite ancestor_add, Hd in Hc. simpl in Hc.
      destruct (d' - d)%nat as [|m]; [|by rewrite Hnone in Hc].
      simpl in Hc. injection Hc as <-. by rewrite Hnone in Hcycle.
    + replace d with (d' + (d - d'))%nat in Hd by lia.
      rewrite ancestor_add, Hc in Hd. simpl in Hd.
      pose proof (ancestor_on_cycle parents k (d - d') c root Hcycle Hd) as Hroot.
      by rewrite Hnone in Hroot.
Qed.


(** C3, amended.  After [buildHierarchy], every feature of the list is
    in one place exactly once: in [rootFeatures], or in the [children]
    array of one feature, its parent.  Never both, never neither, also
    when the Parent attributes form a cycle.  Being reachable is another
    matter.  The traversal from [rootFeatures] through the [children]
    arrays ends and meets no feature twice; it meets a feature exactly
    when the chain of parents of the feature ends at a root.  The chain
    of every other feature runs into a Parent cycle: such a feature is
    in the [children] array of its parent, and no traversal from
    [rootFeatures] leads to it. *)
Theorem features_are_in_one_place_and_reached_below_roots (features : list Feature)
    (i : nat) :
  let st := hierarchyState (buildHierarchy features) in
  let inRoots := i ∈ rootFeatures st in
  let inChildren := ∃ p cs, childLists (links st) !! p = Some cs ∧ i ∈ cs in
  let reached := belowRoot (parents (links st)) (rootFeatures st) i in
  let lost := towardsCycle (parents (links st)) i in
  (occurrences i (rootFeatures st ++ concat (childLists (links st)))
   = (if bool_decide (i < length features)%nat then 1 else 0)%nat
   ∧ ((i < length features)%nat ↔ inRoots ∨ inChildren)
   ∧ ¬ (inRoots ∧ inChildren)
   ∧ (inRoots → parents (links st) !! i = Some None)
   ∧ (∀ p cs, childLists (links st) !! p = Some cs → i ∈ cs →
        parents (links st) !! i = Some (Some p)))
  ∧ (∃ visited,
       walkFromRoots (childLists (links st)) (S (length features)) (rootFeatures st)
       = Some visited
       ∧ NoDup visited
       ∧ (i ∈ visited ↔ reached))
  ∧ ((i < length features)%nat → (reached ∨ lost) ∧ ¬ (reached ∧ lost))
  ∧ (lost → (i < length features)%nat → inChildren ∧ ¬ inRoots ∧ ¬ reached).
Proof.
  intros st inRoots inChildren reached lost.
  pose proof (every_feature_in_exactly_one_place features i) as Hplace.
  cbv zeta in Hplace. fold st in Hplace. fold inRoots inChildren in Hplace.
  assert (Hagree := child_iff_parent features). fold st in Hagree.
  assert (Honce : Forall NoDup (childLists (links st))).
  { eapply Forall_impl; [apply hierarchy_children_sorted|]. apply StronglySorted_lt_NoDup. }
  assert (Hparents : length (parents (links st)) = length features).
  { unfold st. by rewrite hierarchy_parents, length_fmap. }
  assert (Hlen : length (childLists (links st)) = length (parents (links st))).
  { rewrite Hparents. apply hierarchy_childLists_length. }
  assert (Hroot := root_iff_no_parent features). fold st in Hroot.
  assert (Hrange : ∀ c p, parents (links st) !! c = Some (Some p) →
                          (p < length (parents (links st)))%nat).
  { intros c p Hc. rewrite Hparents. unfold st in Hc.
    rewrite hierarchy_parents, list_lookup_fmap in Hc.
    destruct (features !! c) as [f|]; simpl in Hc; [|done].
    injection Hc as Hc. by eapply parentOf_range. }
  assert (Hchain : (i < length features)%nat → (reached ∨ lost) ∧ ¬ (reached ∧ lost)).
  { intros Hi. apply chain_ends_or_cycles; [done|done|lia]. }
  split; [exact Hplace|]. split; [|split; [exact Hchain|]].
  - destruct (walkFromRoots_reaches (parents (links st)) (childLists (links st))
                Hagree Honce Hlen (rootFeatures st)) as (visited & Hwalk & Hnd & Hin).
    + apply StronglySorted_lt_NoDup. unfold st. rewrite hierarchy_roots.
      apply positionsWhere_sorted.
    + intros root. apply Hroot.
    + exists visited. rewrite <- Hparents. done.
  - intros Hlost Hi. destruct (Hchain Hi) as [_ Hnot].
    assert (Hnr : ¬ reached) by tauto.
    assert (Hnroot : ¬ inRoots).
    { intros Hr. apply Hnr. by exists 0%nat, i. }
    split; [|done]. destruct Hplace as (_ & Hiff & _). apply Hiff in Hi. tauto.
Qed.

(** C3 as stated fails on its own examples.  A feature that names
    itself as its parent, and two features that name each other: the
    features are in the list and each is in the [children] array of its
    parent, but [rootFeatures] is empty and the traversal from it meets
    nothing. *)
Lemma features_of_a_cycle_are_reached_from_no_root :
  (∃ r, parseGFF3 (fileOf [selfParentLine]) = Return r
        ∧ length (features r) = 1%nat
        ∧ resultRootFeatures r = []
        ∧ childLists (resultLinks r) = [[0%nat]]
        ∧ walkFromRoots (childLists (resultLinks r)) 2 (resultRootFeatures r) = Some []
        ∧ towardsCycle (parents (resultLinks r)) 0)
  ∧ (∃ r, parseGFF3 (fileOf [cycleLineA; cycleLineB]) = Return r
          ∧ length (features r) = 2%nat
          ∧ resultRootFeatures r = []
          ∧ childLists (resultLinks r) = [[1%nat]; [0%nat]]
          ∧ walkFromRoots (childLists (resultLinks r)) 3 (resultRootFeatures r) = Some []
          ∧ towardsCycle (parents (resultLinks r)) 0
          ∧ towardsCycle (parents (resultLinks r)) 1).
Proof.
  split; eexists; (split; [by vm_compute|]).
  - repeat split; try by vm_compute. by exists 0%nat, 0%nat, 0%nat.
  - repeat split; try by vm_compute.
    + by exists 0%nat, 0%nat, 1%nat.
    + by exists 0%nat, 1%nat, 1%nat.
Qed.

End Reached.

(* ===================================================================== *)
(** * More on the track layout                                            *)
(* ===================================================================== *)

Section MoreTracks.
Import JS Gff3Parser GenomeBrowser Notions MoreNotions Samples.

Lemma hasOverlap_true (track : list FeatureNode) (feature : FeatureNode) :
  hasOverlap track feature = true ↔ ∃ f, f ∈ track ∧ overlaps f feature = true.
Proof.
  unfold hasOverlap. rewrite existsb_exists.
  split; intros (f & Hf & Ho); exists f; split; try done; by apply list_elem_of_In.
Qed.

(** What one call of the loop body does to the lanes: it adds the
    feature at the end of one lane, or opens a lane for it after the
    others. *)
Lemma placeFeature_cases (tracks : list (list FeatureNode)) (feature : FeatureNode) :
  (∃ k lane, tracks !! k = Some lane
     ∧ (∀ j lane', (j < k)%nat → tracks !! j = Some lane' → hasOverlap lane' feature = true)
     ∧ placeFeature tracks feature = <[k := lane ++ [feature]]> tracks)
  ∨ ((∀ lane, lane ∈ tracks → hasOverlap lane feature = true)
     ∧ placeFeature tracks feature = tracks ++ [[feature]]).
Proof.
  unfold placeFeature. pose proof (place_first_fit tracks feature) as H.
  destruct (place tracks feature) as [placed|].
  - left. destruct H as (k & lane & Hk & _ & Hbefore & ->). eauto.
  - right. auto.
Qed.

(** The lanes are packed.  No lane is empty and there are no more
    lanes than features; the features of a lane are in the order they
    had in the input; and a lane is opened only when needed: a feature
    of a lane overlaps some feature of every lane before it. *)
Theorem lanes_are_opened_only_when_needed (features : list FeatureNode) :
  let tracks := organizeIntoTracks features in
  Forall (λ lane, lane ≠ []) tracks
  ∧ (length tracks ≤ length features)%nat
  ∧ Forall (λ lane, lane `sublist_of` features) tracks
  ∧ ∀ k j lane lane' f,
      tracks !! k = Some lane → f ∈ lane → (j < k)%nat → tracks !! j = Some lane' →
      ∃ g, g ∈ lane' ∧ overlaps g f = true.
Proof.
  induction features as [|feature features IH] using rev_ind.
  - simpl. split; [done|]. split; [done|]. split; [done|].
    intros k j lane lane' f Hk. by destruct k.
  - cbv zeta in *. rewrite organizeIntoTracks_snoc.
    set (tracks := organizeIntoTracks features) in *.
    destruct IH as (Hne & Hlen & Hsub & Hneed).
    rewrite length_app. simpl.
    destruct (placeFeature_cases tracks feature)
      as [(k0 & lane0 & Hk0 & Hbefore & ->)|[Hall ->]].
    + split; [|split; [|split]].
      * apply Forall_lookup. intros k lane Hk.
        destruct (decide (k = k0)) as [->|Hneq].
        -- rewrite list_lookup_insert_eq in Hk by (by eapply lookup_lt_Some).
           injection Hk as <-. by destruct lane0.
        -- rewrite list_lookup_insert_ne in Hk by done.
           by apply (Forall_lookup_1 _ _ _ _ Hne Hk).
      * rewrite length_insert. lia.
      * apply Forall_lookup. intros k lane Hk.
        destruct (decide (k = k0)) as [->|Hneq].
        -- rewrite list_lookup_insert_eq in Hk by (by eapply lookup_lt_Some).
           injection Hk as <-. apply sublist_app; [|done].
           by apply (Forall_lookup_1 _ _ _ _ Hsub Hk0).
        -- rewrite list_lookup_insert_ne in Hk by done.
           apply sublist_inserts_r. by apply (Forall_lookup_1 _ _ _ _ Hsub Hk).
      * intros k j lane lane' f Hk Hf Hj Hj'.
        assert (Hgrow : ∃ old, tracks !! j = Some old ∧ ∀ g, g ∈ old → g ∈ lane').
        { destruct (decide (j = k0)) as [->|Hneq].
          - rewrite list_lookup_insert_eq in Hj' by (by eapply lookup_lt_Some).
            injection Hj' as <-. exists lane0. split; [done|].
            intros g Hg. apply elem_of_app. by left.
          - rewrite list_lookup_insert_ne in Hj' by done. eauto. }
        destruct Hgrow as (old & Hold & Hin).
        assert (Hfound : ∃ g, g ∈ old ∧ overlaps g f = true).
        { destruct (decide (k = k0)) as [->|Hneq].
          - rewrite list_lookup_insert_eq in Hk by (by eapply lookup_lt_Some).
            injection Hk as <-.
            apply elem_of_app in Hf as [Hf| ->%list_elem_of_singleton].
            + by apply (Hneed k0 j lane0 old f).
            + apply hasOverlap_true. by apply (Hbefore j old).
          - rewrite list_lookup_insert_ne in Hk by done.
            by apply (Hneed k j lane old f). }
        destruct Hfound as (g & Hg & Ho). eauto.
    + split; [|split; [|split]].
      * apply Forall_app. split; [done|]. by constructor.
      * rewrite length_app. simpl. lia.
      * apply Forall_app. split.
        -- eapply Forall_impl; [exact Hsub|]. intros lane Hl. by apply sublist_inserts_r.
        -- constructor; [|done]. by apply sublist_inserts_l.
      * intros k j lane lane' f Hk Hf Hj Hj'.
        assert (Hold : tracks !! j = Some lane').
        { apply lookup_app_Some in Hj' as [?|[Hge Hj']]; [done|].
          apply lookup_app_Some in Hk as [Hk|[_ Hk]].
          - apply lookup_lt_Some in Hk. lia.
          - destruct (k - length tracks)%nat as [|m] eqn:Hm; [|by destruct m].
            lia. }
        apply lookup_app_Some in Hk as [Hk|[Hge Hk]].
        -- by apply (Hneed k j lane lane' f).
        -- destruct (k - length tracks)%nat as [|m]; [|by destruct m].
           injection Hk as <-. apply list_elem_of_singleton in Hf as ->.
           apply hasOverlap_true, Hall. by eapply list_elem_of_lookup_2.
Qed.

Lemma nonOverlapping_prefix (features : list FeatureNode) (feature : FeatureNode) :
  nonOverlapping (features ++ [feature]) →
  nonOverlapping features ∧ hasOverlap features feature = false.
Proof.
  intros Hall. split.
  - intros i j a b Hij Hi Hj.
    apply (Hall i j a b Hij); by apply lookup_app_l_Some.
  - apply hasOverlap_false_iff. intros f (i & Hi)%list_elem_of_lookup.
    apply (Hall i (length features) f feature).
    + apply lookup_lt_Some in Hi. lia.
    + by apply lookup_app_l_Some.
    + by rewrite lookup_app_r, Nat.sub_diag.
Qed.

(** Features that lie apart from each other, two by two, all go to
    the first lane, in their order. *)
Theorem features_that_lie_apart_share_one_lane (features : list FeatureNode) :
  features ≠ [] → nonOverlapping features →
  organizeIntoTracks features = [features].
Proof.
  induction features as [|feature features IH] using rev_ind; [done|].
  intros _ [Hprefix Hfree]%nonOverlapping_prefix.
  rewrite organizeIntoTracks_snoc.
  destruct features as [|f features]; [done|].
  rewrite IH by done. unfold placeFeature. cbn [place]. by rewrite Hfree.
Qed.

Lemma features_that_lie_apart_share_one_lane_witness :
  organizeIntoTracks [geneA; geneB] = [[geneA; geneB]].
Proof.
  apply (features_that_lie_apart_share_one_lane [geneA; geneB]); [done|].
  intros [|[|i]] [|[|j]] a b Hij Ha Hb; try done;
    injection Ha as <-; injection Hb as <-; unfold apart; vm_compute; auto.
Defined.

(** Features that overlap each other, two by two, each get a lane of
    their own, in their order. *)
Theorem features_that_all_overlap_get_a_lane_each (features : list FeatureNode) :
  (∀ a b, a ∈ features → b ∈ features → overlaps a b = true) →
  organizeIntoTracks features = (λ f, [f]) <$> features.
Proof.
  induction features as [|feature features IH] using rev_ind; [done|].
  intros Hall. rewrite organizeIntoTracks_snoc, IH, fmap_app.
  - destruct (placeFeature_cases ((λ f, [f]) <$> features) feature)
      as [(k & lane & Hk & _ & Hplaced)|[_ ->]]; [|done].
    exfalso. unfold placeFeature in Hplaced.
    pose proof (place_first_fit ((λ f, [f]) <$> features) feature) as Hfit.
    destruct (place _ feature) as [placed|] eqn:Hplace.
    + destruct Hfit as (k' & lane' & Hk' & Hfree & _).
      rewrite list_lookup_fmap in Hk'.
      destruct (features !! k') as [g|] eqn:Hg; [|done]. injection Hk' as <-.
      simpl in Hfree. rewrite orb_false_r in Hfree.
      rewrite Hall in Hfree; [done|..]; apply elem_of_app.
      * left. by eapply list_elem_of_lookup_2.
      * right. left.
    + assert (Hlen := f_equal length Hplaced).
      rewrite length_app, length_insert in Hlen. simpl in Hlen. lia.
  - intros a b Ha Hb. apply Hall; apply elem_of_app; by left.
Qed.

Lemma features_that_all_overlap_get_a_lane_each_witness :
  organizeIntoTracks [geneA; geneC] = [[geneA]; [geneC]].
Proof.
  apply (features_that_all_overlap_get_a_lane_each [geneA; geneC]).
  intros a b [->|[->|[]%elem_of_nil]%elem_of_cons]%elem_of_cons
             [->|[->|[]%elem_of_nil]%elem_of_cons]%elem_of_cons; by vm_compute.
Defined.

End MoreTracks.

(* ===================================================================== *)
(** * What a feature draws                                                *)
(* ===================================================================== *)

Section Drawing.
Import JS Gff3Parser GenomeBrowser Notions MoreNotions Samples Gff3Helpers.

Lemma FeatureNode_forall_ind (P : FeatureNode → Prop) :
  (∀ feature below, Forall P below → P (Node feature below)) → ∀ node, P node.
Proof.
  intros H. fix IH 1. intros [feature below]. apply H.
  induction below as [|child below IHbelow]; constructor; [apply IH|exact IHbelow].
Qed.

Lemma getDescendants_elem (feature : Feature) (below : list FeatureNode)
    (d : FeatureNode) :
  d ∈ getDescendants (Node feature below)
  ↔ ∃ child, child ∈ below ∧ (d = child ∨ d ∈ getDescendants child).
Proof.
  simpl. induction below as [|c below IH].
  - split; [by intros ?%elem_of_nil|]. by intros (? & ?%elem_of_nil & _).
  - rewrite elem_of_cons, elem_of_app, IH. split.
    + intros [->|[Hd|(child & Hc & Hd)]].
      * exists c. split; [left|]. auto.
      * exists c. split; [left|]. auto.
      * exists child. split; [by right|]. auto.
    + intros (child & [->|Hc]%elem_of_cons & Hd); [tauto|]. right. right. eauto.
Qed.

Lemma insertByStart_elem (x y : FeatureNode) (sorted : list FeatureNode) :
  y ∈ insertByStart x sorted ↔ y = x ∨ y ∈ sorted.
Proof.
  induction sorted as [|z sorted IH]; simpl.
  - rewrite list_elem_of_singleton. split; [auto|]. by intros [?|?%elem_of_nil].
  - destruct (0 <? startOf z - startOf x)%float.
    + by rewrite elem_of_cons.
    + rewrite !elem_of_cons, IH. tauto.
Qed.

Lemma sortByStart_elem (y : FeatureNode) (l : list FeatureNode) :
  y ∈ sortByStart l ↔ y ∈ l.
Proof.
  unfold sortByStart. induction l as [|x l IH] using rev_ind; [done|].
  rewrite foldl_app. simpl. rewrite insertByStart_elem, IH, elem_of_app.
  rewrite list_elem_of_singleton. tauto.
Qed.



Lemma introns_no_feature (scale : Scale) (viewStart viewEnd : float)
    (exons : list FeatureNode) (p : Primitive) :
  p ∈ introns scale viewStart viewEnd exons → drawnFor p = None.
Proof.
  induction exons as [|exon1 [|exon2 rest] IH]; simpl; try by intros ?%elem_of_nil.
  intros [Hp|Hp]%elem_of_app; [|by apply IH].
  destruct (_ || _); [by apply elem_of_nil in Hp|].
  by apply list_elem_of_singleton in Hp as ->.
Qed.


Lemma block_elem (rect : Feature → float → float → Primitive) (scale : Scale)
    (viewStart viewEnd : float) (l : list FeatureNode) (p : Primitive) :
  p ∈ flat_map (block rect scale viewStart viewEnd) l →
  ∃ child x width, child ∈ l ∧ p = rect (nodeFeature child) x width.
Proof.
  induction l as [|c l IH]; simpl; [by intros ?%elem_of_nil|].
  intros [Hp|Hp]%elem_of_app.
  - unfold block in Hp. destruct (_ || _); [by apply elem_of_nil in Hp|].
    destruct (_ <? _)%float; [by apply elem_of_nil in Hp|].
    apply list_elem_of_singleton in Hp as ->. eexists c, _, _. split; [left|done].
  - destruct (IH Hp) as (child & x & w & Hc & ->). eexists child, _, _.
    split; [by right|done].
Qed.


Lemma str_eqb_eq (a b : jsstring) : str_eqb a b = true → a = b.
Proof. unfold str_eqb. by intros ?%bool_decide_eq_true. Qed.

(** A primitive drawn for a feature carries that feature or one below
    it to its pointer handlers, and its shape goes with the type: an
    arrow is a gene, an exon block an exon, a CDS block a CDS. *)
Theorem primitives_are_drawn_for_the_subtree (width : float) (scale : Scale)
    (node : FeatureNode) (p : Primitive) (feature : Feature) :
  p ∈ renderFeature width scale node →
  drawnFor p = Some feature →
  (feature = nodeFeature node
   ∨ ∃ d, d ∈ getDescendants node ∧ feature = nodeFeature d)
  ∧ match p with
    | GenePath _ _ _ => type_ feature = lit "gene"
    | ExonRect _ _ _ => type_ feature = lit "exon"
    | CDSRect _ _ _ => type_ feature = lit "CDS"
    | IntronLine _ _ => True
    end.
Proof.
  revert p feature. induction node as [f below IH] using FeatureNode_forall_ind.
  intros p feature Hp Hfor.
  cbn [renderFeature] in Hp. cbv zeta in Hp.
  destruct (_ <? 1)%float; [by apply elem_of_nil in Hp|].
  destruct (str_eqb (type_ f) (lit "gene")) eqn:Hgene.
  { apply elem_of_cons in Hp as [->|Hp].
    - simpl in Hfor. injection Hfor as <-. split; [by left|]. by apply str_eqb_eq.
    - assert (Hchild : ∃ child, child ∈ below ∧ p ∈ renderFeature width scale child).
      { clear IH. induction below as [|c below IHb]; [by apply elem_of_nil in Hp|].
        apply elem_of_app in Hp as [Hp|Hp].
        - exists c. split; [left|done].
        - destruct (IHb Hp) as (child & Hc & Hin). exists child. split; [by right|done]. }
      destruct Hchild as (child & Hc & Hin).
      rewrite Forall_forall in IH.
      destruct (IH child Hc p feature Hin Hfor) as [Hwho Hshape]. split; [|done].
      right. destruct Hwho as [->|(d & Hd & ->)].
      + exists child. split; [|done]. apply getDescendants_elem. eauto.
      + exists d. split; [|done]. apply getDescendants_elem. eauto. }
  destruct (str_eqb (type_ f) (lit "mRNA")) eqn:HmRNA.
  { unfold renderMRNA in Hp. cbv zeta in Hp. simpl children in Hp.
    apply elem_of_app in Hp as [Hp|Hp];
      [apply introns_no_feature in Hp; congruence|].
    apply elem_of_app in Hp as [Hp|Hp];
      apply block_elem in Hp as (child & x & w & Hc & ->);
      simpl in Hfor; injection Hfor as <-.
    - apply sortByStart_elem, list_elem_of_filter in Hc as [Htype Hc].
      split; [|by apply str_eqb_eq].
      right. exists child. split; [|done]. apply getDescendants_elem. eauto.
    - apply list_elem_of_filter in Hc as [Htype Hc].
      split; [|by apply str_eqb_eq].
      right. exists child. split; [|done]. apply getDescendants_elem. eauto. }
  destruct (str_eqb (type_ f) (lit "exon")) eqn:Hexon.
  { apply list_elem_of_singleton in Hp as ->. simpl in Hfor. injection Hfor as <-.
    split; [by left|]. by apply str_eqb_eq. }
  destruct (str_eqb (type_ f) (lit "CDS")) eqn:Hcds; [|by apply elem_of_nil in Hp].
  apply list_elem_of_singleton in Hp as ->. simpl in Hfor. injection Hfor as <-.
  split; [by left|]. by apply str_eqb_eq.
Qed.

Lemma primitives_are_drawn_for_the_subtree_witness :
  nodeFeature smallExon = nodeFeature geneWithExon
  ∨ ∃ d, d ∈ getDescendants geneWithExon ∧ nodeFeature smallExon = nodeFeature d.
Proof.
  apply (primitives_are_drawn_for_the_subtree windowWidth windowScale geneWithExon
           (ExonRect (nodeFeature smallExon) (-499) 99) (nodeFeature smallExon)).
  - assert (H : renderFeature windowWidth windowScale geneWithExon
                = [GenePath (nodeFeature geneWithExon) (-499) 999;
                   ExonRect (nodeFeature smallExon) (-499) 99]) by (by vm_compute).
    rewrite H. right. left.
  - done.
Defined.


End Drawing.

(* ===================================================================== *)
(** * The tooltip                                                         *)
(* ===================================================================== *)

Section Tooltips.
Import JS Gff3Parser GenomeBrowser TooltipState PointerNotions.
Local Open Scope float_scope.





End Tooltips.

(* ===================================================================== *)
(** * What the zoom handler draws                                         *)
(* ===================================================================== *)

Section Drawn.
Import JS Gff3Parser GenomeBrowser Notions MoreNotions ZoomNotions Samples.
Context {T : Type}.

Lemma run_snoc (st : ZoomState T) (events : list (Event T)) (e : Event T) :
  run st (events ++ [e]) = run st events ≫= λ st', step st' e.
Proof.
  revert st. induction events as [|e' events IH]; intros st; simpl.
  - by destruct (step st e).
  - destruct (step st e') as [st'|]; simpl; [apply IH|done].
Qed.

Lemma queued_snoc (callbacks : list (FrameCallback T)) (c : FrameCallback T) :
  queued (callbacks ++ [c])
  = queued callbacks
    ++ [match c with Update transform | UpdateAndStamp transform => transform end].
Proof. unfold queued. by rewrite fmap_app. Qed.

(** One turn of the event loop: a zoom event adds its transform to what
    the handler holds and may drop the transform of the timeout it
    cancels; the other turns only move a transform along. *)
Lemma step_held (st st' : ZoomState T) (e : Event T) :
  onePending st → step st e = Some st' →
  match e with
  | Zoom _ transform =>
      axis st' = Some transform ∧ lastTransform st' = Some transform
      ∧ redraws st' = redraws st
      ∧ ∃ kept, kept ⊆+ held st ∧ held st' ≡ₚ kept ++ [transform]
  | TimeoutFires _ _ =>
      axis st' = axis st ∧ lastTransform st' = lastTransform st
      ∧ redraws st' = redraws st ∧ held st' ≡ₚ held st
  | AnimationFrame _ =>
      axis st' = axis st ∧ lastTransform st' = lastTransform st
      ∧ redraws st' = redraws st ++ queued (frameCallbacks st)
      ∧ frameCallbacks st' = [] ∧ held st' ≡ₚ held st
  end.
Proof.
  intros Hone Hstep. destruct e as [now transform|now id|now].
  - simpl in Hstep. injection Hstep as <-. unfold onZoom, held.
    destruct (now - lastUpdateTime st <? throttleInterval)%float; simpl.
    + rewrite (clearTimeout_pending st Hone). simpl.
      repeat split. exists (redraws st ++ queued (frameCallbacks st)). split.
      * rewrite app_assoc. apply submseteq_inserts_r. done.
      * by rewrite <- app_assoc.
    + repeat split. exists (held st). split; [done|]. unfold held.
      rewrite queued_snoc, <- !app_assoc. apply Permutation_app_head.
      apply Permutation_app_head. apply Permutation_app_comm.
  - destruct (timeout_fires st st' now id Hone Hstep) as (t & Ht & _ & _ & Ht' & Hfc & Hre).
    unfold held. rewrite Ht, Ht', Hfc, Hre, queued_snoc. simpl.
    rewrite app_nil_r. simpl in Hstep.
    destruct (filter _ (timeouts st)) as [|t0 others]; [done|].
    destruct (due t0 <=? now)%float; [|done]. injection Hstep as <-. simpl.
    repeat split; try done.
  - cbn [step] in Hstep.
    destruct (frameCallbacks st) as [|callback rest] eqn:Hfc; [done|].
    apply (inj Some) in Hstep.
    match type of Hstep with
    | foldl _ ?s ?cs = _ =>
        destruct (frame_runs now cs s) as (_ & Ht & Hl & Ha & _ & Hf & Hr)
    end.
    rewrite Hstep in Ht, Hl, Ha, Hf, Hr. simpl in Ht, Hl, Ha, Hf, Hr.
    unfold held. rewrite Ht, Hl, Ha, Hf, Hr, ?Hfc. simpl.
    repeat split; try done. by rewrite <- app_assoc.
Qed.

(** The handler draws what arrived.  After any run of the event loop
    the axis shows the last transform that arrived.  The transforms
    drawn, queued for a frame or held by the pending timeout all arrived
    in zoom events, none of them more often than it arrived, so there
    are never more redraws than zoom events.  The last transform that
    arrived is among them: it is drawn once the timeout has fired and
    the frame has run.  An animation frame draws every transform queued
    before it, in the order of the requests, and leaves none queued. *)
Theorem zoom_draws_what_arrived (events : list (Event T)) (st : ZoomState T) :
  run initialZoom events = Some st →
  axis st = last (arrived events)
  ∧ lastTransform st = last (arrived events)
  ∧ held st ⊆+ arrived events
  ∧ (length (redraws st) ≤ length (arrived events))%nat
  ∧ (∀ transform, last (arrived events) = Some transform → transform ∈ held st)
  ∧ (∀ transform, last (arrived events) = Some transform →
       timeouts st = [] → frameCallbacks st = [] → transform ∈ redraws st)
  ∧ (∀ now st', step st (AnimationFrame now) = Some st' →
       redraws st' = redraws st ++ queued (frameCallbacks st)
       ∧ frameCallbacks st' = []).
Proof.
  intros Hrun.
  assert (Hmain : axis st = last (arrived events)
                  ∧ lastTransform st = last (arrived events)
                  ∧ held st ⊆+ arrived events
                  ∧ ∀ transform, last (arrived events) = Some transform →
                                 transform ∈ held st).
  { revert st Hrun. induction events as [|e events IH] using rev_ind; intros st Hrun.
    - simpl in Hrun. injection Hrun as <-. repeat split; try done.
    - rewrite run_snoc in Hrun.
      destruct (run initialZoom events) as [prev|] eqn:Hprev; [|done].
      simpl in Hrun. destruct (IH prev eq_refl) as (Haxis & Hlast & Hsub & Hin).
      assert (Hone : onePending prev).
      { apply (run_onePending events initialZoom prev); [by left|done]. }
      pose proof (step_held prev st e Hone Hrun) as Hstep.
      unfold arrived in *. rewrite omap_app.
      destruct e as [now transform|now id|now]; simpl.
      + destruct Hstep as (-> & -> & _ & kept & Hkept & Hheld).
        rewrite ?last_snoc, ?app_nil_r.
        split; [done|]. split; [done|]. split.
        * rewrite Hheld. apply submseteq_app; [|done]. by etrans.
        * intros x [= <-]. rewrite Hheld. apply elem_of_app. right. left.
      + destruct Hstep as (-> & -> & _ & Hheld).
        rewrite ?last_snoc, ?app_nil_r.
        split; [done|]. split; [done|]. split.
        * by rewrite Hheld.
        * intros x Hx. rewrite Hheld. auto.
      + destruct Hstep as (-> & -> & _ & _ & Hheld).
        rewrite ?last_snoc, ?app_nil_r.
        split; [done|]. split; [done|]. split.
        * by rewrite Hheld.
        * intros x Hx. rewrite Hheld. auto. }
  destruct Hmain as (Haxis & Hlast & Hsub & Hin).
  assert (Hone : onePending st).
  { apply (run_onePending events initialZoom st); [by left|done]. }
  split; [done|]. split; [done|]. split; [done|]. split.
  { apply submseteq_length in Hsub. unfold held in Hsub.
    rewrite !length_app in Hsub. lia. }
  split; [done|]. split.
  - intros transform Hx Hno Hnone. specialize (Hin transform Hx).
    unfold held in Hin. rewrite Hno, Hnone in Hin. simpl in Hin.
    by rewrite app_nil_r in Hin.
  - intros now st' Hstep.
    by destruct (step_held st st' (AnimationFrame now) Hone Hstep) as (_ & _ & ? & ? & _).
Qed.

End Drawn.

Section DrawnExamples.
Import JS Gff3Parser GenomeBrowser Notions MoreNotions ZoomNotions Samples.

Lemma zoom_draws_what_arrived_witness :
  ∃ st, run initialZoom
          [Zoom 1000 1%nat; Zoom 1020 2%nat; TimeoutFires 1080 1; AnimationFrame 1090]%float
        = Some st
        ∧ redraws st = [1; 2]%nat
        ∧ axis st = Some 2%nat
        ∧ (2%nat ∈ redraws st).
Proof.
  eexists. split; [by vm_compute|].
  split; [by vm_compute|]. split; [by vm_compute|].
  eapply (zoom_draws_what_arrived
            [Zoom 1000 1%nat; Zoom 1020 2%nat; TimeoutFires 1080 1;
             AnimationFrame 1090]%float);
    by vm_compute.
Defined.

End DrawnExamples.
